(** * Document ingestion examples: field extraction, chunking, identifiers

    A shallow embedding of the [ingest_document] functions of the
    backend examples (mongo, chroma, pgvector, pinecone, langchain,
    capybaradb) and the properties of their shared core: path
    resolution, overlapping chunking and chunk identifiers. *)

From Stdlib Require Import ZArith List Bool Lia Arith Permutation.
From Stdlib Require Import Strings.String Strings.Ascii Numbers.DecimalString Numbers.DecimalZ.
Import ListNotations.
Open Scope string_scope.
Open Scope Z_scope.

Set Warnings "-register-all".

(** ** Python values and built-ins used by the sources *)

Module Py.

(** A document: the JSON-like values a caller passes in.  Mappings keep
    insertion order, as Python dicts do.  (Floats are left out.) *)
Inductive value : Type :=
| VNone
| VBool (b : bool)
| VInt (z : Z)
| VStr (s : string)
| VList (items : list value)
| VDict (entries : list (string * value)).

(** What a Python call yields: a result or a raised exception. *)
Inductive exn : Type :=
| KeyError
| ValueError
| TypeError
| AttributeError
| ZeroDivisionError
| OverflowError.

(** [Unfinished] is the model's own outcome: the fuel given to a [while]
    loop ran out before the call returned. *)
Inductive res (A : Type) : Type :=
| Ok (a : A)
| Raise (e : exn)
| Unfinished.
Arguments Ok {A} a.
Arguments Raise {A} e.
Arguments Unfinished {A}.

Definition bind {A B} (m : res A) (k : A -> res B) : res B :=
  match m with
  | Ok a => k a
  | Raise e => Raise e
  | Unfinished => Unfinished
  end.

Notation "x <- m ;; k" := (bind m (fun x => k))
  (at level 61, m at next level, right associativity).

(** [len(s)]: texts are sequences of characters. *)
Definition len (s : string) : Z := Z.of_nat (String.length s).

(** [d.get(k)] / [k in d] / [d[k]] on a mapping. *)
Fixpoint lookup (k : string) (d : list (string * value)) : option value :=
  match d with
  | [] => None
  | (k', v) :: d' => if String.eqb k k' then Some v else lookup k d'
  end.

(** Truthiness: [bool(x)]. *)
Definition truthy (v : value) : bool :=
  match v with
  | VNone => false
  | VBool b => b
  | VInt z => negb (z =? 0)
  | VStr s => negb (String.eqb s "")
  | VList l => match l with [] => false | _ => true end
  | VDict d => match d with [] => false | _ => true end
  end.

Definition nonempty (s : string) : bool := negb (String.eqb s "").

(** [text.split(sep)] for an explicit separator: every occurrence of
    [sep], scanned left to right, ends a token; empty tokens are kept.
    [skip] counts the characters of a matched separator still to drop. *)
Fixpoint split_go (sep : string) (skip : nat) (s cur : string) : list string :=
  match s with
  | EmptyString => [cur]
  | String c s' =>
      match skip with
      | S k => split_go sep k s' cur
      | O =>
          if String.prefix sep s
          then cur :: split_go sep (String.length sep - 1) s' ""
          else split_go sep 0 s' (cur ++ String c "")
      end
  end.

Definition tokens (sep s : string) : list string := split_go sep 0 s "".

(** An empty separator raises [ValueError]. *)
Definition split (sep s : string) : res (list string) :=
  if String.eqb sep "" then Raise ValueError else Ok (tokens sep s).

(** [sep.join(l)] *)
Definition join (sep : string) (l : list string) : string := String.concat sep l.

(** Decimal rendering of an integer, as [str(i)] and f-strings do. *)
Definition str_of_Z (z : Z) : string := NilZero.string_of_int (Z.to_int z).

(** [lst[a:b]] with Python's treatment of negative and out-of-range
    bounds. *)
Definition clamp_index (n i : Z) : Z :=
  if i <? 0 then Z.max (i + n) 0 else Z.min i n.

Definition slice {A} (l : list A) (a b : Z) : list A :=
  let n := Z.of_nat (List.length l) in
  let a' := clamp_index n a in
  let b' := clamp_index n b in
  firstn (Z.to_nat (b' - a')) (skipn (Z.to_nat a') l).

(** [lst[a:]] *)
Definition slice_from {A} (l : list A) (a : Z) : list A :=
  let n := Z.of_nat (List.length l) in
  skipn (Z.to_nat (clamp_index n a)) l.

(** *** [repr] and [str] *)

Definition hex_digit (n : nat) : ascii :=
  match n with
  | 0 => "0" | 1 => "1" | 2 => "2" | 3 => "3" | 4 => "4" | 5 => "5"
  | 6 => "6" | 7 => "7" | 8 => "8" | 9 => "9" | 10 => "a" | 11 => "b"
  | 12 => "c" | 13 => "d" | 14 => "e" | _ => "f"
  end%char%nat.

Definition hex2 (c : ascii) : string :=
  let n := nat_of_ascii c in
  String (hex_digit (Nat.div n 16)) (String (hex_digit (Nat.modulo n 16)) "").

Fixpoint contains_char (c : ascii) (s : string) : bool :=
  match s with
  | EmptyString => false
  | String a s' => Ascii.eqb a c || contains_char c s'
  end.

Definition squote : ascii := "'"%char.
Definition dquote : ascii := ascii_of_nat 34.
Definition backslash : ascii := "\"%char.

(** Escapes of one character inside a [repr] delimited by [q].
    Characters above 127 are printable text and stay as they are. *)
Definition repr_char (q c : ascii) : string :=
  let n := nat_of_ascii c in
  if Ascii.eqb c backslash then String backslash (String backslash "")
  else if Ascii.eqb c q then String backslash (String q "")
  else if Nat.eqb n 10 then String backslash "n"
  else if Nat.eqb n 13 then String backslash "r"
  else if Nat.eqb n 9 then String backslash "t"
  else if (Nat.ltb n 32 || Nat.eqb n 127)%bool then String backslash ("x" ++ hex2 c)
  else String c "".

Fixpoint repr_chars (q : ascii) (s : string) : string :=
  match s with
  | EmptyString => ""
  | String c s' => repr_char q c ++ repr_chars q s'
  end.

(** [repr(s)]: single quotes unless the text has a single quote and no
    double quote. *)
Definition repr_str (s : string) : string :=
  let q := if (contains_char squote s && negb (contains_char dquote s))%bool
           then dquote else squote in
  String q (repr_chars q s ++ String q "").

Fixpoint repr (v : value) : string :=
  match v with
  | VNone => "None"
  | VBool true => "True"
  | VBool false => "False"
  | VInt z => str_of_Z z
  | VStr s => repr_str s
  | VList l => "[" ++ join ", " (map repr l) ++ "]"
  | VDict d =>
      "{" ++ join ", " (map (fun kv => repr_str (fst kv) ++ ": " ++ repr (snd kv)) d) ++ "}"
  end.

(** [str(v)] *)
Definition str (v : value) : string :=
  match v with
  | VStr s => s
  | _ => repr v
  end.

(** [enumerate(l, start)] *)
Fixpoint enumerate_from {A} (i : Z) (l : list A) : list (Z * A) :=
  match l with
  | [] => []
  | x :: l' => (i, x) :: enumerate_from (i + 1) l'
  end.

Definition enumerate {A} (l : list A) : list (Z * A) := enumerate_from 0 l.

(** A [for] loop whose body may raise: the first exception ends it. *)
Fixpoint for_each {A S} (body : S -> A -> res S) (l : list A) (st : S) : res S :=
  match l with
  | [] => Ok st
  | x :: l' => st' <- body st x ;; for_each body l' st'
  end.

(** [parts[parts.index("*")+1:]] *)
Fixpoint after_first_star (parts : list string) : list string :=
  match parts with
  | [] => []
  | part :: rest => if String.eqb part "*" then rest else after_first_star rest
  end.

Fixpoint map_res {A B} (f : A -> res B) (l : list A) : res (list B) :=
  match l with
  | [] => Ok []
  | x :: l' => y <- f x ;; ys <- map_res f l' ;; Ok (y :: ys)
  end.

Definition sum_Z (l : list Z) : Z := fold_right Z.add 0 l.

(** [int(a / b)] on integers.  [a / b] is the float nearest to the
    quotient (53 significant bits, a tie goes to the even one); the division
    raises [OverflowError] when that float would be beyond the largest
    one, and [int] drops the fraction.  [round_half_even n d] is the
    integer nearest to [n / d]. *)
Definition round_half_even (n d : Z) : Z :=
  let m := n / d in
  let r := n mod d in
  if ((2 * r >? d) || ((2 * r =? d) && Z.odd m))%bool then m + 1 else m.

(** For [a] and [b] above zero; [e] is the exponent of the quotient,
    [2^e <= a / b < 2^(e+1)], and [s] the shift that gives it 53
    bits. *)
Definition int_true_div_pos (a b : Z) : res Z :=
  let e0 := Z.log2 a - Z.log2 b in
  let e := if (if 0 <=? e0 then b * 2 ^ e0 <=? a else b <=? a * 2 ^ (- e0))
           then e0 else e0 - 1 in
  if e <? -1 then Ok 0
  else
    let s := 52 - e in
    if 0 <=? s then Ok (round_half_even (a * 2 ^ s) b / 2 ^ s)
    else
      let x := round_half_even a (b * 2 ^ (- s)) * 2 ^ (- s) in
      if 2 ^ 1024 <=? x then Raise OverflowError else Ok x.

Definition int_true_div (a b : Z) : res Z :=
  if b =? 0 then Raise ZeroDivisionError
  else if a =? 0 then Ok 0
  else
    match int_true_div_pos (Z.abs a) (Z.abs b) with
    | Ok q => Ok (Z.sgn a * Z.sgn b * q)
    | r => r
    end.

Definition is_list (v : value) : bool :=
  match v with VList _ => true | _ => false end.

Definition is_dict (v : value) : bool :=
  match v with VDict _ => true | _ => false end.

End Py.

Import Py.


(** ** mongo/implementation.py *)

Module Mongo.

Section Ingest.

Context {E : Type}.

(** The parameters of [ingest_document] that its nested functions close
    over.  [embedding_model] is [None] or an object whose [embed_text]
    is the given function. *)
Variable chunk_size : Z.
Variable chunk_overlap : Z.
Variable separator : string.
Variable embedding_model : option (string -> E).

(** One iteration of the packing loop of [chunk_text]; the state is
    [(chunks, current_chunk, current_length)]. *)
Definition pack_word (st : list string * list string * Z) (word : string)
  : list string * list string * Z :=
  let '(chunks, current_chunk, current_length) := st in
  let word_len := len word in
  if current_length + word_len + 1 <=? chunk_size
  then (chunks, (current_chunk ++ [word])%list, current_length + word_len + 1)
  else ((match current_chunk with
         | [] => chunks
         | _ => (chunks ++ [join separator current_chunk])%list
         end), [word], word_len + 1).

Definition flush (st : list string * list string * Z) : list string :=
  let '(chunks, current_chunk, _) := st in
  match current_chunk with
  | [] => chunks
  | _ => (chunks ++ [join separator current_chunk])%list
  end.

(** The chunks before the overlap pass. *)
Definition base_chunks (words : list string) : list string :=
  flush (fold_left pack_word words ([], [], 0)).

(** The chunk at position [i > 0]: the last [chunk_overlap] words of
    [chunks[i-1]] followed by the words of the chunk itself. *)
Definition with_overlap (prev_chunk chunk : string) : string :=
  let overlap_words := slice_from (tokens separator prev_chunk) (- chunk_overlap) in
  join separator (overlap_words ++ tokens separator chunk)%list.

Fixpoint overlap_after (prev_chunk : string) (chunks : list string) : list string :=
  match chunks with
  | [] => []
  | chunk :: rest => with_overlap prev_chunk chunk :: overlap_after chunk rest
  end.

Definition add_overlap (chunks : list string) : list string :=
  if ((chunk_overlap >? 0) && (Z.of_nat (List.length chunks) >? 1))%bool
  then match chunks with
       | [] => []
       | chunk :: rest => chunk :: overlap_after chunk rest
       end
  else chunks.

Definition chunk_text (text : string) : res (list string) :=
  words <- split separator text ;;
  Ok (add_overlap (base_chunks words)).

(** [item.values()] for mappings, the item itself otherwise. *)
Definition wildcard_items (items : list value) : list value :=
  flat_map (fun item => match item with
                        | VDict d => map snd d
                        | _ => [item]
                        end) items.

Definition get_or_empty (part : string) (d : list (string * value)) : value :=
  match lookup part d with
  | Some v => v
  | None => VStr ""
  end.

Fixpoint extract_field_content (current : value) (field_parts : list string) : string :=
  match field_parts with
  | [] => if truthy current then str current else ""
  | part :: rest =>
      if negb (truthy current) then ""
      else if String.eqb part "*" then
        match current with
        | VList items => extract_field_content (VList (wildcard_items items)) rest
        | _ => extract_field_content current rest
        end
      else
        match current with
        | VDict d => extract_field_content (get_or_empty part d) rest
        | VList items =>
            extract_field_content
              (VStr (join " " (map (fun item => match item with
                                                | VDict d => str (get_or_empty part d)
                                                | _ => str item
                                                end)
                                   (filter truthy items))))
              rest
        | _ => extract_field_content current rest
        end
  end.

(** The [UpdateOne] built for one chunk. *)
Record update_one : Type := {
  filter_doc_id : value;
  filter_chunk_id : string;
  set_doc_id : value;
  set_chunk_id : string;
  set_field : string;
  chunk_index : Z;
  text : string;
  embedding : option E;
  total_chunks : Z;
  meta_chunk_size : Z;
  meta_chunk_overlap : Z
}.

Definition chunk_id (field : string) (i : Z) : string :=
  field ++ "_chunk_" ++ str_of_Z (i + 1).

Definition make_update (doc_id : value) (field : string) (chunks : list string)
    (ic : Z * string) : update_one :=
  let '(i, chunk) := ic in
  {| filter_doc_id := doc_id;
     filter_chunk_id := chunk_id field i;
     set_doc_id := doc_id;
     set_chunk_id := chunk_id field i;
     set_field := field;
     chunk_index := i + 1;
     text := chunk;
     embedding := match embedding_model with
                  | Some embed_text => Some (embed_text chunk)
                  | None => None
                  end;
     total_chunks := Z.of_nat (List.length chunks);
     meta_chunk_size := chunk_size;
     meta_chunk_overlap := chunk_overlap |}.

Definition document_id (document : list (string * value)) : value :=
  match lookup "id" document with
  | Some v => v
  | None => VStr (str (VDict document))
  end.

(** The operations one field adds to [bulk_operations]. *)
Definition field_operations (document : list (string * value)) (field : string)
  : res (list update_one) :=
  let content := extract_field_content (VDict document) (tokens "." field) in
  if negb (nonempty content) then Ok []
  else
    chunks <- chunk_text content ;;
    Ok (map (make_update (document_id document) field chunks) (enumerate chunks)).

(** [ingest_document]: the list handed to [collection.bulk_write]
    (which is called only when the list is not empty). *)
Definition ingest_document (document : list (string * value))
    (searchable_fields : list string) : res (list update_one) :=
  for_each (fun bulk_operations field =>
              ops <- field_operations document field ;;
              Ok (bulk_operations ++ ops)%list)
           searchable_fields [].

End Ingest.

End Mongo.

(** ** chroma/implementation.py *)

Module Chroma.

Section Ingest.

Variable chunk_size : Z.
Variable chunk_overlap : Z.
Variable separator : string.

(** [f"{current_path}.{current}" if current_path else current] *)
Definition dotted (current_path current : string) : string :=
  if nonempty current_path then current_path ++ "." ++ current else current.

(** [f"{current_path}[{i}]" if current_path else f"[{i}]"] *)
Definition indexed (current_path : string) (i : Z) : string :=
  if nonempty current_path
  then current_path ++ "[" ++ str_of_Z i ++ "]"
  else "[" ++ str_of_Z i ++ "]".

Fixpoint extract_field_value (path : list string) (obj : value) (current_path : string)
  : list (string * string) :=
  match path with
  | [] => []
  | current :: remaining =>
      if (String.eqb current "*" && is_list obj)%bool then
        match obj with
        | VList items =>
            List.concat (map (fun ii => extract_field_value remaining (snd ii)
                                     (indexed current_path (fst ii)))
                        (enumerate items))
        | _ => []
        end
      else
        match obj with
        | VDict d =>
            match remaining with
            | [] =>
                match lookup current d with
                | Some (VStr s) => [(dotted current_path current, s)]
                | Some (VList vs) =>
                    [(dotted current_path current, join separator (map str vs))]
                | _ => []
                end
            | _ =>
                match lookup current d with
                | Some v => extract_field_value remaining v (dotted current_path current)
                | None => []
                end
            end
        | _ => []
        end
  end.

(** The dictionary built by [create_chunk]. *)
Record chunk : Type := {
  id : string;
  text : string;
  document_id : value;
  field : string;
  chunk_index : Z
}.

Definition create_chunk (doc_id : value) (text field_path : string) (chunk_index : Z)
  : chunk :=
  {| id := str doc_id ++ "_" ++ field_path ++ "_chunk_" ++ str_of_Z chunk_index;
     text := text;
     document_id := doc_id;
     field := field_path;
     chunk_index := chunk_index |}.

(** The overlap loop over [reversed(current_chunk)]: words are taken
    from the end while their lengths, each with one separator, stay
    within [chunk_overlap]. *)
Fixpoint overlap_loop (reversed_chunk overlap_words : list string) (overlap_length : Z)
  : list string * Z :=
  match reversed_chunk with
  | [] => (overlap_words, overlap_length)
  | w :: rest =>
      let w_len := len w + len separator in
      if overlap_length + w_len >? chunk_overlap
      then (overlap_words, overlap_length)
      else overlap_loop rest (w :: overlap_words) (overlap_length + w_len)
  end.

Definition overlap_of (current_chunk : list string) : list string * Z :=
  overlap_loop (rev current_chunk) [] 0.

(** The state of the loop over the words of one field. *)
Record packer : Type := {
  emitted : list chunk;
  current_chunk : list string;
  current_length : Z;
  next_index : Z
}.

Definition pack_word (doc_id : value) (field_path : string) (st : packer) (word : string)
  : packer :=
  let word_length :=
    len word + (match current_chunk st with [] => 0 | _ => len separator end) in
  let st1 :=
    if ((current_length st + word_length >? chunk_size)
        && (match current_chunk st with [] => false | _ => true end))%bool
    then
      let '(overlap_words, overlap_length) := overlap_of (current_chunk st) in
      {| emitted := (emitted st ++
                       [create_chunk doc_id (join separator (current_chunk st))
                                     field_path (next_index st)])%list;
         current_chunk := overlap_words;
         current_length := overlap_length;
         next_index := next_index st + 1 |}
    else st in
  {| emitted := emitted st1;
     current_chunk := (current_chunk st1 ++ [word])%list;
     current_length := current_length st1 + word_length;
     next_index := next_index st1 |}.

Definition finish (doc_id : value) (field_path : string) (st : packer) : list chunk :=
  match current_chunk st with
  | [] => emitted st
  | _ => (emitted st ++
            [create_chunk doc_id (join separator (current_chunk st))
                          field_path (next_index st)])%list
  end.

(** The chunks of one resolved field. *)
Definition field_chunks (doc_id : value) (field_path text : string) : res (list chunk) :=
  words <- split separator text ;;
  Ok (finish doc_id field_path
        (fold_left (pack_word doc_id field_path) words
           {| emitted := []; current_chunk := []; current_length := 0; next_index := 0 |})).

(** [ingest_document]: the contents of [chunks_data], which is passed to
    [collection.upsert] when it is not empty.  [document['id']] is read
    first, for the collection name. *)
Definition ingest_document (document : list (string * value))
    (searchable_fields : list string) : res (list chunk) :=
  match lookup "id" document with
  | None => Raise KeyError
  | Some doc_id =>
      for_each (fun chunks_data field_pattern =>
                  for_each (fun chunks_data' ft =>
                              cs <- field_chunks doc_id (fst ft) (snd ft) ;;
                              Ok (chunks_data' ++ cs)%list)
                           (extract_field_value (tokens "." field_pattern) (VDict document) "")
                           chunks_data)
               searchable_fields []
  end.

End Ingest.

End Chroma.

(** ** pgvector/implementation.py *)

Module PgVector.

(** *** [json.dumps] (default separators, [ensure_ascii]) *)

Definition hex4 (c : ascii) : string := "00" ++ hex2 c.

Definition json_char (c : ascii) : string :=
  let n := nat_of_ascii c in
  if Ascii.eqb c dquote then String backslash (String dquote "")
  else if Ascii.eqb c backslash then String backslash (String backslash "")
  else if Nat.eqb n 10 then String backslash "n"
  else if Nat.eqb n 13 then String backslash "r"
  else if Nat.eqb n 9 then String backslash "t"
  else if Nat.eqb n 8 then String backslash "b"
  else if Nat.eqb n 12 then String backslash "f"
  else if (Nat.ltb n 32 || Nat.ltb 126 n)%bool then String backslash ("u" ++ hex4 c)
  else String c "".

Fixpoint json_chars (s : string) : string :=
  match s with
  | EmptyString => ""
  | String c s' => json_char c ++ json_chars s'
  end.

Definition json_str (s : string) : string :=
  String dquote (json_chars s ++ String dquote "").

(** [sort_keys=True]: members ordered by key. *)
Fixpoint insert_member (m : string * string) (l : list (string * string))
  : list (string * string) :=
  match l with
  | [] => [m]
  | m' :: l' => if String.leb (fst m) (fst m') then m :: l else m' :: insert_member m l'
  end.

Definition sort_members (l : list (string * string)) : list (string * string) :=
  fold_right insert_member [] l.

Fixpoint json_dumps (sort_keys : bool) (v : value) : string :=
  match v with
  | VNone => "null"
  | VBool true => "true"
  | VBool false => "false"
  | VInt z => str_of_Z z
  | VStr s => json_str s
  | VList l => "[" ++ join ", " (map (json_dumps sort_keys) l) ++ "]"
  | VDict d =>
      let members := map (fun kv => (fst kv, json_dumps sort_keys (snd kv))) d in
      let ordered := if sort_keys then sort_members members else members in
      "{" ++ join ", " (map (fun m => json_str (fst m) ++ ": " ++ snd m) ordered) ++ "}"
  end.

Section Ingest.

Context {E : Type}.

(** The built-in [hash] on [str].  CPython salts it with a random value
    chosen when the interpreter starts (PYTHONHASHSEED): the function is
    fixed during one process and differs from one process to the next. *)
Variable py_hash : string -> Z.

Variable chunk_size : Z.
Variable chunk_overlap : Z.
Variable separator : string.
Variable embedding_model : option (string -> E).

(** The body of the [for part in parts] loop of [get_field_value];
    [recurse] is the call made for each item under a wildcard. *)
Fixpoint walk (recurse : value -> res value) (parts : list string) (current : value)
  : res value :=
  match parts with
  | [] => Ok current
  | part :: rest =>
      if String.eqb part "*" then
        match current with
        | VList items => r <- map_res recurse items ;; Ok (VList r)
        | _ => Ok VNone
        end
      else
        match current with
        | VDict d =>
            match lookup part d with
            | Some v => walk recurse rest v
            | None => Ok VNone
            end
        | _ => Ok VNone
        end
  end.

(** [get_field_value]; each recursive call gets a shorter path, so a
    fuel above the length of the path is never used up. *)
Fixpoint get_field_value_fuel (fuel : nat) (doc : value) (field_path : string)
  : res value :=
  match fuel with
  | O => Unfinished
  | S fuel' =>
      let parts := tokens "." field_path in
      walk (fun item =>
              get_field_value_fuel fuel' item (join "." (after_first_star parts)))
           parts doc
  end.

Definition get_field_value (doc : value) (field_path : string) : res value :=
  get_field_value_fuel (S (String.length field_path)) doc field_path.

Fixpoint flatten_item (item : value) : list string :=
  match item with
  | VList l => flat_map flatten_item l
  | VNone => []
  | _ => [str item]
  end.

Definition flatten_list (lst : list value) : list string := flat_map flatten_item lst.

(** The inner [while] of [create_chunks]: [end] moves right over
    [words[end:]] while the words fit. *)
Fixpoint scan_end (rest : list string) (end_ current_len : Z) : Z :=
  match rest with
  | [] => end_
  | w :: rest' =>
      let step := len w + (if current_len >? 0 then 1 else 0) in
      if current_len + step <=? chunk_size
      then scan_end rest' (end_ + 1) (current_len + step)
      else end_
  end.

(** [int(overlap / (len(sep) + sum(len(w) for w in words[end-1:end])))]:
    true division, which is made in floats, followed by truncation. *)
Definition overlap_words_count (words : list string) (end_ : Z) : res Z :=
  int_true_div chunk_overlap
    (len separator + sum_Z (map len (slice words (end_ - 1) end_))).

(** The outer [while start < len(words)] loop; one unit of fuel per
    iteration. *)
Fixpoint create_chunks_loop (fuel : nat) (words : list string) (start : Z)
    (chunks : list string) : res (list string) :=
  match fuel with
  | O => Unfinished
  | S fuel' =>
      if start <? Z.of_nat (List.length words) then
        let chunk := join separator (slice_from words start) in
        if len chunk <=? chunk_size then Ok (chunks ++ [chunk])%list
        else
          let end_ := scan_end (slice_from words start) start 0 in
          let chunks' := (chunks ++ [join separator (slice words start end_)])%list in
          k <- overlap_words_count words end_ ;;
          create_chunks_loop fuel' words (Z.max start (end_ - Z.max 1 k)) chunks'
      else Ok chunks
  end.

Definition create_chunks (fuel : nat) (text : string) : res (list string) :=
  words <- split separator text ;;
  create_chunks_loop fuel words 0 [].

(** The parameters of one [INSERT ... ON CONFLICT ... DO UPDATE]. *)
Record row : Type := {
  doc_id : value;
  field_name : string;
  chunk_index : Z;
  chunk_text : string;
  embedding : E;
  metadata : string
}.

Definition document_id (document : list (string * value)) : value :=
  match lookup "id" document with
  | Some v => v
  | None => VStr (str_of_Z (py_hash (json_dumps true (VDict document))))
  end.

Definition insert_chunk (document : list (string * value)) (field : string)
    (ic : Z * string) : res row :=
  match embedding_model with
  | None => Raise AttributeError
  | Some embed_text =>
      Ok {| doc_id := document_id document;
            field_name := field;
            chunk_index := fst ic;
            chunk_text := snd ic;
            embedding := embed_text (snd ic);
            metadata := json_dumps false (VDict [("document", VDict document)]) |}
  end.

Definition text_rows (fuel : nat) (document : list (string * value)) (field : string)
    (rows : list row) (text : string) : res (list row) :=
  if negb (nonempty text) then Ok rows
  else
    chunks <- create_chunks fuel text ;;
    new_rows <- map_res (insert_chunk document field) (enumerate chunks) ;;
    Ok (rows ++ new_rows)%list.

Definition field_rows (fuel : nat) (document : list (string * value))
    (rows : list row) (field : string) : res (list row) :=
  field_value <- get_field_value (VDict document) field ;;
  match field_value with
  | VNone => Ok rows
  | VList l => for_each (text_rows fuel document field) (flatten_list l) rows
  | v => for_each (text_rows fuel document field) (flatten_list [v]) rows
  end.

(** [ingest_document]: the rows sent to the database, in order. *)
Definition ingest_document (fuel : nat) (document : list (string * value))
    (searchable_fields : list string) : res (list row) :=
  for_each (field_rows fuel document) searchable_fields [].

End Ingest.

End PgVector.

(** ** pinecone/implementation.py *)

Module Pinecone.

Section Ingest.

Context {E : Type}.

Variable chunk_size : Z.
Variable chunk_overlap : Z.
Variable separator : string.
Variable embedding_model : option (string -> E).

(** The [for part in parts] loop of [get_nested_value]. *)
Fixpoint walk (recurse : value -> res value) (parts : list string) (current : value)
  : res value :=
  match parts with
  | [] => Ok current
  | part :: rest =>
      if (String.eqb part "*" && is_list current)%bool then
        match current with
        | VList items => r <- map_res recurse items ;; Ok (VList r)
        | _ => Ok VNone
        end
      else
        match current with
        | VDict d =>
            walk recurse rest (match lookup part d with
                               | Some v => v
                               | None => VDict []
                               end)
        | _ => Ok VNone
        end
  end.

Fixpoint get_nested_value_fuel (fuel : nat) (obj : value) (path : string) : res value :=
  match fuel with
  | O => Unfinished
  | S fuel' =>
      let parts := tokens "." path in
      walk (fun item =>
              get_nested_value_fuel fuel' item (join "." (after_first_star parts)))
           parts obj
  end.

Definition get_nested_value (obj : value) (path : string) : res value :=
  get_nested_value_fuel (S (String.length path)) obj path.

Fixpoint flatten_item (item : value) : list value :=
  match item with
  | VList l => flat_map flatten_item l
  | _ => [item]
  end.

Definition flatten (lst : list value) : list value := flat_map flatten_item lst.

(** The [while start < len(words)] loop of [create_chunks]. *)
Fixpoint create_chunks_loop (fuel : nat) (words : list string)
    (chunk_words overlap_words start : Z) (chunks : list string) : res (list string) :=
  match fuel with
  | O => Unfinished
  | S fuel' =>
      if start <? Z.of_nat (List.length words) then
        create_chunks_loop fuel' words chunk_words overlap_words
          (start + chunk_words - overlap_words)
          (chunks ++ [join separator (slice words start (start + chunk_words))])%list
      else Ok chunks
  end.

Definition create_chunks (fuel : nat) (text : string) : res (list string) :=
  if negb (nonempty text) then Ok []
  else
    words <- split separator text ;;
    match words with
    | [] => Ok []
    | _ =>
        let chunk_words := chunk_size / (len separator + 1) in
        let overlap_words := chunk_overlap / (len separator + 1) in
        create_chunks_loop fuel words chunk_words overlap_words 0 []
    end.

(** One entry of [vectors_to_upsert]. *)
Record vector : Type := {
  chunk_id : string;
  values : E;
  meta_document_id : string;
  meta_field : string;
  meta_chunk_index : Z;
  meta_text : string
}.

Definition make_vector (embed_text : string -> E) (doc_id field_path : string)
    (ic : Z * string) : vector :=
  {| chunk_id := doc_id ++ "_" ++ field_path ++ "_" ++ str_of_Z (fst ic);
     values := embed_text (snd ic);
     meta_document_id := doc_id;
     meta_field := field_path;
     meta_chunk_index := fst ic;
     meta_text := snd ic |}.

(** [isinstance(value, (str, int, float))] ([bool] is an [int]). *)
Definition is_text_or_number (v : value) : bool :=
  match v with
  | VStr _ | VInt _ | VBool _ => true
  | _ => false
  end.

Definition value_vectors (fuel : nat) (doc_id field_path : string)
    (vectors_to_upsert : list vector) (v : value) : res (list vector) :=
  if negb (is_text_or_number v) then Ok vectors_to_upsert
  else
    chunks <- create_chunks fuel (str v) ;;
    match embedding_model with
    | Some embed_text =>
        Ok (vectors_to_upsert
              ++ map (make_vector embed_text doc_id field_path) (enumerate chunks))%list
    | None => Ok vectors_to_upsert
    end.

Definition field_vectors (fuel : nat) (document : list (string * value)) (doc_id : string)
    (vectors_to_upsert : list vector) (field_path : string) : res (list vector) :=
  field_values <- get_nested_value (VDict document) field_path ;;
  if negb (truthy field_values) then Ok vectors_to_upsert
  else
    let field_values := match field_values with
                        | VList l => l
                        | v => [v]
                        end in
    for_each (value_vectors fuel doc_id field_path) (flatten field_values)
             vectors_to_upsert.

Definition document_id (document : list (string * value)) : string :=
  str (match lookup "id" document with
       | Some v => v
       | None => VStr ""
       end).

(** The contents of [vectors_to_upsert] when the loop over the fields
    has ended. *)
Definition collect_vectors (fuel : nat) (document : list (string * value))
    (searchable_fields : list string) : res (list vector) :=
  for_each (field_vectors fuel document (document_id document)) searchable_fields [].

(** [vectors[i:i + batch_size] for i in range(0, len(vectors), batch_size)] *)
Fixpoint batches (n : nat) (vectors : list vector) : list (list vector) :=
  match n with
  | O => []
  | S n' =>
      match vectors with
      | [] => []
      | _ => firstn 100 vectors :: batches n' (skipn 100 vectors)
      end
  end.

(** [ingest_document]: the arguments of the successive [index.upsert]
    calls; the backend is reached only when there are vectors. *)
Definition ingest_document (fuel : nat) (document : list (string * value))
    (searchable_fields : list string) : res (list (list vector)) :=
  vectors_to_upsert <- collect_vectors fuel document searchable_fields ;;
  Ok (batches (List.length vectors_to_upsert) vectors_to_upsert).

End Ingest.

End Pinecone.

(** ** langchain/implementation.py *)

Module Langchain.

Section Ingest.

(** [RecursiveCharacterTextSplitter(chunk_size, chunk_overlap,
    length_function=len, separators=[separator]).split_text] belongs to
    the langchain library; it is a parameter here. *)
Variable split_text : Z -> Z -> string -> string -> list string.

Variable chunk_size : Z.
Variable chunk_overlap : Z.
Variable separator : string.

Fixpoint extract_field_value (path : list string) (obj : value)
    (current_path : list string) : list string :=
  match path with
  | [] => [str obj]
  | current :: remaining =>
      if String.eqb current "*" then
        match obj with
        | VList items =>
            List.concat
              (map (fun ii => extract_field_value remaining (snd ii)
                                (current_path ++ [str_of_Z (fst ii)])%list)
                   (enumerate items))
        | _ => []
        end
      else
        match obj with
        | VDict d =>
            match lookup current d with
            | Some v => extract_field_value remaining v (current_path ++ [current])%list
            | None => []
            end
        | _ => []
        end
  end.

(** A langchain [Document] with its metadata. *)
Record document_chunk : Type := {
  page_content : string;
  doc_id : value;
  field : string;
  chunk_index : Z;
  chunk_id : string
}.

Definition make_chunk (doc_id : value) (field_pattern : string) (it : Z * string)
  : document_chunk :=
  {| page_content := snd it;
     doc_id := doc_id;
     field := field_pattern;
     chunk_index := fst it + 1;
     chunk_id := str doc_id ++ "_" ++ field_pattern ++ "_" ++ str_of_Z (fst it + 1) |}.

Definition value_chunks (doc_id : value) (field_pattern value : string)
  : list document_chunk :=
  if negb (nonempty value) then []
  else map (make_chunk doc_id field_pattern)
           (enumerate (split_text chunk_size chunk_overlap separator value)).

Definition document_id (document : list (string * value)) : value :=
  match lookup "id" document with
  | Some v => v
  | None => VStr ""
  end.

(** [ingest_document]: the list [chunks], stored through
    [Chroma.from_documents] when it is not empty. *)
Definition ingest_document (document : list (string * value))
    (searchable_fields : list string) : list document_chunk :=
  flat_map (fun field_pattern =>
              flat_map (value_chunks (document_id document) field_pattern)
                       (extract_field_value (tokens "." field_pattern) (VDict document) []))
           searchable_fields.

End Ingest.

End Langchain.

(** ** capybaradb/implementation.py *)

Module Capybara.

Section Ingest.

(** The type of the embedding model object, stored as it is. *)
Context {M : Type}.

(** The [EmbText] object built for a text field. *)
Record emb_text : Type := {
  et_text : string;
  emb_model : option M;
  max_chunk_size : Z;
  et_chunk_overlap : Z;
  separators : list string;
  is_separator_regex : bool;
  keep_separator : bool
}.

(** [process_field] assigns into dictionaries that the caller may also
    hold, so mappings and sequences live in a store and values refer to
    them by address. *)
Inductive hval : Type :=
| HNone
| HBool (b : bool)
| HInt (z : Z)
| HStr (s : string)
| HEmb (e : emb_text)
| HRef (addr : nat).

Inductive obj : Type :=
| ODict (entries : list (string * hval))
| OList (items : list hval).

Definition heap : Type := list obj.

Definition deref (h : heap) (addr : nat) : option obj := nth_error h addr.

Fixpoint store (h : heap) (addr : nat) (o : obj) : heap :=
  match h, addr with
  | [], _ => []
  | _ :: h', O => o :: h'
  | o' :: h', S n => o' :: store h' n o
  end.

Definition new_object (h : heap) (o : obj) : hval * heap :=
  (HRef (List.length h), (h ++ [o])%list).

(** Building the caller's document in the store. *)
Fixpoint load (v : value) (h : heap) : hval * heap :=
  match v with
  | VNone => (HNone, h)
  | VBool b => (HBool b, h)
  | VInt z => (HInt z, h)
  | VStr s => (HStr s, h)
  | VList l =>
      let '(items, h') :=
        (fix load_items (l : list value) (h : heap) : list hval * heap :=
           match l with
           | [] => ([], h)
           | x :: l' =>
               let '(x', h1) := load x h in
               let '(r, h2) := load_items l' h1 in
               (x' :: r, h2)
           end) l h in
      new_object h' (OList items)
  | VDict d =>
      let '(entries, h') :=
        (fix load_entries (d : list (string * value)) (h : heap)
           : list (string * hval) * heap :=
           match d with
           | [] => ([], h)
           | (k, x) :: d' =>
               let '(x', h1) := load x h in
               let '(r, h2) := load_entries d' h1 in
               ((k, x') :: r, h2)
           end) d h in
      new_object h' (ODict entries)
  end.

(** What a reference denotes in a store, as a tree; [fuel] bounds the
    depth followed. *)
Inductive view : Type :=
| WNone
| WBool (b : bool)
| WInt (z : Z)
| WStr (s : string)
| WEmb (e : emb_text)
| WList (items : list view)
| WDict (entries : list (string * view))
| WDangling.

Fixpoint snapshot (fuel : nat) (h : heap) (v : hval) : view :=
  match v with
  | HNone => WNone
  | HBool b => WBool b
  | HInt z => WInt z
  | HStr s => WStr s
  | HEmb e => WEmb e
  | HRef a =>
      match fuel with
      | O => WDangling
      | S fuel' =>
          match deref h a with
          | Some (OList items) => WList (map (snapshot fuel' h) items)
          | Some (ODict entries) =>
              WDict (map (fun kv => (fst kv, snapshot fuel' h (snd kv))) entries)
          | None => WDangling
          end
      end
  end.

Variable chunk_size : Z.
Variable chunk_overlap : Z.
Variable separator : string.
Variable embedding_model : option M.

(** The [EmbText] class belongs to the capybaradb package, not to this
    repository.  Its constructor checks its arguments and raises
    [ValueError] for those it refuses (a text without content, a model
    it does not support, [None] among them); [emb_text_valid] stands
    for that check. *)
Variable emb_text_valid : emb_text -> bool.

Fixpoint hlookup (k : string) (d : list (string * hval)) : option hval :=
  match d with
  | [] => None
  | (k', v) :: d' => if String.eqb k k' then Some v else hlookup k d'
  end.

(** [d[k] = v] for a key that is present. *)
Fixpoint assign (k : string) (v : hval) (d : list (string * hval))
  : list (string * hval) :=
  match d with
  | [] => [(k, v)]
  | (k', v') :: d' => if String.eqb k k' then (k, v) :: d' else (k', v') :: assign k v d'
  end.

Fixpoint substring_of (p s : string) : bool :=
  (String.prefix p s
   || match s with
      | EmptyString => false
      | String _ s' => substring_of p s'
      end)%bool.

(** [part in current] *)
Definition contains (h : heap) (part : string) (current : hval) : res bool :=
  match current with
  | HRef a =>
      match deref h a with
      | Some (ODict entries) =>
          Ok (match hlookup part entries with Some _ => true | None => false end)
      | Some (OList items) =>
          Ok (existsb (fun item => match item with
                                   | HStr s => String.eqb s part
                                   | _ => false
                                   end) items)
      | None => Raise TypeError
      end
  | HStr s => Ok (substring_of part s)
  | _ => Raise TypeError
  end.

(** [current[part]], [part] being a string. *)
Definition getitem (h : heap) (current : hval) (part : string) : res hval :=
  match current with
  | HRef a =>
      match deref h a with
      | Some (ODict entries) =>
          match hlookup part entries with
          | Some v => Ok v
          | None => Raise KeyError
          end
      | _ => Raise TypeError
      end
  | _ => Raise TypeError
  end.

Definition setitem (h : heap) (current : hval) (part : string) (v : hval) : res heap :=
  match current with
  | HRef a =>
      match deref h a with
      | Some (ODict entries) => Ok (store h a (ODict (assign part v entries)))
      | _ => Raise TypeError
      end
  | _ => Raise TypeError
  end.

Definition list_items (h : heap) (current : hval) : option (list hval) :=
  match current with
  | HRef a =>
      match deref h a with
      | Some (OList items) => Some items
      | _ => None
      end
  | _ => None
  end.

(** The arguments given to [EmbText] for a text. *)
Definition emb_text_args (text : string) : emb_text :=
  {| et_text := text;
     emb_model := embedding_model;
     max_chunk_size := chunk_size;
     et_chunk_overlap := chunk_overlap;
     separators := [separator];
     is_separator_regex := false;
     keep_separator := true |}.

(** [EmbText(text=..., emb_model=..., ...)]: the object, or the
    [ValueError] of the constructor. *)
Definition make_emb_text (text : string) : res emb_text :=
  let e := emb_text_args text in
  if emb_text_valid e then Ok e else Raise ValueError.

(** The [for i, part in enumerate(parts)] loop of [process_field];
    [recurse] is the call made for each item under a wildcard. *)
Fixpoint walk (recurse : string -> hval -> heap -> res heap)
    (parts : list string) (current : hval) (h : heap) : res heap :=
  match parts with
  | [] => Ok h
  | part :: rest =>
      match (if String.eqb part "*" then list_items h current else None) with
      | Some items =>
          let remaining_path := join "." rest in
          if nonempty remaining_path
          then for_each (fun h' item => recurse remaining_path item h') items h
          else Ok h
      | None =>
          match rest with
          | [] =>
              present <- contains h part current ;;
              if present then
                v <- getitem h current part ;;
                match v with
                | HStr text =>
                    e <- make_emb_text text ;;
                    setitem h current part (HEmb e)
                | _ => Ok h
                end
              else Ok h
          | _ =>
              present <- contains h part current ;;
              if present then
                v <- getitem h current part ;;
                walk recurse rest v h
              else Ok h
          end
      end
  end.

Fixpoint process_field_fuel (fuel : nat) (field_path : string) (o : hval) (h : heap)
  : res heap :=
  match fuel with
  | O => Unfinished
  | S fuel' => walk (process_field_fuel fuel') (tokens "." field_path) o h
  end.

Definition process_field (o : hval) (field_path : string) (h : heap) : res heap :=
  process_field_fuel (S (String.length field_path)) field_path o h.

(** [document.copy()]: a new mapping with the same entries, the values
    of which are shared with the original. *)
Definition copy (h : heap) (document : hval) : res (hval * heap) :=
  match document with
  | HRef a =>
      match deref h a with
      | Some (ODict entries) => Ok (new_object h (ODict entries))
      | _ => Raise AttributeError
      end
  | _ => Raise AttributeError
  end.

(** [ingest_document]: the store after the call and the reference to
    [doc_copy] that is given to [collection.insert]. *)
Definition ingest_document (document : hval) (searchable_fields : list string)
    (h : heap) : res (hval * heap) :=
  ch <- copy h document ;;
  let '(doc_copy, h1) := ch in
  h2 <- for_each (fun h' field => process_field doc_copy field h') searchable_fields h1 ;;
  Ok (doc_copy, h2).

End Ingest.

End Capybara.

(** ** Notions used to state the properties *)

Definition res_map {A B} (f : A -> B) (r : res A) : res B :=
  match r with
  | Ok a => Ok (f a)
  | Raise e => Raise e
  | Unfinished => Unfinished
  end.

(** [R] holds between every element of a list and the next one. *)
Fixpoint all_adjacent {A} (R : A -> A -> Prop) (l : list A) : Prop :=
  match l with
  | a :: (b :: _) as l' => R a b /\ all_adjacent R l'
  | _ => True
  end.

(** [l] ends with [s]. *)
Definition is_suffix {A} (s l : list A) : Prop := exists p, l = (p ++ s)%list.

(** The last [n] characters of a text. *)
Definition last_chars (n : nat) (s : string) : string :=
  String.substring (String.length s - n) n s.

(** The overlap of a chunk with its predecessor, read off the two
    texts: the length of the longest beginning of [chunk] that is also
    an end of [prev].  [shared_upto n] looks for it among the lengths up
    to [n]. *)
Fixpoint shared_upto (n : nat) (prev chunk : string) : nat :=
  match n with
  | O => O
  | S n' =>
      if (String.eqb (last_chars n prev) (String.substring 0 n chunk)
          && Nat.leb n (String.length prev) && Nat.leb n (String.length chunk))%bool
      then n
      else shared_upto n' prev chunk
  end.

Definition shared_prefix_length (prev chunk : string) : Z :=
  Z.of_nat (shared_upto (String.length chunk) prev chunk).

(** A path misses because a key is absent: its segments name keys of
    nested mappings that are present, up to one that is not. *)
Fixpoint absent_in (v : value) (parts : list string) : bool :=
  match parts with
  | [] => false
  | part :: rest =>
      match v with
      | VDict d =>
          match lookup part d with
          | None => true
          | Some v' => absent_in v' rest
          end
      | _ => false
      end
  end.

Definition no_wildcard (parts : list string) : bool :=
  forallb (fun part => negb (String.eqb part "*")) parts.

(** The documents of the scenarios. *)
Definition title_doc : list (string * value) :=
  [("id", VStr "d1"); ("title", VStr "a b c d e")].

Definition tags_doc : list (string * value) :=
  [("tags", VList [VStr "x"; VStr "y"])].

Definition nested_doc : value :=
  VDict [("id", VStr "d1"); ("title", VStr "hello");
         ("meta", VDict [("author", VStr "Ann")])].

(** A document without an "id" entry. *)
Definition anonymous_doc : list (string * value) := [("title", VStr "a b c")].

(** Invariant of the loop of chroma: the chunks stored so far are
    numbered from 0 upwards. *)
Definition chroma_numbered (st : Chroma.packer) : Prop :=
  map Chroma.chunk_index (Chroma.emitted st)
  = map Z.of_nat (seq 0 (List.length (Chroma.emitted st)))
  /\ Chroma.next_index st = Z.of_nat (List.length (Chroma.emitted st)).

(** A call that adds nothing to the state [a] it started from: it
    returns [a], raises [ValueError], or has not returned yet. *)
Definition adds_nothing {A} (r : res A) (a : A) : Prop :=
  r = Ok a \/ r = Raise ValueError \/ r = Unfinished.

(** The text without its first [k] characters. *)
Fixpoint drop (k : nat) (s : string) : string :=
  match k, s with
  | O, _ => s
  | S _, EmptyString => EmptyString
  | S k', String _ s' => drop k' s'
  end.

(** [sep] cuts [s] into the words [ws]: every word but the last is
    followed by [sep], and [sep] occurs nowhere before the end of a
    word.  This is what [s.split(sep)] computes. *)
Inductive cut_by (sep : string) : string -> list string -> Prop :=
| cut_last (s : string) :
    (forall i, (i < String.length s)%nat -> String.prefix sep (drop i s) = false) ->
    cut_by sep s [s]
| cut_word (w rest : string) (ws : list string) :
    (forall i, (i < String.length w)%nat ->
               String.prefix sep (drop i (w ++ sep ++ rest)) = false) ->
    cut_by sep rest ws ->
    cut_by sep (w ++ sep ++ rest) (w :: ws).

(** How a chunk of chroma continues the one before it.  The words of a
    chunk are what the separator cuts it into; the chunk starts with
    the words that the overlap loop carries over from the words of the
    previous chunk, which end that chunk and, with the separator after
    each, take at most [chunk_overlap] characters (possibly no word at
    all), and it goes on with at least one new word. *)
Definition chroma_overlaps (chunk_overlap : Z) (separator : string)
    (prev chunk : string) : Prop :=
  let prev_words := tokens separator prev in
  let seed := fst (Chroma.overlap_of chunk_overlap separator prev_words) in
  exists new_words,
    tokens separator chunk = (seed ++ new_words)%list
    /\ new_words <> []
    /\ is_suffix seed prev_words
    /\ (seed = [] \/ len (join separator seed) + len separator <= chunk_overlap).

(** How a chunk of mongo continues the one before it: its words start
    with between one and [chunk_overlap] words that end the words of
    the previous chunk, and go on with at least one more word. *)
Definition mongo_overlaps (chunk_overlap : Z) (separator : string)
    (prev chunk : string) : Prop :=
  exists overlap_words new_words,
    tokens separator chunk = (overlap_words ++ new_words)%list
    /\ new_words <> []
    /\ is_suffix overlap_words (tokens separator prev)
    /\ 1 <= Z.of_nat (List.length overlap_words) <= chunk_overlap.

(** What the overlap loop of chroma counts for a list of words: their
    lengths, with one separator each. *)
Definition words_cost (separator : string) (ws : list string) : Z :=
  sum_Z (map (fun w => len w + len separator) ws).

(** What a run over top-level fields keeps: the objects that existed
    before the call, and a mapping at the address of [doc_copy] whose
    texts are texts of the document's [entries]. *)
Definition keeps_objects {M : Type} (entries : list (string * Capybara.hval (M := M)))
    (h0 h : Capybara.heap (M := M)) : Prop :=
  List.length h = S (List.length h0)
  /\ (forall b, (b < List.length h0)%nat -> Capybara.deref h b = Capybara.deref h0 b)
  /\ exists entries',
       Capybara.deref h (List.length h0) = Some (Capybara.ODict entries')
       /\ forall k s,
            Capybara.hlookup k entries' = Some (Capybara.HStr s) ->
            Capybara.hlookup k entries = Some (Capybara.HStr s).

(** A check of the kind the [EmbText] constructor makes, used where a
    run needs one: a model is given and the text is not empty. *)
Definition accepts_with_model (e : Capybara.emb_text (M := string)) : bool :=
  match Capybara.emb_model e with
  | Some _ => nonempty (Capybara.et_text e)
  | None => false
  end.

(** ** Notions for the further properties *)

(** What mongo's packing loop counts for a list of words: their lengths
    and one character each. *)
Definition mongo_cost (ws : list string) : Z :=
  sum_Z (map (fun w => len w + 1) ws).

(** A group of words that mongo packs into one chunk: a single word, or
    words whose count fits [chunk_size]. *)
Definition mongo_group_fits (chunk_size : Z) (g : list string) : Prop :=
  g <> [] /\ (List.length g = 1%nat \/ mongo_cost g <= chunk_size).

(** The text of a chunk of chroma made of carried-over and new words. *)
Definition chroma_group_text (separator : string) (g : list string * list string)
  : string :=
  join separator (fst g ++ snd g)%list.

(** A chunk of chroma brings one new word, or fits [chunk_size]. *)
Definition chroma_group_fits (chunk_size : Z) (separator : string)
    (g : list string * list string) : Prop :=
  snd g <> []
  /\ (List.length (snd g) = 1%nat \/ len (chroma_group_text separator g) <= chunk_size).

(** The words carried over into each chunk are the overlap of the chunk
    before; [seed] is what the first chunk of [groups] starts with. *)
Fixpoint chroma_seeded (chunk_overlap : Z) (separator : string) (seed : list string)
    (groups : list (list string * list string)) : Prop :=
  match groups with
  | [] => True
  | g :: groups' =>
      fst g = seed
      /\ chroma_seeded chunk_overlap separator
           (fst (Chroma.overlap_of chunk_overlap separator (fst g ++ snd g)%list)) groups'
  end.

(** What the next chunk of chroma starts with, after [groups]. *)
Fixpoint chroma_next_seed (chunk_overlap : Z) (separator : string) (seed : list string)
    (groups : list (list string * list string)) : list string :=
  match groups with
  | [] => seed
  | g :: groups' =>
      chroma_next_seed chunk_overlap separator
        (fst (Chroma.overlap_of chunk_overlap separator (fst g ++ snd g)%list)) groups'
  end.

(** Invariant of the loop of chroma over the words [done] read so far:
    the chunks stored are the texts of [groups], whose new words
    followed by the new words [fresh] of the chunk being filled are
    [done]. *)
Definition chroma_grouped (chunk_size chunk_overlap : Z) (separator : string)
    (done : list string) (st : Chroma.packer)
    (groups : list (list string * list string)) (fresh : list string) : Prop :=
  map Chroma.text (Chroma.emitted st) = map (chroma_group_text separator) groups
  /\ Forall (chroma_group_fits chunk_size separator) groups
  /\ chroma_seeded chunk_overlap separator [] groups
  /\ Chroma.current_chunk st
     = (chroma_next_seed chunk_overlap separator [] groups ++ fresh)%list
  /\ (List.concat (map snd groups) ++ fresh)%list = done
  /\ (fresh = [] -> Chroma.current_chunk st = [])
  /\ len (join separator (Chroma.current_chunk st)) <= Chroma.current_length st
  /\ ((List.length fresh <= 1)%nat \/ Chroma.current_length st <= chunk_size).

(** Following the keys of a path through nested mappings. *)
Fixpoint lookup_path (v : value) (parts : list string) : option value :=
  match parts with
  | [] => Some v
  | part :: rest =>
      match v with
      | VDict d =>
          match lookup part d with
          | Some v' => lookup_path v' rest
          | None => None
          end
      | _ => None
      end
  end.

(** The label chroma gives to what [parts] resolves to below
    [current_path]. *)
Definition chroma_label (current_path : string) (parts : list string) : string :=
  if nonempty current_path
  then current_path ++ "." ++ join "." parts
  else join "." parts.

(** * Properties *)

(** ** The built-ins *)

Example split_spaces : split " " "a b  c" = Ok ["a"; "b"; ""; "c"].
Proof. reflexivity. Qed.

Example split_trailing : split ", " "x, y, " = Ok ["x"; "y"; ""].
Proof. reflexivity. Qed.

Example split_empty_separator : split "" "abc" = Raise ValueError.
Proof. reflexivity. Qed.

Example str_list : str (VList [VStr "x"; VStr "y"]) = "['x', 'y']".
Proof. reflexivity. Qed.

Example str_int : str (VInt (-12)) = "-12".
Proof. reflexivity. Qed.

Example slice_last : slice_from [1; 2; 3] (-2) = [2; 3].
Proof. reflexivity. Qed.

Example shared_prefix_example : shared_prefix_length "a b" "b c" = 1.
Proof. reflexivity. Qed.

Lemma to_int_not_nil (z : Z) :
  Z.to_int z <> Decimal.Pos Decimal.Nil /\ Z.to_int z <> Decimal.Neg Decimal.Nil.
Proof.
  split; intro H; pose proof (DecimalZ.of_to z) as Hz; rewrite H in Hz;
    cbn in Hz; subst z; discriminate H.
Qed.

Lemma str_of_Z_inj (a b : Z) : str_of_Z a = str_of_Z b -> a = b.
Proof.
  unfold str_of_Z. intros H.
  apply DecimalZ.to_int_inj.
  destruct (to_int_not_nil a) as [Ha1 Ha2].
  destruct (to_int_not_nil b) as [Hb1 Hb2].
  pose proof (NilZero.isi _ Ha1 Ha2) as Ia.
  pose proof (NilZero.isi _ Hb1 Hb2) as Ib.
  rewrite H in Ia. rewrite Ia in Ib. now inversion Ib.
Qed.

(** ** The packing scenario *)

(** C3 does not hold as stated for the chunkers of chroma and mongo: neither
    chroma's nor mongo's [ingest_document] yields the four chunks
    "a b", "b c", "c d", "d e" with identifiers d1.title.0 to
    d1.title.3 for the scenario document. *)
Lemma scenario_chunks_differ :
  ~ (exists cs, Chroma.ingest_document 3 1 " " title_doc ["title"] = Ok cs
                /\ map Chroma.text cs = ["a b"; "b c"; "c d"; "d e"]
                /\ map Chroma.id cs
                   = ["d1.title.0"; "d1.title.1"; "d1.title.2"; "d1.title.3"])
  /\ ~ (exists ops, Mongo.ingest_document (E := unit) 3 1 " " None title_doc ["title"] = Ok ops
                    /\ map Mongo.text ops = ["a b"; "b c"; "c d"; "d e"]).
Proof.
  split.
  - intros [r [H [Ht _]]]. vm_compute in H. inversion H. subst r.
    vm_compute in Ht. discriminate Ht.
  - intros [r [H Ht]]. vm_compute in H. inversion H. subst r.
    vm_compute in Ht. discriminate Ht.
Qed.

(** C3, as the code has it: on the scenario document with chunk size 3,
    overlap 1 and a space separator, chroma emits "a b", "c", "d", "e"
    under the identifiers d1_title_chunk_0 to d1_title_chunk_3; mongo
    emits "a", "a b", "b c", "c d", "d e" under the chunk ids
    title_chunk_1 to title_chunk_5; pgvector emits "a b", "b c", "c d",
    "d e" under the keys (d1, title, 0) to (d1, title, 3). *)
Theorem scenario_chunks :
  forall (E : Type) (model : option (string -> E)) (embed : string -> E)
         (py_hash : string -> Z) (fuel : nat),
    res_map (map (fun c => (Chroma.id c, Chroma.text c)))
            (Chroma.ingest_document 3 1 " " title_doc ["title"])
    = Ok [("d1_title_chunk_0", "a b"); ("d1_title_chunk_1", "c");
          ("d1_title_chunk_2", "d"); ("d1_title_chunk_3", "e")]
    /\ res_map (map (fun o => (Mongo.filter_doc_id o, Mongo.filter_chunk_id o, Mongo.text o)))
               (Mongo.ingest_document 3 1 " " model title_doc ["title"])
       = Ok [(VStr "d1", "title_chunk_1", "a"); (VStr "d1", "title_chunk_2", "a b");
             (VStr "d1", "title_chunk_3", "b c"); (VStr "d1", "title_chunk_4", "c d");
             (VStr "d1", "title_chunk_5", "d e")]
    /\ res_map (map (fun r => (PgVector.doc_id r, PgVector.field_name r,
                               PgVector.chunk_index r, PgVector.chunk_text r)))
               (PgVector.ingest_document py_hash 3 1 " " (Some embed) (4 + fuel)
                  title_doc ["title"])
       = Ok [(VStr "d1", "title", 0, "a b"); (VStr "d1", "title", 1, "b c");
             (VStr "d1", "title", 2, "c d"); (VStr "d1", "title", 3, "d e")].
Proof.
  intros E model embed py_hash fuel. split; [reflexivity | split].
  - destruct model; reflexivity.
  - reflexivity.
Qed.

(** ** The wildcard scenario *)

(** C6 does not hold as stated: chroma's [extract_field_value] does
    not resolve "tags.*" over the tags document to the two fields
    tags.0 and tags.1. *)
Lemma wildcard_fields_differ :
  Chroma.extract_field_value " " (tokens "." "tags.*") (VDict tags_doc) ""
  <> [("tags.0", "x"); ("tags.1", "y")].
Proof. intros H. vm_compute in H. discriminate H. Qed.

(** The same pattern elsewhere: no resolved field in chroma, one text
    for the whole sequence in mongo. *)
Lemma wildcard_over_tags_elsewhere :
  forall separator,
    Chroma.extract_field_value separator (tokens "." "tags.*") (VDict tags_doc) "" = []
    /\ Mongo.extract_field_content (VDict tags_doc) (tokens "." "tags.*") = "['x', 'y']".
Proof. intros separator. split; reflexivity. Qed.

(** Where chroma resolves a wildcard, the index is written in
    brackets. *)
Example chroma_wildcard_path :
  Chroma.extract_field_value " " (tokens "." "items.*.name")
    (VDict [("items", VList [VDict [("name", VStr "x")]; VDict [("name", VStr "y")]])]) ""
  = [("items[0].name", "x"); ("items[1].name", "y")].
Proof. reflexivity. Qed.

(** C6, as the code has it: over the tags document, langchain's
    [extract_field_value] resolves the pattern "tags.*" to exactly the
    two values "x" and "y", in element order; it returns the values
    only, whatever path it was started with. *)
Theorem wildcard_over_tags :
  forall current_path,
    Langchain.extract_field_value (tokens "." "tags.*") (VDict tags_doc) current_path
    = ["x"; "y"].
Proof. intros current_path. reflexivity. Qed.

(** ** Identifiers and re-ingestion *)

Lemma pgvector_document_id_given (py_hash : string -> Z) document v :
  lookup "id" document = Some v -> PgVector.document_id py_hash document = v.
Proof. unfold PgVector.document_id. now intros ->. Qed.

Lemma pgvector_document_id_hashed (h1 h2 : string -> Z) document :
  lookup "id" document = None ->
  h1 (PgVector.json_dumps true (VDict document))
  <> h2 (PgVector.json_dumps true (VDict document)) ->
  PgVector.document_id h1 document <> PgVector.document_id h2 document.
Proof.
  unfold PgVector.document_id. intros -> Hne Heq.
  apply Hne, str_of_Z_inj. now inversion Heq.
Qed.

Lemma mongo_document_id_given document v :
  lookup "id" document = Some v -> Mongo.document_id document = v.
Proof. unfold Mongo.document_id. now intros ->. Qed.

Lemma map_res_ext {A B} (f g : A -> res B) (l : list A) :
  (forall x, f x = g x) -> map_res f l = map_res g l.
Proof.
  intros H. induction l as [| x l IH]; cbn [map_res]; [reflexivity |].
  now rewrite H, IH.
Qed.

Lemma for_each_ext {A S} (f g : S -> A -> res S) (l : list A) :
  (forall st x, f st x = g st x) -> forall st, for_each f l st = for_each g l st.
Proof.
  intros H. induction l as [| x l IH]; intros st; cbn [for_each]; [reflexivity |].
  rewrite H. destruct (g st x); cbn [bind]; auto.
Qed.

(** With an "id" entry the rows of pgvector do not depend on the
    interpreter's hash. *)
Lemma pgvector_ingest_with_id_ignores_hash {E} (h1 h2 : string -> Z)
    chunk_size chunk_overlap separator (model : option (string -> E)) fuel
    document fields v :
  lookup "id" document = Some v ->
  PgVector.ingest_document h1 chunk_size chunk_overlap separator model fuel document fields
  = PgVector.ingest_document h2 chunk_size chunk_overlap separator model fuel document fields.
Proof.
  intros Hid. unfold PgVector.ingest_document. apply for_each_ext.
  intros rows field. unfold PgVector.field_rows.
  destruct (PgVector.get_field_value (VDict document) field) as [fv | |];
    cbn [bind]; try reflexivity.
  assert (Ht : forall rows' text,
             PgVector.text_rows h1 chunk_size chunk_overlap separator model fuel
               document field rows' text
             = PgVector.text_rows h2 chunk_size chunk_overlap separator model fuel
                 document field rows' text).
  { intros rows' text. unfold PgVector.text_rows.
    destruct (negb (nonempty text)); [reflexivity |].
    destruct (PgVector.create_chunks _ _ _ _ _); cbn [bind]; try reflexivity.
    rewrite (map_res_ext (PgVector.insert_chunk h1 model document field)
               (PgVector.insert_chunk h2 model document field)); [reflexivity |].
    intros ic. unfold PgVector.insert_chunk.
    now rewrite !(pgvector_document_id_given _ _ _ Hid). }
  destruct fv; try reflexivity; now apply for_each_ext.
Qed.

(** C1, evaluated in pgvector on a document without "id": the rows are
    keyed by the interpreter's salted [hash] of the document's JSON
    text, so two runs whose hash functions differ on that text (two
    processes) do not produce the same identifiers. *)
Theorem pgvector_ids_follow_hash_salt :
  forall (E : Type) (embed : string -> E) (h1 h2 : string -> Z) (fuel : nat),
    h1 (PgVector.json_dumps true (VDict anonymous_doc))
    <> h2 (PgVector.json_dumps true (VDict anonymous_doc)) ->
    res_map (map PgVector.doc_id)
            (PgVector.ingest_document h1 512 50 " " (Some embed) (S fuel)
               anonymous_doc ["title"])
    <> res_map (map PgVector.doc_id)
               (PgVector.ingest_document h2 512 50 " " (Some embed) (S fuel)
                  anonymous_doc ["title"]).
Proof.
  intros E embed h1 h2 fuel Hne Heq.
  apply (pgvector_document_id_hashed h1 h2 anonymous_doc eq_refl Hne).
  cbv in Heq. cbv. now inversion Heq.
Qed.

Lemma pgvector_ids_follow_hash_salt_witness :
  (1 <> 2)
  /\ res_map (map PgVector.doc_id)
             (PgVector.ingest_document (fun _ => 1) 512 50 " " (Some (fun _ => tt)) 1
                anonymous_doc ["title"])
     <> res_map (map PgVector.doc_id)
                (PgVector.ingest_document (fun _ => 2) 512 50 " " (Some (fun _ => tt)) 1
                   anonymous_doc ["title"]).
Proof.
  split; [discriminate |].
  apply (pgvector_ids_follow_hash_salt unit (fun _ => tt) (fun _ => 1) (fun _ => 2) 0).
  discriminate.
Defined.

(** ** The caller's document *)

(** C5, evaluated in capybaradb on a nested field, with a model and a
    text that the [EmbText] constructor accepts: [doc_copy] shares the
    nested mapping with the caller's document, and the assignment of
    the [EmbText] object shows through it. *)
Theorem capybara_changes_nested_mapping :
  forall (M : Type) (model : option M) (emb_text_valid : Capybara.emb_text -> bool),
    emb_text_valid (Capybara.emb_text_args 512 50 " " model "Ann") = true ->
    let '(document, h0) := Capybara.load nested_doc [] in
    exists doc_copy h1,
      Capybara.ingest_document 512 50 " " model emb_text_valid document
        ["meta.author"] h0
      = Ok (doc_copy, h1)
      /\ Capybara.snapshot 3 h0 document
         = Capybara.WDict
             [("id", Capybara.WStr "d1"); ("title", Capybara.WStr "hello");
              ("meta", Capybara.WDict [("author", Capybara.WStr "Ann")])]
      /\ Capybara.snapshot 3 h1 document
         = Capybara.WDict
             [("id", Capybara.WStr "d1"); ("title", Capybara.WStr "hello");
              ("meta",
               Capybara.WDict
                 [("author",
                   Capybara.WEmb (Capybara.emb_text_args 512 50 " " model "Ann"))])]
      /\ Capybara.snapshot 3 h1 document <> Capybara.snapshot 3 h0 document.
Proof.
  intros M model emb_text_valid Hvalid.
  cbv beta iota delta [Capybara.load nested_doc].
  unfold Capybara.ingest_document, Capybara.copy. cbn [Capybara.new_object Capybara.deref
    nth_error List.length app bind for_each fst snd].
  unfold Capybara.process_field. cbn -[Capybara.make_emb_text].
  unfold Capybara.make_emb_text. cbv zeta. rewrite Hvalid. cbn.
  eexists. eexists. split; [reflexivity |].
  split; [reflexivity |]. split; [reflexivity |].
  discriminate.
Qed.

Lemma capybara_changes_nested_mapping_witness :
  accepts_with_model
    (Capybara.emb_text_args 512 50 " " (Some "text-embedding-3-small") "Ann") = true
  /\ let '(document, h0) := Capybara.load nested_doc [] in
     exists doc_copy h1,
       Capybara.ingest_document 512 50 " " (Some "text-embedding-3-small")
         accepts_with_model document ["meta.author"] h0
       = Ok (doc_copy, h1)
       /\ Capybara.snapshot 3 h0 document
          = Capybara.WDict
              [("id", Capybara.WStr "d1"); ("title", Capybara.WStr "hello");
               ("meta", Capybara.WDict [("author", Capybara.WStr "Ann")])]
       /\ Capybara.snapshot 3 h1 document
          = Capybara.WDict
              [("id", Capybara.WStr "d1"); ("title", Capybara.WStr "hello");
               ("meta",
                Capybara.WDict
                  [("author",
                    Capybara.WEmb
                      (Capybara.emb_text_args 512 50 " "
                         (Some "text-embedding-3-small") "Ann"))])]
       /\ Capybara.snapshot 3 h1 document <> Capybara.snapshot 3 h0 document.
Proof.
  split; [reflexivity |].
  exact (capybara_changes_nested_mapping string (Some "text-embedding-3-small")
           accepts_with_model eq_refl).
Defined.

(** When the constructor refuses the text or the model, the call ends
    with its [ValueError], before anything is assigned or inserted. *)
Lemma capybara_refused_text_raises :
  forall (M : Type) (model : option M) (emb_text_valid : Capybara.emb_text -> bool),
    emb_text_valid (Capybara.emb_text_args 512 50 " " model "Ann") = false ->
    Capybara.ingest_document 512 50 " " model emb_text_valid
      (fst (Capybara.load nested_doc [])) ["meta.author"]
      (snd (Capybara.load nested_doc []))
    = Raise ValueError.
Proof.
  intros M model emb_text_valid Hvalid.
  cbv beta iota delta [Capybara.load nested_doc].
  unfold Capybara.ingest_document, Capybara.copy. cbn [Capybara.new_object Capybara.deref
    nth_error List.length app bind for_each fst snd].
  unfold Capybara.process_field. cbn -[Capybara.make_emb_text].
  unfold Capybara.make_emb_text. cbv zeta. now rewrite Hvalid.
Qed.

Section CapybaraStore.

Context {M : Type}.

Lemma capybara_store_length (h : Capybara.heap (M := M)) :
  forall a o, List.length (Capybara.store h a o) = List.length h.
Proof.
  induction h as [| o' h IH]; intros a o; [reflexivity |].
  destruct a; cbn; [reflexivity | now rewrite IH].
Qed.

Lemma capybara_store_other (h : Capybara.heap (M := M)) :
  forall a b o, a <> b -> Capybara.deref (Capybara.store h a o) b = Capybara.deref h b.
Proof.
  unfold Capybara.deref.
  induction h as [| o' h IH]; intros a b o Hab; [reflexivity |].
  destruct a, b; cbn; try reflexivity; [congruence |].
  apply IH. congruence.
Qed.

Lemma capybara_store_same (h : Capybara.heap (M := M)) :
  forall a o, (a < List.length h)%nat ->
              Capybara.deref (Capybara.store h a o) a = Some o.
Proof.
  unfold Capybara.deref.
  induction h as [| o' h IH]; intros a o Ha; [cbn in Ha; lia |].
  destruct a; cbn; [reflexivity |]. apply IH. cbn in Ha. lia.
Qed.

Lemma capybara_hlookup_assign_same k (v : Capybara.hval (M := M)) d :
  Capybara.hlookup k (Capybara.assign k v d) = Some v.
Proof.
  induction d as [| [k' v'] d IH]; cbn; [now rewrite String.eqb_refl |].
  destruct (String.eqb_spec k k') as [-> | Hk]; cbn.
  - now rewrite String.eqb_refl.
  - destruct (String.eqb_spec k k'); [congruence | exact IH].
Qed.

Lemma capybara_hlookup_assign_other k k' (v : Capybara.hval (M := M)) d :
  k' <> k -> Capybara.hlookup k' (Capybara.assign k v d) = Capybara.hlookup k' d.
Proof.
  intros Hne. induction d as [| [k0 v0] d IH]; cbn.
  - destruct (String.eqb_spec k' k); [congruence | reflexivity].
  - destruct (String.eqb_spec k k0) as [-> | Hk]; cbn.
    + destruct (String.eqb_spec k' k0); [congruence | reflexivity].
    + destruct (String.eqb_spec k' k0); [reflexivity | exact IH].
Qed.

Lemma capybara_assign_keys k (v : Capybara.hval (M := M)) d old :
  Capybara.hlookup k d = Some old ->
  map fst (Capybara.assign k v d) = map fst d.
Proof.
  induction d as [| [k0 v0] d IH]; cbn; [discriminate |].
  destruct (String.eqb_spec k k0) as [-> | Hk]; cbn; [reflexivity |].
  intros H. now rewrite IH.
Qed.

Lemma capybara_store_last (h : Capybara.heap (M := M)) o o' :
  Capybara.store (h ++ [o])%list (List.length h) o' = (h ++ [o'])%list.
Proof. induction h as [| x h IH]; cbn; [reflexivity | now rewrite IH]. Qed.

Lemma capybara_deref_last (h : Capybara.heap (M := M)) o :
  Capybara.deref (h ++ [o])%list (List.length h) = Some o.
Proof.
  unfold Capybara.deref. rewrite nth_error_app2 by lia. now rewrite Nat.sub_diag.
Qed.

(** One field without a dot: [process_field] returns when the
    constructor accepts the text the field names, and assigns in
    [doc_copy] only. *)
Lemma capybara_top_level_field chunk_size chunk_overlap separator (model : option M)
    (emb_text_valid : Capybara.emb_text -> bool) entries (h0 h : Capybara.heap) field :
  tokens "." field = [field] ->
  match Capybara.hlookup field entries with
  | Some (Capybara.HStr s) =>
      emb_text_valid (Capybara.emb_text_args chunk_size chunk_overlap separator model s)
      = true
  | _ => True
  end ->
  keeps_objects entries h0 h ->
  exists h',
    Capybara.process_field chunk_size chunk_overlap separator model emb_text_valid
      (Capybara.HRef (List.length h0)) field h = Ok h'
    /\ keeps_objects entries h0 h'.
Proof.
  intros Hf Hvalid [Hlen [Hold [entries' [Hdoc Htexts]]]].
  unfold Capybara.process_field. cbn [Capybara.process_field_fuel].
  rewrite Hf. cbn [Capybara.walk].
  assert (Hli : Capybara.list_items h (Capybara.HRef (List.length h0)) = None).
  { unfold Capybara.list_items. now rewrite Hdoc. }
  rewrite Hli.
  replace (if String.eqb field "*" then @None (list Capybara.hval) else None)
    with (@None (list (Capybara.hval (M := M)))) by (now destruct (String.eqb field "*")).
  unfold Capybara.contains. rewrite Hdoc. cbn [bind].
  unfold Capybara.getitem. rewrite Hdoc.
  assert (Hkept : keeps_objects entries h0 h).
  { split; [exact Hlen |]. split; [exact Hold |]. now exists entries'. }
  destruct (Capybara.hlookup field entries') as [v |] eqn:Hv.
  - cbn [bind]. destruct v; try (eexists; split; [reflexivity | exact Hkept]).
    rewrite (Htexts _ _ Hv) in Hvalid.
    unfold Capybara.make_emb_text. cbv zeta. rewrite Hvalid. cbn [bind].
    unfold Capybara.setitem. rewrite Hdoc.
    eexists. split; [reflexivity |]. split; [| split].
    + now rewrite capybara_store_length.
    + intros b Hb. rewrite capybara_store_other by lia. now apply Hold.
    + eexists. split; [apply capybara_store_same; lia |].
      intros k s' Hk. destruct (String.eqb_spec k field) as [-> | Hne].
      * rewrite capybara_hlookup_assign_same in Hk. discriminate Hk.
      * rewrite capybara_hlookup_assign_other in Hk by exact Hne. now apply Htexts.
  - eexists. split; [reflexivity | exact Hkept].
Qed.

(** Fields without a dot are assigned in [doc_copy] only: every object
    of the caller's store is as it was. *)
Lemma capybara_top_level_fields_keep_document chunk_size chunk_overlap separator
    (model : option M) (emb_text_valid : Capybara.emb_text -> bool)
    (h0 : Capybara.heap) a entries fields :
  Capybara.deref h0 a = Some (Capybara.ODict entries) ->
  Forall (fun field => tokens "." field = [field]) fields ->
  Forall (fun field =>
            match Capybara.hlookup field entries with
            | Some (Capybara.HStr s) =>
                emb_text_valid
                  (Capybara.emb_text_args chunk_size chunk_overlap separator model s)
                = true
            | _ => True
            end) fields ->
  exists h',
    Capybara.ingest_document chunk_size chunk_overlap separator model emb_text_valid
      (Capybara.HRef a) fields h0 = Ok (Capybara.HRef (List.length h0), h')
    /\ keeps_objects entries h0 h'.
Proof.
  intros Hdoc Hfields Hvalid. unfold Capybara.ingest_document, Capybara.copy.
  rewrite Hdoc. cbn [bind Capybara.new_object].
  assert (Hk : keeps_objects entries h0 (h0 ++ [Capybara.ODict entries])%list).
  { unfold keeps_objects. split; [| split].
    - rewrite length_app. cbn. lia.
    - intros b Hb. unfold Capybara.deref. now apply nth_error_app1.
    - exists entries. split; [apply capybara_deref_last | auto]. }
  revert Hk. generalize (h0 ++ [Capybara.ODict entries])%list.
  induction Hfields as [| field fields Hf _ IH]; intros h Hk.
  - cbn [for_each bind]. eexists. split; [reflexivity | exact Hk].
  - cbn [for_each]. inversion Hvalid as [| ? ? Hv Hvs]; subst.
    destruct (capybara_top_level_field chunk_size chunk_overlap separator model
                emb_text_valid entries h0 h field Hf Hv Hk) as [h' [-> Hk']].
    cbn [bind]. now apply IH.
Qed.

End CapybaraStore.

(** ** Termination of the chunkers *)

Lemma len_nonneg (s : string) : 0 <= len s.
Proof. unfold len. lia. Qed.

Lemma len_pos (s : string) : s <> "" -> 0 < len s.
Proof. unfold len. destruct s; [congruence | cbn; lia]. Qed.

Lemma sum_len_nonneg (l : list string) : 0 <= sum_Z (map len l).
Proof.
  induction l as [| w l IH]; cbn; [lia |].
  pose proof (len_nonneg w). unfold sum_Z in IH. lia.
Qed.

(** Below [2^53] the float division cannot overflow: [int(a / b)]
    returns. *)
Lemma int_true_div_returns (a b : Z) :
  Z.abs a < 2 ^ 53 -> b <> 0 -> exists k, int_true_div a b = Ok k.
Proof.
  intros Ha Hb. unfold int_true_div.
  destruct (Z.eqb_spec b 0) as [? | _]; [congruence |].
  destruct (Z.eqb_spec a 0) as [? | Ha0]; [eauto |].
  assert (He : exists k, int_true_div_pos (Z.abs a) (Z.abs b) = Ok k).
  { unfold int_true_div_pos.
    set (e0 := Z.log2 (Z.abs a) - Z.log2 (Z.abs b)).
    assert (He0 : e0 <= 52).
    { pose proof (Z.log2_nonneg (Z.abs b)).
      assert (Z.log2 (Z.abs a) < 53) by (apply Z.log2_lt_pow2; lia).
      unfold e0. lia. }
    cbv zeta.
    set (e := if (if 0 <=? e0 then Z.abs b * 2 ^ e0 <=? Z.abs a
                  else Z.abs b <=? Z.abs a * 2 ^ (- e0))
              then e0 else e0 - 1).
    assert (He : e <= 52) by (unfold e; destruct (if 0 <=? e0 then _ else _); lia).
    destruct (e <? -1); [eauto |].
    destruct (Z.leb_spec 0 (52 - e)); [eauto | lia]. }
  destruct He as [k ->]. eauto.
Qed.

(** When the rest of the text does not fit and at most one word does,
    [start] is assigned its own value again: the loop of pgvector's
    [create_chunks] never ends (the overlap being in the range where
    the division of line 126 returns). *)
Lemma pgvector_loop_stuck chunk_size chunk_overlap separator words start :
  separator <> "" ->
  Z.abs chunk_overlap < 2 ^ 53 ->
  start < Z.of_nat (List.length words) ->
  chunk_size < len (join separator (slice_from words start)) ->
  PgVector.scan_end chunk_size (slice_from words start) start 0 <= start + 1 ->
  forall fuel chunks,
    PgVector.create_chunks_loop chunk_size chunk_overlap separator fuel words start chunks
    = Unfinished.
Proof.
  intros Hsep Hov Hstart Hbig Hend fuel.
  induction fuel as [| fuel IH]; intros chunks; [reflexivity |].
  cbn [PgVector.create_chunks_loop].
  destruct (Z.ltb_spec start (Z.of_nat (List.length words))) as [_ | ?]; [| lia].
  destruct (Z.leb_spec (len (join separator (slice_from words start))) chunk_size)
    as [? | _]; [lia |].
  unfold PgVector.overlap_words_count.
  set (end_ := PgVector.scan_end chunk_size (slice_from words start) start 0) in *.
  set (d := len separator + sum_Z (map len (slice words (end_ - 1) end_))).
  assert (Hd : 0 < d).
  { unfold d. pose proof (len_pos _ Hsep).
    pose proof (sum_len_nonneg (slice words (end_ - 1) end_)). lia. }
  destruct (int_true_div_returns chunk_overlap d Hov ltac:(lia)) as [k ->].
  cbn [bind].
  replace (Z.max start (end_ - Z.max 1 k)) with start by lia.
  apply IH.
Qed.

Lemma pgvector_short_words_stuck :
  forall fuel, PgVector.create_chunks 3 0 " " fuel "ab cd ef" = Unfinished.
Proof.
  intros fuel. unfold PgVector.create_chunks.
  change (split " " "ab cd ef") with (Ok ["ab"; "cd"; "ef"]). cbn [bind].
  apply pgvector_loop_stuck.
  - discriminate.
  - cbn. lia.
  - cbn. lia.
  - vm_compute. reflexivity.
  - vm_compute. discriminate.
Qed.

(** C2, evaluated in pgvector: with chunk size 3 and no overlap the
    text "ab cd ef" is never chunked; whatever the fuel, neither
    [create_chunks] nor the [ingest_document] that calls it has
    returned. *)
Theorem pgvector_create_chunks_never_returns :
  (forall fuel, PgVector.create_chunks 3 0 " " fuel "ab cd ef" = Unfinished)
  /\ (forall (E : Type) (model : option (string -> E)) (py_hash : string -> Z) fuel,
         PgVector.ingest_document py_hash 3 0 " " model fuel
           [("id", VStr "d1"); ("title", VStr "ab cd ef")] ["title"]
         = Unfinished).
Proof.
  split; [exact pgvector_short_words_stuck |].
  intros E model py_hash fuel.
  unfold PgVector.ingest_document. cbn [for_each].
  unfold PgVector.field_rows.
  change (PgVector.get_field_value
            (VDict [("id", VStr "d1"); ("title", VStr "ab cd ef")]) "title")
    with (Ok (VStr "ab cd ef")).
  cbn [bind PgVector.flatten_list flat_map PgVector.flatten_item str app for_each].
  unfold PgVector.text_rows.
  change (negb (nonempty "ab cd ef")) with false. cbv iota.
  now rewrite pgvector_short_words_stuck.
Qed.

(** pinecone's loop has no guard at all: when the overlap is at least
    the chunk size in words, [start] does not advance. *)
Lemma pinecone_loop_stuck separator words chunk_words overlap_words :
  chunk_words <= overlap_words ->
  forall fuel start chunks,
    start < Z.of_nat (List.length words) ->
    Pinecone.create_chunks_loop separator fuel words chunk_words overlap_words start chunks
    = Unfinished.
Proof.
  intros Hle fuel.
  induction fuel as [| fuel IH]; intros start chunks Hstart; [reflexivity |].
  cbn [Pinecone.create_chunks_loop].
  destruct (Z.ltb_spec start (Z.of_nat (List.length words))) as [_ | ?]; [| lia].
  apply IH. lia.
Qed.

Lemma fold_left_invariant {A S : Type} (P : S -> Prop) (f : S -> A -> S) :
  (forall s a, P s -> P (f s a)) ->
  forall l s, P s -> P (fold_left f l s).
Proof.
  intros Hstep l. induction l as [| a l IH]; intros s Hs; cbn; auto.
Qed.

(** After at least one word the state satisfies what every step
    establishes. *)
Lemma fold_left_established {A S : Type} (P : S -> Prop) (f : S -> A -> S) :
  (forall s a, P (f s a)) ->
  forall l s, l <> [] -> P (fold_left f l s).
Proof.
  intros Hstep l s Hl. destruct l as [| a l]; [congruence |].
  cbn. apply fold_left_invariant; auto.
Qed.

Lemma split_go_nonempty sep s : forall skip cur, split_go sep skip s cur <> [].
Proof.
  induction s as [| c s IH]; intros skip cur; cbn [split_go]; [discriminate |].
  destruct skip; [destruct (String.prefix sep (String c s)) |]; try discriminate; apply IH.
Qed.

Lemma tokens_nonempty sep s : tokens sep s <> [].
Proof. apply split_go_nonempty. Qed.

Lemma split_ok sep s : sep <> "" -> split sep s = Ok (tokens sep s).
Proof.
  intros H. unfold split. now destruct (String.eqb_spec sep "").
Qed.

Lemma app_not_nil {A} (l : list A) (x : A) : (l ++ [x])%list <> [].
Proof. destruct l; discriminate. Qed.

(** mongo's [chunk_text] is a [for] loop: it returns, with at least one
    chunk, for every text and every size and overlap. *)
Lemma mongo_chunk_text_returns chunk_size chunk_overlap separator text :
  separator <> "" ->
  exists chunks,
    Mongo.chunk_text chunk_size chunk_overlap separator text = Ok chunks /\ chunks <> [].
Proof.
  intros Hsep. unfold Mongo.chunk_text. rewrite (split_ok _ _ Hsep). cbn [bind].
  eexists. split; [reflexivity |].
  assert (Hb : Mongo.base_chunks chunk_size separator (tokens separator text) <> []).
  { unfold Mongo.base_chunks.
    pose proof (fold_left_established
                  (fun st => snd (fst st) <> [])
                  (Mongo.pack_word chunk_size separator)) as H.
    specialize (H ltac:(intros [[cs cc] cl] w; unfold Mongo.pack_word;
                        destruct (_ <=? _); cbn; [apply app_not_nil | discriminate])
                  (tokens separator text) ([], [], 0) (tokens_nonempty _ _)).
    destruct (fold_left _ _ _) as [[cs cc] cl]. cbn in H. unfold Mongo.flush.
    destruct cc; [congruence | apply app_not_nil]. }
  unfold Mongo.add_overlap.
  destruct (_ && _)%bool; [| exact Hb].
  destruct (Mongo.base_chunks _ _ _); [congruence | discriminate].
Qed.

(** So is the chunking loop of chroma. *)
Lemma chroma_field_chunks_returns chunk_size chunk_overlap separator doc_id field_path text :
  separator <> "" ->
  exists chunks,
    Chroma.field_chunks chunk_size chunk_overlap separator doc_id field_path text = Ok chunks
    /\ chunks <> [].
Proof.
  intros Hsep. unfold Chroma.field_chunks. rewrite (split_ok _ _ Hsep). cbn [bind].
  eexists. split; [reflexivity |].
  pose proof (fold_left_established
                (fun st => Chroma.current_chunk st <> [])
                (Chroma.pack_word chunk_size chunk_overlap separator doc_id field_path)) as H.
  specialize (H ltac:(intros st w; unfold Chroma.pack_word; cbn; apply app_not_nil)
                (tokens separator text)
                {| Chroma.emitted := []; Chroma.current_chunk := [];
                   Chroma.current_length := 0; Chroma.next_index := 0 |}
                (tokens_nonempty _ _)).
  cbv beta in H. unfold Chroma.finish.
  destruct (Chroma.current_chunk _); [congruence | apply app_not_nil].
Qed.

(** ** Chunk indices *)

Lemma enumerate_from_length {A} (l : list A) i :
  List.length (enumerate_from i l) = List.length l.
Proof. revert i. induction l as [| x l IH]; intros i; cbn; auto. Qed.

Lemma enumerate_from_shifted {A} (l : list A) (n : nat) (k : Z) :
  map (fun ic => fst ic + k) (enumerate_from (Z.of_nat n) l)
  = map (fun j => Z.of_nat j + k) (seq n (List.length l)).
Proof.
  revert n. induction l as [| x l IH]; intros n; cbn; [reflexivity |].
  f_equal. replace (Z.of_nat n + 1) with (Z.of_nat (S n)) by lia. apply IH.
Qed.

Lemma one_based_indices (n : nat) :
  map (fun j => Z.of_nat j + 1) (seq 0 n) = map Z.of_nat (seq 1 n).
Proof.
  rewrite <- seq_shift, map_map. apply map_ext. intros j. lia.
Qed.

Lemma mongo_field_operations_indices {E} chunk_size chunk_overlap
    (model : option (string -> E)) doc_id field chunks :
  let ops := map (Mongo.make_update chunk_size chunk_overlap model doc_id field chunks)
                 (enumerate chunks) in
  map Mongo.chunk_index ops = map Z.of_nat (seq 1 (List.length ops))
  /\ Forall (fun o => Mongo.total_chunks o = Z.of_nat (List.length ops)) ops.
Proof.
  cbv zeta. rewrite length_map. unfold enumerate.
  rewrite enumerate_from_length. split.
  - rewrite map_map.
    rewrite (map_ext _ (fun ic => fst ic + 1)) by (now intros [i c]).
    exact (eq_trans (enumerate_from_shifted chunks 0 1) (one_based_indices _)).
  - apply Forall_forall. intros o Ho. apply in_map_iff in Ho.
    destruct Ho as [[i c] [<- _]]. reflexivity.
Qed.

Lemma numbered_snoc (l : list Chroma.chunk) (c : Chroma.chunk) :
  map Chroma.chunk_index l = map Z.of_nat (seq 0 (List.length l)) ->
  Chroma.chunk_index c = Z.of_nat (List.length l) ->
  map Chroma.chunk_index (l ++ [c])
  = map Z.of_nat (seq 0 (List.length (l ++ [c]))).
Proof.
  intros Hl Hc. rewrite map_app, length_app. cbn [List.length map].
  rewrite Nat.add_1_r, seq_S, map_app, Hl. cbn. now rewrite Hc.
Qed.

Lemma chroma_pack_word_numbered chunk_size chunk_overlap separator doc_id field_path st w :
  chroma_numbered st ->
  chroma_numbered (Chroma.pack_word chunk_size chunk_overlap separator doc_id field_path st w).
Proof.
  intros [Hl Hn]. unfold Chroma.pack_word, chroma_numbered.
  destruct (_ && _)%bool; [| now cbn].
  destruct (Chroma.overlap_of _ _ _) as [ow ol]. cbn. split.
  - now apply numbered_snoc.
  - rewrite length_app. cbn. lia.
Qed.

Lemma chroma_field_chunks_indices chunk_size chunk_overlap separator doc_id field_path words :
  let chunks :=
    Chroma.finish separator doc_id field_path
      (fold_left (Chroma.pack_word chunk_size chunk_overlap separator doc_id field_path) words
         {| Chroma.emitted := []; Chroma.current_chunk := [];
            Chroma.current_length := 0; Chroma.next_index := 0 |}) in
  map Chroma.chunk_index chunks = map Z.of_nat (seq 0 (List.length chunks)).
Proof.
  cbv zeta.
  pose proof (fold_left_invariant chroma_numbered
                (Chroma.pack_word chunk_size chunk_overlap separator doc_id field_path)
                (fun s a => chroma_pack_word_numbered _ _ _ _ _ s a)
                words
                {| Chroma.emitted := []; Chroma.current_chunk := [];
                   Chroma.current_length := 0; Chroma.next_index := 0 |}
                (conj eq_refl eq_refl)) as [Hl Hn].
  unfold Chroma.finish.
  destruct (Chroma.current_chunk _); [exact Hl |].
  now apply numbered_snoc.
Qed.

(** C4 does not hold as stated: the records mongo builds for the
    title of the scenario document are not numbered from 0. *)
Lemma mongo_indices_not_zero_based :
  ~ (exists ops,
        Mongo.field_operations (E := unit) 3 1 " " None title_doc "title" = Ok ops
        /\ map Mongo.chunk_index ops = map Z.of_nat (seq 0 (List.length ops))).
Proof.
  intros [ops [H Hi]]. vm_compute in H. inversion H. subst ops.
  vm_compute in Hi. discriminate Hi.
Qed.

(** C4, as the code has it: the chunks of one field are numbered
    without gaps, from 1 in mongo and langchain and from 0 in chroma;
    the total recorded by mongo is the number of chunks of the field,
    the same in all of them. *)
Theorem chunk_indices_contiguous :
  forall separator,
    separator <> "" ->
    (forall (E : Type) chunk_size chunk_overlap (model : option (string -> E))
            document field,
        exists ops,
          Mongo.field_operations chunk_size chunk_overlap separator model document field
          = Ok ops
          /\ map Mongo.chunk_index ops = map Z.of_nat (seq 1 (List.length ops))
          /\ Forall (fun o => Mongo.total_chunks o = Z.of_nat (List.length ops)) ops)
    /\ (forall chunk_size chunk_overlap doc_id field_path text,
           exists chunks,
             Chroma.field_chunks chunk_size chunk_overlap separator doc_id field_path text
             = Ok chunks
             /\ map Chroma.chunk_index chunks
                = map Z.of_nat (seq 0 (List.length chunks)))
    /\ (forall split_text chunk_size chunk_overlap doc_id field_pattern value,
           let chunks := Langchain.value_chunks split_text chunk_size chunk_overlap
                           separator doc_id field_pattern value in
           map Langchain.chunk_index chunks
           = map Z.of_nat (seq 1 (List.length chunks))).
Proof.
  intros separator Hsep. split; [| split].
  - intros E chunk_size chunk_overlap model document field.
    unfold Mongo.field_operations.
    destruct (negb (nonempty _)).
    + exists []. repeat split. constructor.
    + destruct (mongo_chunk_text_returns chunk_size chunk_overlap separator
                  (Mongo.extract_field_content (VDict document) (tokens "." field)) Hsep)
        as [chunks [-> _]].
      cbn [bind]. eexists. split; [reflexivity |].
      apply mongo_field_operations_indices.
  - intros chunk_size chunk_overlap doc_id field_path text.
    unfold Chroma.field_chunks. rewrite (split_ok _ _ Hsep). cbn [bind].
    eexists. split; [reflexivity |]. apply chroma_field_chunks_indices.
  - intros split_text chunk_size chunk_overlap doc_id field_pattern value. cbv zeta.
    unfold Langchain.value_chunks. destruct (negb (nonempty value)); [reflexivity |].
    rewrite length_map. unfold enumerate. rewrite enumerate_from_length, map_map.
    rewrite (map_ext _ (fun ic => fst ic + 1)) by (now intros [i c]).
    exact (eq_trans (enumerate_from_shifted _ 0 1) (one_based_indices _)).
Qed.

Lemma chunk_indices_contiguous_witness :
  " " <> ""
  /\ (exists ops,
         Mongo.field_operations (E := unit) 3 1 " " None title_doc "title" = Ok ops
         /\ map Mongo.chunk_index ops = map Z.of_nat (seq 1 (List.length ops))
         /\ Forall (fun o => Mongo.total_chunks o = Z.of_nat (List.length ops)) ops)
  /\ (exists chunks,
         Chroma.field_chunks 3 1 " " (VStr "d1") "title" "a b c d e" = Ok chunks
         /\ map Chroma.chunk_index chunks = map Z.of_nat (seq 0 (List.length chunks))).
Proof.
  assert (H : " " <> "") by discriminate.
  split; [exact H |].
  destruct (chunk_indices_contiguous " " H) as [Hm [Hc _]].
  split; [apply Hm | apply Hc].
Defined.

(** ** Chunk sizes that are not positive *)



Lemma for_each_all_ok {A S} (body : S -> A -> res S) (l : list A) :
  (forall st x, exists st', body st x = Ok st') ->
  forall st, exists st', for_each body l st = Ok st'.
Proof.
  intros Hbody. induction l as [| x l IH]; intros st; cbn [for_each].
  - now exists st.
  - destruct (Hbody st x) as [st' ->]. cbn [bind]. apply IH.
Qed.


Lemma chroma_ingest_returns chunk_size chunk_overlap separator document fields doc_id :
  separator <> "" ->
  lookup "id" document = Some doc_id ->
  exists chunks,
    Chroma.ingest_document chunk_size chunk_overlap separator document fields = Ok chunks.
Proof.
  intros Hsep Hid. unfold Chroma.ingest_document. rewrite Hid.
  apply for_each_all_ok. intros st field_pattern.
  apply for_each_all_ok. intros st' [field_path text]. cbn [fst snd].
  destruct (chroma_field_chunks_returns chunk_size chunk_overlap separator doc_id
              field_path text Hsep) as [cs [-> _]].
  cbn [bind]. eauto.
Qed.




(** ** Paths that resolve to nothing *)

Lemma mongo_content_of_falsy v parts :
  truthy v = false -> Mongo.extract_field_content v parts = "".
Proof.
  intros H. destruct parts as [| part rest]; cbn [Mongo.extract_field_content];
    now rewrite H.
Qed.

Lemma mongo_absent_gives_empty parts :
  forall v,
    no_wildcard parts = true ->
    absent_in v parts = true ->
    Mongo.extract_field_content v parts = "".
Proof.
  induction parts as [| part rest IH]; intros v Hw Ha; [discriminate Ha |].
  cbn [no_wildcard forallb] in Hw. apply andb_true_iff in Hw. destruct Hw as [Hp Hw].
  apply negb_true_iff in Hp.
  cbn [absent_in] in Ha. destruct v as [| | | | | d]; try discriminate Ha.
  cbn [Mongo.extract_field_content]. rewrite Hp.
  destruct (negb (truthy (VDict d))); [reflexivity |].
  unfold Mongo.get_or_empty. destruct (lookup part d) as [v' |].
  - now apply IH.
  - now apply mongo_content_of_falsy.
Qed.

Lemma chroma_absent_gives_none separator parts :
  forall v current_path,
    absent_in v parts = true ->
    Chroma.extract_field_value separator parts v current_path = [].
Proof.
  induction parts as [| part rest IH]; intros v cp Ha; [reflexivity |].
  cbn [absent_in] in Ha. destruct v as [| | | | | d]; try discriminate Ha.
  cbn [Chroma.extract_field_value is_list]. rewrite andb_false_r.
  destruct (lookup part d) as [v' |].
  - destruct rest as [| part' rest']; [discriminate Ha |]. now apply IH.
  - now destruct rest.
Qed.

(** In chroma a segment applied to the wrong shape (a key asked of a
    value that is not a mapping, a wildcard asked of a scalar) resolves
    to nothing as well. *)
Lemma chroma_wrong_shape_gives_none separator part rest v current_path :
  is_dict v = false ->
  (is_list v = false \/ part <> "*") ->
  Chroma.extract_field_value separator (part :: rest) v current_path = [].
Proof.
  intros Hd Hl. cbn [Chroma.extract_field_value].
  destruct v; try discriminate Hd; cbn [is_list]; rewrite ?andb_false_r; try reflexivity.
  destruct Hl as [Hl | Hp]; [discriminate Hl |].
  apply String.eqb_neq in Hp. now rewrite Hp.
Qed.

Lemma for_each_unchanged {A S} (body : S -> A -> res S) (l : list A) (st : S) :
  Forall (fun x => body st x = Ok st) l -> for_each body l st = Ok st.
Proof.
  induction 1 as [| x l Hx _ IH]; cbn [for_each]; [reflexivity |].
  now rewrite Hx.
Qed.

Lemma mongo_ingest_absent {E} chunk_size chunk_overlap separator
    (model : option (string -> E)) document fields :
  Forall (fun field => absent_in (VDict document) (tokens "." field) = true
                       /\ no_wildcard (tokens "." field) = true) fields ->
  Mongo.ingest_document chunk_size chunk_overlap separator model document fields = Ok [].
Proof.
  intros Hf. unfold Mongo.ingest_document. apply for_each_unchanged.
  eapply Forall_impl; [| exact Hf]. intros field [Ha Hw]. cbv beta.
  unfold Mongo.field_operations.
  now rewrite (mongo_absent_gives_empty _ _ Hw Ha).
Qed.

Lemma chroma_ingest_absent chunk_size chunk_overlap separator document fields doc_id :
  Forall (fun field => absent_in (VDict document) (tokens "." field) = true) fields ->
  lookup "id" document = Some doc_id ->
  Chroma.ingest_document chunk_size chunk_overlap separator document fields = Ok [].
Proof.
  intros Hf Hid. unfold Chroma.ingest_document. rewrite Hid.
  apply for_each_unchanged.
  eapply Forall_impl; [| exact Hf]. intros field Ha. cbv beta.
  now rewrite (chroma_absent_gives_none _ _ _ _ Ha).
Qed.

(** "missing.field" over any document without a "missing" entry. *)
Lemma missing_field_yields_nothing :
  forall (E : Type) chunk_size chunk_overlap separator (model : option (string -> E))
         document,
    lookup "missing" document = None ->
    Mongo.ingest_document chunk_size chunk_overlap separator model document
      ["missing.field"] = Ok []
    /\ (forall doc_id,
           lookup "id" document = Some doc_id ->
           Chroma.ingest_document chunk_size chunk_overlap separator document
             ["missing.field"] = Ok []).
Proof.
  intros E chunk_size chunk_overlap separator model document Hm.
  assert (Ha : absent_in (VDict document) (tokens "." "missing.field") = true).
  { change (tokens "." "missing.field") with ["missing"; "field"].
    cbn [absent_in]. now rewrite Hm. }
  split.
  - apply mongo_ingest_absent. repeat constructor. exact Ha.
  - intros doc_id Hid. apply chroma_ingest_absent with doc_id; [| exact Hid].
    repeat constructor. exact Ha.
Qed.

(** C7 does not hold as stated: in mongo a key asked of a text is
    passed over, so "missing.field" over a document whose "missing"
    entry is a text yields a record with that text. *)
Lemma mongo_wrong_shape_yields_record :
  res_map (map Mongo.text)
          (Mongo.ingest_document (E := unit) 512 50 " " None
             [("id", VStr "d1"); ("missing", VStr "hello")] ["missing.field"])
  = Ok ["hello"]
  /\ Mongo.ingest_document (E := unit) 512 50 " " None
       [("id", VStr "d1"); ("missing", VStr "hello")] ["missing.field"]
     <> Ok [].
Proof. split; [reflexivity | discriminate]. Qed.

(** C7, as the code has it: for fields whose path, free of wildcards,
    names a key that is absent from the mapping it is asked of (such as
    "missing.field" over a document without "missing"), the
    [ingest_document] of mongo and, for a document with an "id", of
    chroma return no record and raise nothing. *)
Theorem absent_fields_yield_nothing :
  forall (E : Type) chunk_size chunk_overlap separator (model : option (string -> E))
         document fields,
    Forall (fun field => absent_in (VDict document) (tokens "." field) = true
                         /\ no_wildcard (tokens "." field) = true) fields ->
    Mongo.ingest_document chunk_size chunk_overlap separator model document fields = Ok []
    /\ (forall doc_id,
           lookup "id" document = Some doc_id ->
           Chroma.ingest_document chunk_size chunk_overlap separator document fields = Ok []).
Proof.
  intros E chunk_size chunk_overlap separator model document fields Hf. split.
  - now apply mongo_ingest_absent.
  - intros doc_id Hid. apply chroma_ingest_absent with doc_id; [| exact Hid].
    eapply Forall_impl; [| exact Hf]. now intros field [Ha _].
Qed.

Lemma absent_fields_yield_nothing_witness :
  Mongo.ingest_document (E := unit) 3 1 " " None title_doc ["missing.field"; "meta.author"]
  = Ok []
  /\ Chroma.ingest_document 3 1 " " title_doc ["missing.field"; "meta.author"] = Ok [].
Proof.
  destruct (absent_fields_yield_nothing unit 3 1 " " None title_doc
              ["missing.field"; "meta.author"])
    as [Hm Hc].
  - repeat constructor.
  - split; [| apply (Hc (VStr "d1") eq_refl)]. exact Hm.
Defined.

(** ** pinecone without an embedding model *)

Lemma for_each_adds_nothing {A S} (body : S -> A -> res S) (l : list A) (st : S) :
  (forall x, adds_nothing (body st x) st) -> adds_nothing (for_each body l st) st.
Proof.
  intros Hbody. induction l as [| x l IH]; cbn [for_each]; [now left |].
  destruct (Hbody x) as [-> | [-> | ->]]; cbn [bind]; [exact IH | |];
    unfold adds_nothing; auto.
Qed.

Lemma map_res_no_raise {A B} (f : A -> res B) (l : list A) :
  (forall x e, f x <> Raise e) -> forall e, map_res f l <> Raise e.
Proof.
  intros Hf. induction l as [| x l IH]; intros e; cbn [map_res]; [discriminate |].
  specialize (Hf x). destruct (f x) as [y | e' | ]; cbn [bind];
    [| now contradiction (Hf e') | discriminate].
  specialize (IH e). destruct (map_res f l); cbn [bind]; congruence.
Qed.

Lemma pinecone_walk_no_raise (recurse : value -> res value) :
  (forall item e, recurse item <> Raise e) ->
  forall parts current e, Pinecone.walk recurse parts current <> Raise e.
Proof.
  intros Hr parts. induction parts as [| part rest IH]; intros current e;
    cbn [Pinecone.walk]; [discriminate |].
  destruct (_ && _)%bool.
  - destruct current; try discriminate.
    pose proof (map_res_no_raise recurse items Hr e).
    destruct (map_res recurse items); cbn [bind]; congruence.
  - destruct current; try discriminate. apply IH.
Qed.

Lemma pinecone_get_nested_value_no_raise fuel :
  forall obj path e, Pinecone.get_nested_value_fuel fuel obj path <> Raise e.
Proof.
  induction fuel as [| fuel IH]; intros obj path e;
    cbn [Pinecone.get_nested_value_fuel]; [discriminate |].
  apply pinecone_walk_no_raise. intros item e'. apply IH.
Qed.

Lemma pinecone_loop_no_raise separator fuel :
  forall words chunk_words overlap_words start chunks e,
    Pinecone.create_chunks_loop separator fuel words chunk_words overlap_words start chunks
    <> Raise e.
Proof.
  induction fuel as [| fuel IH]; intros words cw ow start chunks e;
    cbn [Pinecone.create_chunks_loop]; [discriminate |].
  destruct (_ <? _); [apply IH | discriminate].
Qed.

Lemma pinecone_create_chunks_raises chunk_size chunk_overlap separator fuel text e :
  Pinecone.create_chunks chunk_size chunk_overlap separator fuel text = Raise e ->
  e = ValueError.
Proof.
  unfold Pinecone.create_chunks, split.
  destruct (negb (nonempty text)); [discriminate |].
  destruct (String.eqb separator ""); cbn [bind]; [congruence |].
  destruct (tokens separator text); [discriminate |].
  intros H. now apply pinecone_loop_no_raise in H.
Qed.

Lemma pinecone_value_adds_nothing {E} chunk_size chunk_overlap separator fuel
    doc_id field_path (vectors : list (Pinecone.vector (E := E))) v :
  adds_nothing
    (Pinecone.value_vectors chunk_size chunk_overlap separator None fuel doc_id field_path
       vectors v)
    vectors.
Proof.
  unfold Pinecone.value_vectors.
  destruct (negb (Pinecone.is_text_or_number v)); [now left |].
  destruct (Pinecone.create_chunks chunk_size chunk_overlap separator fuel (str v))
    as [chunks | e |] eqn:Hc; cbn [bind].
  - now left.
  - apply pinecone_create_chunks_raises in Hc. subst e. right. now left.
  - right. now right.
Qed.

Lemma pinecone_field_adds_nothing {E} chunk_size chunk_overlap separator fuel
    document doc_id (vectors : list (Pinecone.vector (E := E))) field_path :
  adds_nothing
    (Pinecone.field_vectors chunk_size chunk_overlap separator None fuel document doc_id
       vectors field_path)
    vectors.
Proof.
  unfold Pinecone.field_vectors, Pinecone.get_nested_value.
  pose proof (pinecone_get_nested_value_no_raise (S (String.length field_path))
                (VDict document) field_path) as Hn.
  destruct (Pinecone.get_nested_value_fuel _ _ _) as [fv | e |]; cbn [bind].
  - destruct (negb (truthy fv)); [now left |].
    apply for_each_adds_nothing. intros v. apply pinecone_value_adds_nothing.
  - now contradiction (Hn e).
  - right. now right.
Qed.

(** Whatever the fuel, no vector is collected without a model. *)
Lemma pinecone_collects_nothing {E} chunk_size chunk_overlap separator fuel document fields :
  adds_nothing
    (Pinecone.collect_vectors (E := E) chunk_size chunk_overlap separator None fuel
       document fields)
    [].
Proof.
  unfold Pinecone.collect_vectors. apply for_each_adds_nothing.
  intros field_path. apply pinecone_field_adds_nothing.
Qed.

Lemma string_length_append (a b : string) :
  String.length (a ++ b) = (String.length a + String.length b)%nat.
Proof. induction a as [| c a IH]; cbn; [reflexivity | now rewrite IH]. Qed.

Lemma string_append_assoc (a b c : string) : ((a ++ b) ++ c)%string = (a ++ (b ++ c))%string.
Proof. induction a as [| x a IH]; cbn; [reflexivity | now rewrite IH]. Qed.

Lemma string_append_empty (a : string) : (a ++ "")%string = a.
Proof. induction a as [| x a IH]; cbn; [reflexivity | now rewrite IH]. Qed.

Lemma join_cons sep (p : string) (rest : list string) :
  rest <> [] -> join sep (p :: rest) = (p ++ sep ++ join sep rest)%string.
Proof. destruct rest; [congruence | reflexivity]. Qed.

Lemma prefix_dot (c : ascii) (s : string) :
  String.prefix "." (String c s) = if ascii_dec "." c then true else false.
Proof.
  change (String.prefix "." (String c s))
    with (match ascii_dec "." c with
          | left _ => String.prefix "" s
          | right _ => false
          end).
  destruct (ascii_dec "." c); [now destruct s | reflexivity].
Qed.

(** Splitting on the dot and joining with it again gives the path
    back. *)
Lemma join_split_go_dot (s : string) :
  forall cur, join "." (split_go "." 0 s cur) = (cur ++ s)%string.
Proof.
  induction s as [| c s IH]; intros cur.
  - cbn. now rewrite string_append_empty.
  - cbn [split_go]. rewrite prefix_dot.
    destruct (ascii_dec "." c) as [<- | Hc].
    + change (String.length "." - 1)%nat with 0%nat.
      rewrite join_cons by apply split_go_nonempty.
      now rewrite IH.
    + rewrite IH. now rewrite string_append_assoc.
Qed.

Lemma join_tokens_dot (s : string) : join "." (tokens "." s) = s.
Proof. apply join_split_go_dot. Qed.

Lemma join_after_first_star_shorter parts :
  In "*" parts ->
  (String.length (join "." (after_first_star parts)) < String.length (join "." parts))%nat.
Proof.
  induction parts as [| part rest IH]; intros Hin; [contradiction |].
  cbn [after_first_star].
  destruct (String.eqb_spec part "*") as [-> | Hp].
  - destruct rest as [| r rest]; [cbn; lia |].
    rewrite (join_cons "." "*" (r :: rest)) by discriminate.
    rewrite !string_length_append. cbn [String.length]. lia.
  - destruct Hin as [-> | Hin]; [congruence |].
    specialize (IH Hin).
    assert (rest <> []) by (destruct rest; [contradiction | discriminate]).
    rewrite (join_cons "." part rest) by assumption.
    rewrite !string_length_append. lia.
Qed.

Lemma map_res_all_ok {A B} (f : A -> res B) (l : list A) :
  (forall x, exists y, f x = Ok y) -> exists ys, map_res f l = Ok ys.
Proof.
  intros Hf. induction l as [| x l [ys IH]]; cbn [map_res]; [eauto |].
  destruct (Hf x) as [y ->]. rewrite IH. cbn [bind]. eauto.
Qed.

Lemma pinecone_walk_returns (recurse : value -> res value) parts :
  (In "*" parts -> forall item, exists v, recurse item = Ok v) ->
  forall current, exists v, Pinecone.walk recurse parts current = Ok v.
Proof.
  induction parts as [| part rest IH]; intros Hr current; cbn [Pinecone.walk]; [eauto |].
  destruct (String.eqb_spec part "*") as [-> | Hp]; cbn [andb].
  - destruct current; cbn [is_list]; eauto.
    + destruct (map_res_all_ok recurse items (Hr (or_introl eq_refl))) as [ys ->].
      cbn [bind]. eauto.
    + apply IH. intros Hin. apply Hr. now right.
  - destruct current; eauto. apply IH. intros Hin. apply Hr. now right.
Qed.

(** The fuel [get_nested_value] starts with is enough. *)
Lemma pinecone_get_nested_value_fuel_returns fuel :
  forall obj path,
    (String.length path < fuel)%nat ->
    exists v, Pinecone.get_nested_value_fuel fuel obj path = Ok v.
Proof.
  induction fuel as [| fuel IH]; intros obj path Hlen; [lia |].
  cbn [Pinecone.get_nested_value_fuel].
  apply pinecone_walk_returns. intros Hin item. apply IH.
  pose proof (join_after_first_star_shorter _ Hin) as Hs.
  rewrite join_tokens_dot in Hs. lia.
Qed.

Lemma pinecone_get_nested_value_returns obj path :
  exists v, Pinecone.get_nested_value obj path = Ok v.
Proof. apply pinecone_get_nested_value_fuel_returns. lia. Qed.

(** When a chunk holds more words than the overlap, [start] advances
    and the loop ends within [len(words)] iterations. *)
Lemma pinecone_loop_returns separator words chunk_words overlap_words :
  overlap_words < chunk_words ->
  forall fuel start chunks,
    Z.of_nat (List.length words) - start <= Z.of_nat fuel ->
    exists r,
      Pinecone.create_chunks_loop separator (S fuel) words chunk_words overlap_words
        start chunks = Ok r.
Proof.
  intros Hstep fuel. induction fuel as [| fuel IH]; intros start chunks Hfuel.
  - cbn [Pinecone.create_chunks_loop].
    destruct (Z.ltb_spec start (Z.of_nat (List.length words))); [lia | eauto].
  - cbn [Pinecone.create_chunks_loop].
    destruct (Z.ltb_spec start (Z.of_nat (List.length words))); [| eauto].
    apply IH. lia.
Qed.

Lemma pinecone_loop_more_fuel separator words chunk_words overlap_words :
  forall fuel start chunks r,
    Pinecone.create_chunks_loop separator fuel words chunk_words overlap_words start chunks
    = Ok r ->
    forall fuel', (fuel <= fuel')%nat ->
    Pinecone.create_chunks_loop separator fuel' words chunk_words overlap_words start chunks
    = Ok r.
Proof.
  induction fuel as [| fuel IH]; intros start chunks r H fuel' Hle; [discriminate H |].
  destruct fuel' as [| fuel']; [lia |].
  cbn [Pinecone.create_chunks_loop] in *.
  destruct (_ <? _); [| exact H].
  apply IH with (fuel' := fuel') in H; [exact H | lia].
Qed.

Lemma pinecone_create_chunks_returns chunk_size chunk_overlap separator text :
  separator <> "" ->
  chunk_overlap / (len separator + 1) < chunk_size / (len separator + 1) ->
  exists fuel0, forall fuel, (fuel0 <= fuel)%nat ->
    exists r, Pinecone.create_chunks chunk_size chunk_overlap separator fuel text = Ok r.
Proof.
  intros Hsep Hstep. exists (S (List.length (tokens separator text))).
  intros fuel Hfuel. unfold Pinecone.create_chunks.
  destruct (negb (nonempty text)); [eauto |].
  rewrite (split_ok _ _ Hsep). cbn [bind].
  destruct (tokens separator text) as [| w ws] eqn:Hw; [eauto |].
  destruct (pinecone_loop_returns separator (w :: ws) _ _ Hstep
              (List.length (w :: ws)) 0 []) as [r Hr]; [lia |].
  exists r. now apply (pinecone_loop_more_fuel _ _ _ _ _ _ _ _ Hr).
Qed.

Lemma for_each_eventually {A S} (body : nat -> S -> A -> res S) (l : list A) (st : S) :
  (forall x, exists fuel0, forall fuel, (fuel0 <= fuel)%nat -> body fuel st x = Ok st) ->
  exists fuel0, forall fuel, (fuel0 <= fuel)%nat -> for_each (body fuel) l st = Ok st.
Proof.
  intros Hbody. induction l as [| x l [f1 IH]].
  - exists 0%nat. reflexivity.
  - destruct (Hbody x) as [f0 H0]. exists (Nat.max f0 f1). intros fuel Hfuel.
    cbn [for_each]. rewrite H0 by lia. cbn [bind]. apply IH. lia.
Qed.

Lemma pinecone_collects_eventually {E} chunk_size chunk_overlap separator document fields :
  separator <> "" ->
  chunk_overlap / (len separator + 1) < chunk_size / (len separator + 1) ->
  exists fuel0, forall fuel, (fuel0 <= fuel)%nat ->
    Pinecone.collect_vectors (E := E) chunk_size chunk_overlap separator None fuel
      document fields = Ok [].
Proof.
  intros Hsep Hstep. unfold Pinecone.collect_vectors.
  apply (for_each_eventually
           (fun fuel => Pinecone.field_vectors chunk_size chunk_overlap separator None fuel
                          document (Pinecone.document_id document))).
  intros field_path. unfold Pinecone.field_vectors.
  destruct (pinecone_get_nested_value_returns (VDict document) field_path) as [fv ->].
  cbn [bind]. destruct (negb (truthy fv)); [exists 0%nat; reflexivity |].
  apply (for_each_eventually
           (fun fuel => Pinecone.value_vectors chunk_size chunk_overlap separator None fuel
                          (Pinecone.document_id document) field_path)).
  intros v. unfold Pinecone.value_vectors.
  destruct (negb (Pinecone.is_text_or_number v)); [exists 0%nat; reflexivity |].
  destruct (pinecone_create_chunks_returns chunk_size chunk_overlap separator (str v)
              Hsep Hstep) as [f0 Hf0].
  exists f0. intros fuel Hfuel. destruct (Hf0 fuel Hfuel) as [r ->]. reflexivity.
Qed.

(** C10: in pinecone, without an embedding model, no vector is
    collected and the backend is not reached, whatever the fields
    contain: at any fuel the call has returned no batch, has raised the
    [ValueError] of an empty separator, or has not returned; and when a
    chunk holds more words than the overlap it does return, with no
    batch to upsert. *)
Theorem pinecone_without_model_stores_nothing :
  forall (E : Type) chunk_size chunk_overlap separator document fields,
    (forall fuel,
        adds_nothing
          (Pinecone.collect_vectors (E := E) chunk_size chunk_overlap separator None fuel
             document fields) []
        /\ adds_nothing
             (Pinecone.ingest_document (E := E) chunk_size chunk_overlap separator None fuel
                document fields) [])
    /\ (separator <> "" ->
        chunk_overlap / (len separator + 1) < chunk_size / (len separator + 1) ->
        exists fuel0, forall fuel, (fuel0 <= fuel)%nat ->
          Pinecone.ingest_document (E := E) chunk_size chunk_overlap separator None fuel
            document fields = Ok []).
Proof.
  intros E chunk_size chunk_overlap separator document fields. split.
  - intros fuel.
    pose proof (pinecone_collects_nothing (E := E) chunk_size chunk_overlap separator fuel
                  document fields) as H.
    split; [exact H |]. unfold Pinecone.ingest_document.
    destruct H as [-> | [-> | ->]]; cbn [bind]; unfold adds_nothing; auto.
  - intros Hsep Hstep.
    destruct (pinecone_collects_eventually (E := E) chunk_size chunk_overlap separator
                document fields Hsep Hstep) as [f0 Hf0].
    exists f0. intros fuel Hfuel. unfold Pinecone.ingest_document.
    now rewrite (Hf0 fuel Hfuel).
Qed.

Lemma pinecone_without_model_stores_nothing_witness :
  " " <> "" /\ 50 / (len " " + 1) < 512 / (len " " + 1)
  /\ exists fuel0, forall fuel, (fuel0 <= fuel)%nat ->
       Pinecone.ingest_document (E := unit) 512 50 " " None fuel title_doc ["title"] = Ok [].
Proof.
  assert (H1 : " " <> "") by discriminate.
  assert (H2 : 50 / (len " " + 1) < 512 / (len " " + 1)) by (vm_compute; reflexivity).
  split; [exact H1 |]. split; [exact H2 |].
  exact (proj2 (pinecone_without_model_stores_nothing unit 512 50 " " title_doc ["title"])
           H1 H2).
Defined.

(** ** The fuel of the recursive path walks is never used up *)

Lemma pgvector_walk_returns (recurse : value -> res value) parts :
  (In "*" parts -> forall item, exists v, recurse item = Ok v) ->
  forall current, exists v, PgVector.walk recurse parts current = Ok v.
Proof.
  induction parts as [| part rest IH]; intros Hr current; cbn [PgVector.walk]; [eauto |].
  destruct (String.eqb_spec part "*") as [-> | Hp].
  - destruct current; eauto.
    destruct (map_res_all_ok recurse items (Hr (or_introl eq_refl))) as [ys ->].
    cbn [bind]. eauto.
  - destruct current; eauto.
    destruct (lookup part entries); eauto.
    apply IH. intros Hin. apply Hr. now right.
Qed.

Lemma pgvector_get_field_value_fuel_returns fuel :
  forall doc field_path,
    (String.length field_path < fuel)%nat ->
    exists v, PgVector.get_field_value_fuel fuel doc field_path = Ok v.
Proof.
  induction fuel as [| fuel IH]; intros doc field_path Hlen; [lia |].
  cbn [PgVector.get_field_value_fuel].
  apply pgvector_walk_returns. intros Hin item. apply IH.
  pose proof (join_after_first_star_shorter _ Hin) as Hs.
  rewrite join_tokens_dot in Hs. lia.
Qed.

Lemma pgvector_get_field_value_returns doc field_path :
  exists v, PgVector.get_field_value doc field_path = Ok v.
Proof. apply pgvector_get_field_value_fuel_returns. lia. Qed.

Lemma for_each_finishes {A S} (body : S -> A -> res S) (l : list A) :
  (forall st x, body st x <> Unfinished) ->
  forall st, for_each body l st <> Unfinished.
Proof.
  intros Hbody. induction l as [| x l IH]; intros st; cbn [for_each]; [discriminate |].
  specialize (Hbody st x). destruct (body st x); cbn [bind]; [apply IH | discriminate |].
  congruence.
Qed.

Lemma join_rest_shorter (part : string) (rest : list string) :
  (String.length (join "." rest) <= String.length (join "." (part :: rest)))%nat
  /\ (join "." rest <> "" ->
      (String.length (join "." rest) < String.length (join "." (part :: rest)))%nat).
Proof.
  destruct rest as [| r rest].
  - cbn. split; [lia | congruence].
  - rewrite (join_cons "." part (r :: rest)) by discriminate.
    rewrite !string_length_append. cbn [String.length]. split; lia.
Qed.

Section CapybaraFuel.

Context {M : Type}.
Variables (chunk_size chunk_overlap : Z) (separator : string) (model : option M).
Variable emb_text_valid : Capybara.emb_text (M := M) -> bool.

Lemma capybara_contains_finishes (h : Capybara.heap (M := M)) part current :
  Capybara.contains h part current <> Unfinished.
Proof.
  unfold Capybara.contains. destruct current; try discriminate.
  destruct (Capybara.deref h addr) as [[|] |]; discriminate.
Qed.

Lemma capybara_getitem_finishes (h : Capybara.heap (M := M)) current part :
  Capybara.getitem h current part <> Unfinished.
Proof.
  unfold Capybara.getitem. destruct current; try discriminate.
  destruct (Capybara.deref h addr) as [[|] |]; try discriminate.
  destruct (Capybara.hlookup part entries); discriminate.
Qed.

Lemma capybara_setitem_finishes (h : Capybara.heap (M := M)) current part v :
  Capybara.setitem h current part v <> Unfinished.
Proof.
  unfold Capybara.setitem. destruct current; try discriminate.
  destruct (Capybara.deref h addr) as [[|] |]; discriminate.
Qed.

Lemma capybara_walk_finishes
    (recurse : string -> Capybara.hval (M := M) -> Capybara.heap -> res Capybara.heap) :
  forall parts,
    (forall p item h,
        p <> "" ->
        (String.length p < String.length (join "." parts))%nat ->
        recurse p item h <> Unfinished) ->
    forall current h,
      Capybara.walk chunk_size chunk_overlap separator model emb_text_valid
        recurse parts current h
      <> Unfinished.
Proof.
  induction parts as [| part rest IH]; intros Hr current h; cbn [Capybara.walk];
    [discriminate |].
  destruct (join_rest_shorter part rest) as [Hle Hlt].
  destruct (if String.eqb part "*" then Capybara.list_items h current else None)
    as [items |].
  - unfold nonempty. destruct (String.eqb_spec (join "." rest) "") as [| Hne];
      cbn [negb]; [discriminate |].
    apply for_each_finishes. intros h' item. apply Hr; [exact Hne | now apply Hlt].
  - pose proof (capybara_contains_finishes h part current) as Hc.
    pose proof (capybara_getitem_finishes h current part) as Hg.
    destruct rest as [| part' rest'].
    + destruct (Capybara.contains h part current) as [[|] | |]; cbn [bind];
        try discriminate; try congruence.
      destruct (Capybara.getitem h current part) as [v | |]; cbn [bind];
        try discriminate; try congruence.
      destruct v; try discriminate.
      unfold Capybara.make_emb_text. cbv zeta.
      destruct (emb_text_valid _); cbn [bind]; [| discriminate].
      apply capybara_setitem_finishes.
    + destruct (Capybara.contains h part current) as [[|] | |]; cbn [bind];
        try discriminate; try congruence.
      destruct (Capybara.getitem h current part) as [v | |]; cbn [bind];
        try discriminate; try congruence.
      apply IH. intros p item h' Hp Hlen. apply Hr; [exact Hp | lia].
Qed.

Lemma capybara_process_field_fuel_finishes fuel :
  forall field_path o h,
    (String.length field_path < fuel)%nat ->
    Capybara.process_field_fuel chunk_size chunk_overlap separator model emb_text_valid
      fuel field_path o h
    <> Unfinished.
Proof.
  induction fuel as [| fuel IH]; intros field_path o h Hlen; [lia |].
  cbn [Capybara.process_field_fuel].
  apply capybara_walk_finishes. intros p item h' _ Hp. apply IH.
  rewrite join_tokens_dot in Hp. lia.
Qed.

Lemma capybara_process_field_finishes o field_path h :
  Capybara.process_field chunk_size chunk_overlap separator model emb_text_valid
    o field_path h
  <> Unfinished.
Proof. apply capybara_process_field_fuel_finishes. lia. Qed.

End CapybaraFuel.

(** ** Overlap between consecutive chunks *)

Lemma is_suffix_refl {A} (l : list A) : is_suffix l l.
Proof. now exists []. Qed.

Lemma is_suffix_app {A} (p s l : list A) : is_suffix s l -> is_suffix s (p ++ l).
Proof. intros [q ->]. exists (p ++ q)%list. now rewrite app_assoc. Qed.

Lemma is_suffix_trans {A} (a b c : list A) : is_suffix a b -> is_suffix b c -> is_suffix a c.
Proof. intros [p ->] [q ->]. exists (q ++ p)%list. now rewrite app_assoc. Qed.

Lemma words_cost_app separator (a b : list string) :
  words_cost separator (a ++ b) = words_cost separator a + words_cost separator b.
Proof.
  unfold words_cost, sum_Z. induction a as [| w a IH]; cbn; [reflexivity |].
  cbn in IH. rewrite IH. lia.
Qed.

Lemma len_append (a b : string) : len (a ++ b) = len a + len b.
Proof. unfold len. rewrite string_length_append. lia. Qed.

(** The characters of the joined words: each word and one separator,
    less the last separator. *)
Lemma join_cost separator (ws : list string) :
  ws <> [] -> len (join separator ws) + len separator = words_cost separator ws.
Proof.
  induction ws as [| w ws IH]; intros Hne; [congruence |].
  destruct ws as [| w' ws].
  - cbn. unfold words_cost, sum_Z. cbn. lia.
  - rewrite join_cons by discriminate. rewrite !len_append.
    specialize (IH ltac:(discriminate)).
    change (words_cost separator (w :: w' :: ws))
      with (len w + len separator + words_cost separator (w' :: ws)).
    lia.
Qed.

Lemma words_cost_rev separator (ws : list string) :
  words_cost separator (rev ws) = words_cost separator ws.
Proof.
  induction ws as [| w ws IH]; [reflexivity |].
  cbn [rev]. rewrite words_cost_app, IH. unfold words_cost, sum_Z. cbn. lia.
Qed.

Lemma chroma_overlap_loop_spec chunk_overlap separator :
  forall reversed_chunk acc overlap_length,
  exists taken rest,
    reversed_chunk = (taken ++ rest)%list
    /\ Chroma.overlap_loop chunk_overlap separator reversed_chunk acc overlap_length
       = ((rev taken ++ acc)%list, overlap_length + words_cost separator taken)
    /\ (taken <> [] -> overlap_length + words_cost separator taken <= chunk_overlap).
Proof.
  induction reversed_chunk as [| w r IH]; intros acc ol.
  - exists [], []. cbn. repeat split; [f_equal; unfold words_cost; cbn; lia | congruence].
  - cbn [Chroma.overlap_loop].
    destruct (Z.gtb_spec (ol + (len w + len separator)) chunk_overlap) as [Hgt | Hle].
    + exists [], (w :: r). cbn.
      repeat split; [f_equal; unfold words_cost; cbn; lia | congruence].
    + destruct (IH (w :: acc) (ol + (len w + len separator)))
        as [taken [rest [-> [Heq Hb]]]].
      exists (w :: taken), rest. split; [reflexivity |].
      change (words_cost separator (w :: taken))
        with (len w + len separator + words_cost separator taken).
      split.
      * rewrite Heq. cbn [rev]. rewrite <- app_assoc. f_equal. lia.
      * intros _. destruct taken as [| t taken].
        -- unfold words_cost. cbn. lia.
        -- specialize (Hb ltac:(discriminate)). lia.
Qed.

(** The words chroma carries over end the chunk just closed and cost
    at most [chunk_overlap] characters. *)
Lemma chroma_overlap_of_spec chunk_overlap separator current_chunk :
  let seed := fst (Chroma.overlap_of chunk_overlap separator current_chunk) in
  is_suffix seed current_chunk
  /\ snd (Chroma.overlap_of chunk_overlap separator current_chunk)
     = words_cost separator seed
  /\ (seed = [] \/ len (join separator seed) + len separator <= chunk_overlap).
Proof.
  cbv zeta. unfold Chroma.overlap_of.
  destruct (chroma_overlap_loop_spec chunk_overlap separator (rev current_chunk) [] 0)
    as [taken [rest [Hrev [-> Hb]]]].
  cbn [fst snd]. rewrite app_nil_r. split; [| split].
  - exists (rev rest). rewrite <- rev_app_distr, <- Hrev. now rewrite rev_involutive.
  - rewrite words_cost_rev. lia.
  - destruct taken as [| t taken]; [now left |]. right.
    rewrite join_cost.
    + rewrite words_cost_rev. specialize (Hb ltac:(discriminate)). lia.
    + cbn [rev]. apply app_not_nil.
Qed.

(** *** Joining the tokens gives the text back *)

Lemma split_go_skip sep (s : string) :
  forall k cur, split_go sep k s cur = split_go sep 0 (drop k s) cur.
Proof.
  induction s as [| c s IH]; intros k cur; destruct k as [| k]; try reflexivity.
  cbn [split_go drop]. apply IH.
Qed.

Lemma drop_length k : forall s, (String.length (drop k s) <= String.length s)%nat.
Proof.
  induction k as [| k IH]; intros s; [cbn; lia |].
  destruct s as [| c s]; cbn; [lia |]. specialize (IH s). lia.
Qed.

Lemma prefix_drop (p : string) :
  forall s, String.prefix p s = true -> s = (p ++ drop (String.length p) s)%string.
Proof.
  induction p as [| a p IH]; intros s H; [reflexivity |].
  destruct s as [| b s]; [discriminate H |].
  change (String.prefix (String a p) (String b s))
    with (match ascii_dec a b with
          | left _ => String.prefix p s
          | right _ => false
          end) in H.
  destruct (ascii_dec a b) as [<- |]; [| discriminate H].
  cbn. f_equal. now apply IH.
Qed.

Lemma join_split_go sep :
  sep <> "" ->
  forall n s cur,
    (String.length s <= n)%nat ->
    join sep (split_go sep 0 s cur) = (cur ++ s)%string.
Proof.
  intros Hsep n. induction n as [| n IH]; intros s cur Hlen.
  - destruct s; [| cbn in Hlen; lia]. cbn. now rewrite string_append_empty.
  - destruct s as [| c s]; [cbn; now rewrite string_append_empty |].
    cbn [split_go]. cbn in Hlen.
    destruct (String.prefix sep (String c s)) eqn:Hp.
    + rewrite join_cons by apply split_go_nonempty.
      rewrite split_go_skip.
      rewrite IH by (pose proof (drop_length (String.length sep - 1) s); lia).
      apply prefix_drop in Hp. rewrite Hp at 1.
      destruct sep as [| a sep']; [congruence |].
      cbn [String.length drop].
      replace (S (String.length sep') - 1)%nat with (String.length sep') by lia.
      reflexivity.
    + rewrite IH by lia. now rewrite string_append_assoc.
Qed.

(** [sep.join(text.split(sep)) == text] *)
Lemma join_tokens sep text : sep <> "" -> join sep (tokens sep text) = text.
Proof. intros Hsep. apply (join_split_go sep Hsep (String.length text)). lia. Qed.

(** *** mongo: words of the previous chunk *)

Lemma slice_from_last {A} (l : list A) (k : Z) :
  0 < k ->
  l <> [] ->
  is_suffix (slice_from l (- k)) l
  /\ 1 <= Z.of_nat (List.length (slice_from l (- k))) <= k.
Proof.
  intros Hk Hl. unfold slice_from, clamp_index.
  destruct (Z.ltb_spec (- k) 0); [| lia].
  set (n := Z.to_nat (Z.max (- k + Z.of_nat (List.length l)) 0)).
  split.
  - exists (firstn n l). now rewrite firstn_skipn.
  - rewrite length_skipn.
    assert (0 < List.length l)%nat by (destruct l; [congruence | cbn; lia]).
    lia.
Qed.

(** C8 does not hold as stated: in mongo the overlap is counted in
    words, so with an overlap of 1 the second chunk of "hello world"
    shares five characters with the first; in chroma the second chunk
    of the scenario text shares nothing with the first although the
    overlap is 1. *)
Lemma overlap_bound_exceeded :
  (Mongo.chunk_text 6 1 " " "hello world" = Ok ["hello"; "hello world"]
   /\ ~ shared_prefix_length "hello" "hello world" <= 1)
  /\ (res_map (map Chroma.text) (Chroma.field_chunks 3 1 " " (VStr "d1") "title" "a b c d e")
      = Ok ["a b"; "c"; "d"; "e"]
      /\ ~ 0 < shared_prefix_length "a b" "c").
Proof.
  split; (split; [reflexivity |]).
  - change (shared_prefix_length "hello" "hello world") with 5. lia.
  - change (shared_prefix_length "a b" "c") with 0. lia.
Qed.

(** * Further properties of the implementations *)

(** ** Joining groups of words *)

Lemma join_app sep (a b : list string) :
  a <> [] -> b <> [] ->
  join sep (a ++ b) = (join sep a ++ sep ++ join sep b)%string.
Proof.
  intros Ha Hb. induction a as [| x a IH]; [congruence |].
  destruct a as [| y a].
  - cbn [app]. now rewrite join_cons.
  - cbn [app]. rewrite join_cons by discriminate.
    cbn [app] in IH. rewrite IH by discriminate.
    rewrite (join_cons sep x (y :: a)) by discriminate.
    now rewrite !string_append_assoc.
Qed.

Lemma concat_groups_nonempty (g : list string) (gs : list (list string)) :
  g <> [] -> List.concat (g :: gs) <> [].
Proof. destruct g; [congruence | discriminate]. Qed.

(** Joining the texts of non-empty groups is joining their words. *)
Lemma join_groups sep (groups : list (list string)) :
  Forall (fun g => g <> []) groups ->
  join sep (map (join sep) groups) = join sep (List.concat groups).
Proof.
  induction 1 as [| g gs Hg Hgs IH]; [reflexivity |].
  destruct gs as [| g' gs].
  - cbn. now rewrite app_nil_r.
  - cbn [map]. rewrite join_cons by discriminate.
    cbn [map] in IH. rewrite IH.
    change (List.concat (g :: g' :: gs)) with (g ++ List.concat (g' :: gs))%list.
    rewrite join_app; [reflexivity | exact Hg |].
    apply concat_groups_nonempty. now inversion Hgs.
Qed.

(** ** mongo: what the packing loop makes of the words *)

Lemma mongo_cost_app (a b : list string) :
  mongo_cost (a ++ b) = mongo_cost a + mongo_cost b.
Proof.
  unfold mongo_cost, sum_Z. induction a as [| w a IH]; cbn; [reflexivity |].
  cbn in IH. rewrite IH. lia.
Qed.

Lemma mongo_pack_groups chunk_size separator :
  forall words groups current_chunk current_length,
    Forall (mongo_group_fits chunk_size) groups ->
    current_length = mongo_cost current_chunk ->
    (List.length current_chunk <= 1)%nat \/ current_length <= chunk_size ->
    exists groups',
      Mongo.flush separator
        (fold_left (Mongo.pack_word chunk_size separator) words
           (map (join separator) groups, current_chunk, current_length))
      = map (join separator) groups'
      /\ Forall (mongo_group_fits chunk_size) groups'
      /\ List.concat groups' = (List.concat groups ++ current_chunk ++ words)%list.
Proof.
  induction words as [| w words IH]; intros groups cc cl Hg Hcl Hfit.
  - cbn [fold_left]. unfold Mongo.flush. destruct cc as [| c cc].
    + exists groups. now rewrite !app_nil_r.
    + exists (groups ++ [c :: cc])%list. rewrite map_app. split; [reflexivity |]. split.
      * apply Forall_app. split; [exact Hg |]. constructor; [| constructor].
        split; [discriminate |]. destruct Hfit as [Hl | Hl].
        -- left. cbn in *. lia.
        -- right. now rewrite <- Hcl.
      * rewrite concat_app. cbn. now rewrite !app_nil_r.
  - cbn [fold_left]. unfold Mongo.pack_word at 2.
    destruct (Z.leb_spec (cl + len w + 1) chunk_size) as [Hle | Hgt].
    + destruct (IH groups (cc ++ [w])%list (cl + len w + 1) Hg) as [groups' [H1 [H2 H3]]].
      * rewrite mongo_cost_app, Hcl. unfold mongo_cost, sum_Z. cbn. lia.
      * now right.
      * exists groups'. repeat split; auto. rewrite H3. now rewrite <- !app_assoc.
    + destruct cc as [| c cc].
      * destruct (IH groups [w] (len w + 1) Hg) as [groups' [H1 [H2 H3]]].
        -- unfold mongo_cost, sum_Z. cbn. lia.
        -- left. cbn. lia.
        -- exists groups'. repeat split; auto.
      * destruct (IH (groups ++ [c :: cc])%list [w] (len w + 1)) as [groups' [H1 [H2 H3]]].
        -- apply Forall_app. split; [exact Hg |]. constructor; [| constructor].
           split; [discriminate |]. destruct Hfit as [Hl | Hl].
           ++ left. cbn in *. lia.
           ++ right. now rewrite <- Hcl.
        -- unfold mongo_cost, sum_Z. cbn. lia.
        -- left. cbn. lia.
        -- exists groups'. rewrite map_app in H1. repeat split; auto.
           rewrite H3, concat_app. cbn. now rewrite app_nil_r, <- !app_assoc.
Qed.

(** X1: the packing loop of mongo's [chunk_text] cuts the words, in
    order and without losing one, into non-empty groups, one per chunk;
    a group is a single word or its words, counted with one character
    each for the separators, fit in [chunk_size]. *)
Theorem mongo_base_chunks_group_words :
  forall chunk_size separator words,
  exists groups,
    Mongo.base_chunks chunk_size separator words = map (join separator) groups
    /\ List.concat groups = words
    /\ Forall (mongo_group_fits chunk_size) groups.
Proof.
  intros chunk_size separator words. unfold Mongo.base_chunks.
  destruct (mongo_pack_groups chunk_size separator words [] [] 0)
    as [groups [H1 [H2 H3]]].
  - constructor.
  - reflexivity.
  - left. cbn. lia.
  - exists groups. repeat split; assumption.
Qed.

Lemma mongo_add_overlap_off chunk_overlap separator chunks :
  chunk_overlap <= 0 -> Mongo.add_overlap chunk_overlap separator chunks = chunks.
Proof.
  intros H. unfold Mongo.add_overlap.
  destruct (Z.gtb_spec chunk_overlap 0); [lia | reflexivity].
Qed.

(** X2: without overlap mongo's [chunk_text] loses nothing of the text:
    the chunks, joined with the separator, are the text again. *)
Theorem mongo_chunks_join_to_text :
  forall chunk_size chunk_overlap separator text,
    separator <> "" ->
    chunk_overlap <= 0 ->
    exists chunks,
      Mongo.chunk_text chunk_size chunk_overlap separator text = Ok chunks
      /\ join separator chunks = text.
Proof.
  intros chunk_size chunk_overlap separator text Hsep Hov.
  unfold Mongo.chunk_text. rewrite (split_ok _ _ Hsep). cbn [bind].
  rewrite mongo_add_overlap_off by exact Hov.
  eexists. split; [reflexivity |].
  destruct (mongo_pack_groups chunk_size separator (tokens separator text) [] [] 0)
    as [groups [H1 [H2 H3]]]; [constructor | reflexivity | left; cbn; lia |].
  cbn [map] in H1. unfold Mongo.base_chunks. rewrite H1, join_groups.
  - cbn [List.concat app] in H3. rewrite H3. now apply join_tokens.
  - eapply Forall_impl; [| exact H2]. now intros g [Hg _].
Qed.

Lemma mongo_chunks_join_to_text_witness :
  " " <> "" /\ 0 <= 0
  /\ exists chunks,
       Mongo.chunk_text 4 0 " " "ab cd  ef" = Ok chunks /\ join " " chunks = "ab cd  ef".
Proof.
  assert (H : " " <> "") by discriminate.
  assert (H0 : 0 <= 0) by lia.
  split; [exact H |]. split; [exact H0 |].
  exact (mongo_chunks_join_to_text 4 0 " " "ab cd  ef" H H0).
Defined.

(** ** chroma: what the loop makes of the words *)

Lemma chroma_seeded_snoc chunk_overlap separator groups :
  forall seed g,
    chroma_seeded chunk_overlap separator seed groups ->
    fst g = chroma_next_seed chunk_overlap separator seed groups ->
    chroma_seeded chunk_overlap separator seed (groups ++ [g]).
Proof.
  induction groups as [| g' groups IH]; intros seed g Hs Hg; cbn in *.
  - split; [exact Hg | exact I].
  - destruct Hs as [H1 H2]. split; [exact H1 |]. now apply IH.
Qed.

Lemma chroma_next_seed_snoc chunk_overlap separator groups :
  forall seed g,
    chroma_next_seed chunk_overlap separator seed (groups ++ [g])
    = fst (Chroma.overlap_of chunk_overlap separator (fst g ++ snd g)).
Proof.
  induction groups as [| g' groups IH]; intros seed g; cbn; [reflexivity |]. apply IH.
Qed.

Lemma len_join_snoc separator (ws : list string) (w : string) :
  ws <> [] ->
  len (join separator (ws ++ [w])) = len (join separator ws) + len separator + len w.
Proof.
  intros Hne. rewrite join_app by (assumption || discriminate).
  rewrite !len_append. cbn [join String.concat]. lia.
Qed.

(** Closing the chunk being filled adds a group. *)
Lemma chroma_grouped_close chunk_size chunk_overlap separator done st groups fresh :
  chroma_grouped chunk_size chunk_overlap separator done st groups fresh ->
  Chroma.current_chunk st <> [] ->
  let g := (chroma_next_seed chunk_overlap separator [] groups, fresh) in
  (map Chroma.text (Chroma.emitted st) ++ [join separator (Chroma.current_chunk st)])%list
  = map (chroma_group_text separator) (groups ++ [g])
  /\ Forall (chroma_group_fits chunk_size separator) (groups ++ [g])
  /\ chroma_seeded chunk_overlap separator [] (groups ++ [g])
  /\ List.concat (map snd (groups ++ [g])) = done.
Proof.
  intros [H1 [H2 [H3 [H4 [H5 [H6 [H7 H8]]]]]]] Hcc. cbv zeta.
  assert (Hfresh : fresh <> []) by (intros ->; now apply Hcc, H6).
  split; [| split; [| split]].
  - rewrite map_app, H1. cbn [map]. unfold chroma_group_text at 3. cbn [fst snd].
    now rewrite H4.
  - apply Forall_app. split; [exact H2 |]. constructor; [| constructor].
    split; [exact Hfresh |]. unfold chroma_group_text. cbn [fst snd]. rewrite <- H4.
    destruct H8 as [Hl | Hl].
    + left. destruct fresh as [| f [| f' fresh]]; cbn in *; try lia. congruence.
    + right. lia.
  - now apply chroma_seeded_snoc.
  - rewrite map_app, concat_app. cbn. now rewrite app_nil_r.
Qed.

Lemma chroma_pack_word_grouped chunk_size chunk_overlap separator doc_id field_path
    done st groups fresh w :
  chroma_grouped chunk_size chunk_overlap separator done st groups fresh ->
  exists groups' fresh',
    chroma_grouped chunk_size chunk_overlap separator (done ++ [w])
      (Chroma.pack_word chunk_size chunk_overlap separator doc_id field_path st w)
      groups' fresh'.
Proof.
  intros Hst. pose proof Hst as [H1 [H2 [H3 [H4 [H5 [H6 [H7 H8]]]]]]].
  pose proof (len_nonneg separator) as Hsep. pose proof (len_nonneg w) as Hw.
  unfold Chroma.pack_word.
  destruct (Chroma.current_chunk st) as [| c cc] eqn:Hcc.
  - (* the first word, or the first after an empty carry-over *)
    rewrite andb_false_r.
    assert (Hf : fresh = []).
    { destruct (chroma_next_seed chunk_overlap separator [] groups); [| discriminate H4].
      cbn in H4. now subst fresh. }
    exists groups, [w]. unfold chroma_grouped.
    cbn [Chroma.emitted Chroma.current_chunk Chroma.current_length].
    rewrite Hcc. subst fresh. rewrite app_nil_r in H4, H5.
    split; [exact H1 |]. split; [exact H2 |]. split; [exact H3 |].
    split; [now rewrite <- H4 |]. split; [now rewrite H5 |].
    split; [intros Hn; discriminate Hn |]. split.
    + change (len (join separator [])) with 0 in H7.
      change (join separator ([] ++ [w])) with w. lia.
    + left. cbn. lia.
  - rewrite andb_true_r.
    destruct (Z.gtb_spec (Chroma.current_length st + (len w + len separator)) chunk_size)
      as [Hgt | Hle].
    + (* the chunk is closed and the word opens the next one *)
      destruct (chroma_grouped_close _ _ _ _ _ _ _ Hst ltac:(rewrite Hcc; discriminate))
        as [G1 [G2 [G3 G4]]].
      pose proof (chroma_overlap_of_spec chunk_overlap separator (c :: cc)) as [_ [Hol _]].
      destruct (Chroma.overlap_of chunk_overlap separator (c :: cc)) as [ow ol] eqn:How.
      cbn [fst snd] in Hol.
      exists (groups ++ [(chroma_next_seed chunk_overlap separator [] groups, fresh)])%list,
        [w].
      unfold chroma_grouped.
      cbn [Chroma.emitted Chroma.current_chunk Chroma.current_length].
      rewrite map_app. cbn [map Chroma.create_chunk Chroma.text]. rewrite <- Hcc.
      split; [exact G1 |]. split; [exact G2 |]. split; [exact G3 |].
      split; [| split; [| split; [| split]]].
      * rewrite chroma_next_seed_snoc. cbn [fst snd]. rewrite <- H4, How. reflexivity.
      * now rewrite G4.
      * discriminate.
      * destruct ow as [| o ow].
        -- change (join separator ([] ++ [w])) with w.
           change (words_cost separator []) with 0 in Hol. lia.
        -- rewrite len_join_snoc by discriminate.
           pose proof (join_cost separator (o :: ow) ltac:(discriminate)). lia.
      * left. cbn. lia.
    + (* the word joins the chunk being filled *)
      exists groups, (fresh ++ [w])%list. unfold chroma_grouped.
      cbn [Chroma.emitted Chroma.current_chunk Chroma.current_length].
      rewrite Hcc. split; [exact H1 |]. split; [exact H2 |]. split; [exact H3 |].
      split; [| split; [| split; [| split]]].
      * rewrite H4. now rewrite <- app_assoc.
      * rewrite <- H5. now rewrite <- app_assoc.
      * intros Hn. now apply app_not_nil in Hn.
      * rewrite len_join_snoc by discriminate. lia.
      * right. lia.
Qed.

Lemma chroma_fold_grouped chunk_size chunk_overlap separator doc_id field_path :
  forall words done st groups fresh,
    chroma_grouped chunk_size chunk_overlap separator done st groups fresh ->
    exists groups' fresh',
      chroma_grouped chunk_size chunk_overlap separator (done ++ words)
        (fold_left (Chroma.pack_word chunk_size chunk_overlap separator doc_id field_path)
           words st)
        groups' fresh'.
Proof.
  induction words as [| w words IH]; intros done st groups fresh Hst.
  - exists groups, fresh. now rewrite app_nil_r.
  - cbn [fold_left].
    destruct (chroma_pack_word_grouped chunk_size chunk_overlap separator doc_id field_path
                done st groups fresh w Hst) as [g1 [f1 H1]].
    destruct (IH _ _ _ _ H1) as [g2 [f2 H2]].
    exists g2, f2. now rewrite <- app_assoc in H2.
Qed.

Lemma chroma_finish_grouped chunk_size chunk_overlap separator doc_id field_path words :
  exists groups,
    map Chroma.text
      (Chroma.finish separator doc_id field_path
         (fold_left (Chroma.pack_word chunk_size chunk_overlap separator doc_id field_path)
            words
            {| Chroma.emitted := []; Chroma.current_chunk := [];
               Chroma.current_length := 0; Chroma.next_index := 0 |}))
    = map (chroma_group_text separator) groups
    /\ List.concat (map snd groups) = words
    /\ Forall (chroma_group_fits chunk_size separator) groups
    /\ chroma_seeded chunk_overlap separator [] groups.
Proof.
  destruct (chroma_fold_grouped chunk_size chunk_overlap separator doc_id field_path
              words [] {| Chroma.emitted := []; Chroma.current_chunk := [];
                          Chroma.current_length := 0; Chroma.next_index := 0 |} [] [])
    as [groups [fresh Hst]].
  { unfold chroma_grouped. cbn. repeat split; auto; try constructor; try lia. }
  cbn [app] in Hst. unfold Chroma.finish.
  destruct (Chroma.current_chunk _) as [| c cc] eqn:Hcc.
  - destruct Hst as [H1 [H2 [H3 [H4 [H5 _]]]]].
    assert (Hf : fresh = []).
    { rewrite Hcc in H4.
      destruct (chroma_next_seed chunk_overlap separator [] groups); [| discriminate H4].
      cbn in H4. now subst fresh. }
    subst fresh. rewrite app_nil_r in H5. exists groups. repeat split; assumption.
  - destruct (chroma_grouped_close _ _ _ _ _ _ _ Hst ltac:(rewrite Hcc; discriminate))
      as [G1 [G2 [G3 G4]]].
    eexists. rewrite map_app. cbn [map Chroma.create_chunk Chroma.text].
    rewrite <- Hcc. repeat split; eassumption.
Qed.

(** X3: the chunks chroma makes of a field cover its words: each chunk
    is the words carried over from the chunk before (none for the
    first) followed by new words, the new words of all chunks are the
    words of the text in order, and a chunk that brings more than one
    new word has at most [chunk_size] characters. *)
Theorem chroma_field_chunks_group_words :
  forall chunk_size chunk_overlap separator doc_id field_path text,
    separator <> "" ->
    exists chunks groups,
      Chroma.field_chunks chunk_size chunk_overlap separator doc_id field_path text
      = Ok chunks
      /\ map Chroma.text chunks = map (chroma_group_text separator) groups
      /\ List.concat (map snd groups) = tokens separator text
      /\ Forall (chroma_group_fits chunk_size separator) groups
      /\ chroma_seeded chunk_overlap separator [] groups.
Proof.
  intros chunk_size chunk_overlap separator doc_id field_path text Hsep.
  unfold Chroma.field_chunks. rewrite (split_ok _ _ Hsep). cbn [bind].
  destruct (chroma_finish_grouped chunk_size chunk_overlap separator doc_id field_path
              (tokens separator text)) as [groups H].
  eexists. exists groups. split; [reflexivity | exact H].
Qed.

Lemma chroma_field_chunks_group_words_witness :
  " " <> ""
  /\ exists chunks groups,
       Chroma.field_chunks 5 2 " " (VStr "d1") "title" "a b c d e" = Ok chunks
       /\ map Chroma.text chunks = map (chroma_group_text " ") groups
       /\ List.concat (map snd groups) = tokens " " "a b c d e"
       /\ Forall (chroma_group_fits 5 " ") groups
       /\ chroma_seeded 2 " " [] groups.
Proof.
  assert (H : " " <> "") by discriminate.
  split; [exact H |].
  exact (chroma_field_chunks_group_words 5 2 " " (VStr "d1") "title" "a b c d e" H).
Defined.

Lemma chroma_no_overlap_of chunk_overlap separator current_chunk :
  separator <> "" ->
  chunk_overlap <= 0 ->
  fst (Chroma.overlap_of chunk_overlap separator current_chunk) = [].
Proof.
  intros Hsep Hov. unfold Chroma.overlap_of.
  destruct (rev current_chunk) as [| w r]; [reflexivity |].
  cbn [Chroma.overlap_loop].
  pose proof (len_pos _ Hsep). pose proof (len_nonneg w).
  destruct (Z.gtb_spec (0 + (len w + len separator)) chunk_overlap); [reflexivity | lia].
Qed.

Lemma chroma_unseeded chunk_overlap separator groups :
  separator <> "" ->
  chunk_overlap <= 0 ->
  forall seed,
    seed = [] ->
    chroma_seeded chunk_overlap separator seed groups ->
    Forall (fun g => fst g = []) groups.
Proof.
  intros Hsep Hov. induction groups as [| g groups IH]; intros seed Hseed Hs;
    [constructor |].
  destruct Hs as [Hg Hs]. constructor; [congruence |].
  eapply IH; [| exact Hs]. now apply chroma_no_overlap_of.
Qed.

(** X4: without overlap chroma loses nothing of a field and keeps to
    the size: the chunks of the field, joined with the separator, are
    its text again, and every chunk has at most [chunk_size] characters
    or is a single token of the text. *)
Theorem chroma_chunks_join_to_text :
  forall chunk_size chunk_overlap separator doc_id field_path text,
    separator <> "" ->
    chunk_overlap <= 0 ->
    exists chunks,
      Chroma.field_chunks chunk_size chunk_overlap separator doc_id field_path text
      = Ok chunks
      /\ join separator (map Chroma.text chunks) = text
      /\ Forall (fun c => len (Chroma.text c) <= chunk_size
                          \/ In (Chroma.text c) (tokens separator text)) chunks.
Proof.
  intros chunk_size chunk_overlap separator doc_id field_path text Hsep Hov.
  unfold Chroma.field_chunks. rewrite (split_ok _ _ Hsep). cbn [bind].
  destruct (chroma_finish_grouped chunk_size chunk_overlap separator doc_id field_path
              (tokens separator text)) as [groups [Ht [Hw [Hfit Hseed]]]].
  pose proof (chroma_unseeded chunk_overlap separator groups Hsep Hov [] eq_refl Hseed)
    as Hnil.
  assert (Htexts : map (chroma_group_text separator) groups
                   = map (join separator) (map snd groups)).
  { rewrite map_map. apply map_ext_in. intros g Hg.
    rewrite Forall_forall in Hnil. unfold chroma_group_text. now rewrite (Hnil g Hg). }
  eexists. split; [reflexivity |]. split.
  - rewrite Ht, Htexts, join_groups.
    + rewrite Hw. now apply join_tokens.
    + apply Forall_map. eapply Forall_impl; [| exact Hfit]. now intros g [Hg _].
  - apply Forall_forall. intros c Hc.
    apply (in_map Chroma.text) in Hc. rewrite Ht in Hc.
    apply in_map_iff in Hc. destruct Hc as [g [Hg Hin]].
    rewrite Forall_forall in Hfit, Hnil.
    destruct (Hfit g Hin) as [_ [Hone | Hle]].
    + right. rewrite <- Hg, <- Hw. unfold chroma_group_text. rewrite (Hnil g Hin).
      cbn [app]. apply in_concat. exists (snd g). split; [now apply in_map |].
      destruct (snd g) as [| w [| w' r]]; cbn in Hone; try lia. now left.
    + left. now rewrite <- Hg.
Qed.

Lemma chroma_chunks_join_to_text_witness :
  " " <> "" /\ 0 <= 0
  /\ exists chunks,
       Chroma.field_chunks 5 0 " " (VStr "d1") "title" "ab cd  efghij k" = Ok chunks
       /\ join " " (map Chroma.text chunks) = "ab cd  efghij k"
       /\ Forall (fun c => len (Chroma.text c) <= 5
                           \/ In (Chroma.text c) (tokens " " "ab cd  efghij k")) chunks.
Proof.
  assert (H : " " <> "") by discriminate.
  assert (H0 : 0 <= 0) by lia.
  split; [exact H |]. split; [exact H0 |].
  exact (chroma_chunks_join_to_text 5 0 " " (VStr "d1") "title" "ab cd  efghij k" H H0).
Defined.

(** ** Overlap between consecutive chunks, word by word *)

(** *** What the separator cuts a text into *)

Lemma prefix_app (p r : string) : String.prefix p (p ++ r) = true.
Proof.
  induction p as [| a p IH]; [now destruct r |].
  change (String.prefix (String a p) (String a p ++ r))
    with (match ascii_dec a a with
          | left _ => String.prefix p (p ++ r)
          | right _ => false
          end).
  destruct (ascii_dec a a); [exact IH | congruence].
Qed.

Lemma prefix_longer (p : string) :
  forall x t, String.prefix p x = true -> String.prefix p (x ++ t) = true.
Proof.
  induction p as [| a p IH]; intros x t H; [now destruct (x ++ t)%string |].
  destruct x as [| b x]; [discriminate H |].
  change (String.prefix (String a p) (String b x))
    with (match ascii_dec a b with
          | left _ => String.prefix p x
          | right _ => false
          end) in H.
  change (String.prefix (String a p) (String b x ++ t))
    with (match ascii_dec a b with
          | left _ => String.prefix p (x ++ t)
          | right _ => false
          end).
  destruct (ascii_dec a b); [now apply IH | discriminate H].
Qed.

Lemma drop_app (x t : string) :
  forall i, (i <= String.length x)%nat -> drop i (x ++ t) = (drop i x ++ t)%string.
Proof.
  induction x as [| c x IH]; intros i Hi.
  - cbn in Hi. assert (i = 0%nat) by lia. now subst i.
  - destruct i as [| i]; [reflexivity |]. cbn in Hi. cbn [append drop]. apply IH. lia.
Qed.

Lemma drop_all (x t : string) : drop (String.length x) (x ++ t) = t.
Proof. induction x as [| c x IH]; [reflexivity | exact IH]. Qed.

(** An occurrence in a text is an occurrence in every longer one. *)
Lemma no_occurrence_shorter sep (x t : string) (n : nat) :
  (n <= String.length x)%nat ->
  (forall i, (i < n)%nat -> String.prefix sep (drop i (x ++ t)) = false) ->
  forall i, (i < n)%nat -> String.prefix sep (drop i x) = false.
Proof.
  intros Hn H i Hi. specialize (H i Hi). rewrite drop_app in H by lia.
  destruct (String.prefix sep (drop i x)) eqn:Hp; [| reflexivity].
  now rewrite (prefix_longer sep _ t Hp) in H.
Qed.

(** Scanning over characters at which the separator does not start
    only lengthens the current word. *)
Lemma split_go_scan sep (w : string) :
  forall tail cur,
    (forall i, (i < String.length w)%nat ->
               String.prefix sep (drop i (w ++ tail)) = false) ->
    split_go sep 0 (w ++ tail) cur = split_go sep 0 tail (cur ++ w).
Proof.
  induction w as [| c w IH]; intros tail cur H.
  - cbn [append]. now rewrite string_append_empty.
  - cbn [append split_go].
    pose proof (H 0%nat ltac:(cbn; lia)) as H0. cbn [drop append] in H0. rewrite H0.
    rewrite IH.
    + now rewrite string_append_assoc.
    + intros i Hi. apply (H (S i)). cbn. lia.
Qed.

Lemma split_go_at_separator sep (rest cur : string) :
  sep <> "" ->
  split_go sep 0 (sep ++ rest) cur = cur :: split_go sep 0 rest "".
Proof.
  intros Hsep. destruct sep as [| a sep']; [congruence |].
  pose proof (prefix_app (String a sep') rest) as Hp.
  cbn [append] in Hp |- *. cbn [split_go]. rewrite Hp.
  rewrite split_go_skip. cbn [String.length].
  replace (S (String.length sep') - 1)%nat with (String.length sep') by lia.
  now rewrite drop_all.
Qed.

(** A cut is what [split] computes. *)
Lemma cut_by_split_go sep :
  sep <> "" ->
  forall s ws,
    cut_by sep s ws ->
    forall cur,
      split_go sep 0 s cur
      = match ws with
        | [] => []
        | w :: ws' => (cur ++ w)%string :: ws'
        end.
Proof.
  intros Hsep s ws H. induction H as [s Hno | w rest ws Hno _ IH]; intros cur.
  - rewrite <- (string_append_empty s) at 1.
    rewrite split_go_scan; [reflexivity |].
    intros i Hi. rewrite string_append_empty. now apply Hno.
  - rewrite split_go_scan by exact Hno.
    rewrite split_go_at_separator by exact Hsep.
    f_equal. rewrite IH. destruct ws; reflexivity.
Qed.

Lemma cut_by_tokens sep s ws :
  sep <> "" -> cut_by sep s ws -> tokens sep s = ws.
Proof.
  intros Hsep H. unfold tokens. rewrite (cut_by_split_go sep Hsep s ws H).
  destruct H; reflexivity.
Qed.

(** The place of the first occurrence of the separator, if any. *)
Lemma first_occurrence sep :
  forall s,
    (forall i, (i < String.length s)%nat -> String.prefix sep (drop i s) = false)
    \/ exists w rest,
         s = (w ++ sep ++ rest)%string
         /\ forall i, (i < String.length w)%nat -> String.prefix sep (drop i s) = false.
Proof.
  induction s as [| c s IH].
  - left. intros i Hi. cbn in Hi. lia.
  - destruct (String.prefix sep (String c s)) eqn:Hp.
    + right. exists "", (drop (String.length sep) (String c s)). split.
      * cbn [append]. now apply prefix_drop.
      * intros i Hi. cbn in Hi. lia.
    + destruct IH as [Hno | [w [rest [-> Hno]]]].
      * left. intros [| i] Hi; [exact Hp |]. cbn [drop]. apply Hno. cbn in Hi. lia.
      * right. exists (String c w), rest. split; [reflexivity |].
        intros [| i] Hi; [exact Hp |]. cbn [drop]. apply Hno. cbn in Hi. lia.
Qed.

Lemma cut_by_exists sep :
  sep <> "" ->
  forall n s, (String.length s <= n)%nat -> exists ws, cut_by sep s ws.
Proof.
  intros Hsep. induction n as [| n IH]; intros s Hlen.
  - exists [s]. apply cut_last. intros i Hi. lia.
  - destruct (first_occurrence sep s) as [Hno | [w [rest [-> Hno]]]].
    + exists [s]. now apply cut_last.
    + destruct (IH rest) as [ws Hws].
      * rewrite !string_length_append in Hlen.
        assert (0 < String.length sep)%nat by (destruct sep; [congruence | cbn; lia]).
        lia.
      * exists (w :: ws). now apply cut_word.
Qed.

Lemma tokens_cut_by sep s : sep <> "" -> cut_by sep s (tokens sep s).
Proof.
  intros Hsep. destruct (cut_by_exists sep Hsep (String.length s) s (le_n _)) as [ws H].
  now rewrite (cut_by_tokens sep s ws Hsep H).
Qed.

Lemma cut_by_words_nonempty sep s ws : cut_by sep s ws -> ws <> [].
Proof. intros H. destruct H; discriminate. Qed.

(** The text of a cut is its words joined. *)
Lemma cut_by_join sep s ws : cut_by sep s ws -> s = join sep ws.
Proof.
  induction 1 as [s _ | w rest ws _ H IH]; [reflexivity |].
  rewrite join_cons by (apply (cut_by_words_nonempty _ _ _ H)). now rewrite <- IH.
Qed.

Lemma cut_by_cons_inv sep s w ws :
  cut_by sep s (w :: ws) ->
  ws <> [] ->
  (forall i, (i < String.length w)%nat -> String.prefix sep (drop i s) = false)
  /\ cut_by sep (join sep ws) ws.
Proof.
  intros H Hws. inversion H as [s' Hno Hs Heq | w' rest ws' Hno Hrest Hs Heq]; subst.
  - congruence.
  - split; [exact Hno |]. now rewrite <- (cut_by_join _ _ _ Hrest).
Qed.

(** Words that are cut out of a text one after the other are again
    what the separator cuts their own text into. *)
Lemma cut_by_suffix sep (p m : list string) :
  m <> [] ->
  cut_by sep (join sep (p ++ m)) (p ++ m) ->
  cut_by sep (join sep m) m.
Proof.
  intros Hm. induction p as [| w p IH]; intros H; [exact H |].
  apply IH. cbn [app] in H.
  apply (cut_by_cons_inv _ _ _ _ H). now destruct p.
Qed.

Lemma cut_by_prefix sep :
  forall (m q : list string),
    m <> [] ->
    cut_by sep (join sep (m ++ q)) (m ++ q) ->
    cut_by sep (join sep m) m.
Proof.
  induction m as [| w m IH]; intros q Hm H; [congruence |].
  destruct q as [| x q]; [now rewrite app_nil_r in H |].
  cbn [app] in H.
  destruct (cut_by_cons_inv _ _ _ _ H ltac:(now destruct m)) as [Hno Hrest].
  destruct m as [| w' m].
  - cbn [app] in *. cbn [join String.concat]. apply cut_last.
    rewrite join_cons in Hno by discriminate.
    exact (no_occurrence_shorter sep w (sep ++ join sep (x :: q)) (String.length w)
             (le_n _) Hno).
  - specialize (IH (x :: q) ltac:(discriminate) Hrest).
    rewrite join_cons by discriminate. apply cut_word; [| exact IH].
    change ((w :: w' :: m) ++ x :: q)%list with (w :: (w' :: m) ++ x :: q)%list in Hno.
    rewrite join_cons in Hno by discriminate.
    rewrite (join_app sep (w' :: m) (x :: q)) in Hno by discriminate.
    replace (w ++ sep ++ join sep (w' :: m) ++ sep ++ join sep (x :: q))%string
      with ((w ++ sep ++ join sep (w' :: m)) ++ sep ++ join sep (x :: q))%string in Hno
      by (now rewrite !string_append_assoc).
    assert (Hle : (String.length w
                   <= String.length (w ++ sep ++ join sep (w' :: m)))%nat)
      by (rewrite string_length_append; lia).
    exact (no_occurrence_shorter sep _ _ _ Hle Hno).
Qed.

(** Consecutive tokens of a text, joined and split again, are the same
    tokens. *)
Lemma tokens_of_joined_tokens sep text (p m q : list string) :
  sep <> "" ->
  tokens sep text = (p ++ m ++ q)%list ->
  m <> [] ->
  tokens sep (join sep m) = m.
Proof.
  intros Hsep Ht Hm. apply cut_by_tokens; [exact Hsep |].
  pose proof (tokens_cut_by sep text Hsep) as H.
  rewrite <- (join_tokens sep text Hsep) in H at 1. rewrite Ht in H.
  apply cut_by_suffix in H; [| now destruct m].
  now apply cut_by_prefix in H.
Qed.

(** *** chroma: the words carried over *)

Lemma chroma_seeded_adjacent chunk_overlap separator text :
  separator <> "" ->
  forall groups g pre,
    tokens separator text
    = (pre ++ (fst g ++ snd g) ++ List.concat (map snd groups))%list ->
    snd g <> [] ->
    Forall (fun g' : list string * list string => snd g' <> []) groups ->
    chroma_seeded chunk_overlap separator
      (fst (Chroma.overlap_of chunk_overlap separator (fst g ++ snd g)%list)) groups ->
    all_adjacent (chroma_overlaps chunk_overlap separator)
      (chroma_group_text separator g :: map (chroma_group_text separator) groups).
Proof.
  intros Hsep. induction groups as [| g' groups IH]; intros g pre Ht Hg Hgs Hseed;
    [exact I |].
  destruct Hseed as [Hfst Hseed]. inversion Hgs as [| ? ? Hg' Hgs']; subst.
  destruct (chroma_overlap_of_spec chunk_overlap separator (fst g ++ snd g)%list)
    as [[q Hq] [_ Hbound]].
  assert (Hwords : (fst g ++ snd g)%list <> []) by (destruct (fst g); [exact Hg | discriminate]).
  assert (Hprev : tokens separator (chroma_group_text separator g)
                  = (fst g ++ snd g)%list).
  { now apply (tokens_of_joined_tokens separator text pre _
                 (List.concat (map snd (g' :: groups)))). }
  assert (Hall : tokens separator text
                 = ((pre ++ q) ++ (fst g' ++ snd g')
                    ++ List.concat (map snd groups))%list).
  { rewrite Ht, Hfst. rewrite Hq at 1. cbn [map List.concat].
    now rewrite <- !app_assoc. }
  assert (Hcur : tokens separator (chroma_group_text separator g')
                 = (fst g' ++ snd g')%list).
  { apply (tokens_of_joined_tokens separator text (pre ++ q) _
             (List.concat (map snd groups))); [exact Hsep | exact Hall |].
    destruct (fst g'); [exact Hg' | discriminate]. }
  cbn [map]. split.
  - unfold chroma_overlaps. cbv zeta. rewrite Hprev, Hcur, <- Hfst.
    exists (snd g'). split; [reflexivity |]. split; [exact Hg' |].
    split; [rewrite Hfst; now exists q | now rewrite Hfst].
  - apply (IH g' (pre ++ q)%list); assumption.
Qed.

(** *** mongo: the words of the previous chunk *)

Lemma mongo_overlap_after_adjacent chunk_overlap separator text :
  separator <> "" ->
  0 < chunk_overlap ->
  forall rest prev_group pre carried,
    tokens separator text
    = (pre ++ (carried ++ prev_group) ++ List.concat rest)%list ->
    prev_group <> [] ->
    Forall (fun g : list string => g <> []) rest ->
    all_adjacent (mongo_overlaps chunk_overlap separator)
      (join separator (carried ++ prev_group)
       :: Mongo.overlap_after chunk_overlap separator (join separator prev_group)
            (map (join separator) rest)).
Proof.
  intros Hsep Hk. induction rest as [| g rest IH]; intros prev_group pre carried Ht Hp Hr;
    [exact I |].
  inversion Hr as [| ? ? Hg Hr']; subst.
  cbn [map Mongo.overlap_after]. unfold Mongo.with_overlap.
  assert (Hprev : tokens separator (join separator prev_group) = prev_group).
  { apply (tokens_of_joined_tokens separator text (pre ++ carried) _
             (List.concat (g :: rest))); [exact Hsep | | exact Hp].
    rewrite Ht. now rewrite <- !app_assoc. }
  assert (Hcur : tokens separator (join separator g) = g).
  { apply (tokens_of_joined_tokens separator text (pre ++ carried ++ prev_group) _
             (List.concat rest)); [exact Hsep | | exact Hg].
    rewrite Ht. cbn [List.concat]. now rewrite <- !app_assoc. }
  rewrite Hprev, Hcur.
  destruct (slice_from_last prev_group chunk_overlap Hk Hp) as [[q Hq] Hlen].
  set (ov := slice_from prev_group (- chunk_overlap)) in *.
  assert (Hall : tokens separator text
                 = ((pre ++ carried ++ q) ++ (ov ++ g) ++ List.concat rest)%list).
  { rewrite Ht. rewrite Hq at 1. cbn [List.concat]. now rewrite <- !app_assoc. }
  split.
  - exists ov, g. split; [| split; [exact Hg | split; [| exact Hlen]]].
    + apply (tokens_of_joined_tokens separator text (pre ++ carried ++ q) _
               (List.concat rest)); [exact Hsep | exact Hall |].
      destruct ov; [exact Hg | discriminate].
    + rewrite (tokens_of_joined_tokens separator text pre (carried ++ prev_group)
                 (List.concat (g :: rest)) Hsep Ht).
      * exists (carried ++ q)%list. rewrite Hq at 1. now rewrite app_assoc.
      * destruct carried; [exact Hp | discriminate].
  - exact (IH g (pre ++ carried ++ q)%list ov Hall Hg Hr').
Qed.

Lemma mongo_add_overlap_adjacent chunk_size chunk_overlap separator text :
  separator <> "" ->
  0 < chunk_overlap ->
  all_adjacent (mongo_overlaps chunk_overlap separator)
    (Mongo.add_overlap chunk_overlap separator
       (Mongo.base_chunks chunk_size separator (tokens separator text))).
Proof.
  intros Hsep Hk. unfold Mongo.base_chunks.
  destruct (mongo_pack_groups chunk_size separator (tokens separator text) [] [] 0)
    as [groups [Hbase [Hfit Hwords]]].
  - constructor.
  - reflexivity.
  - left. cbn. lia.
  - cbn [map] in Hbase. rewrite Hbase.
    cbn [List.concat app] in Hwords. unfold Mongo.add_overlap.
    destruct (Z.gtb_spec chunk_overlap 0); [| lia]. cbn [andb].
    destruct (Z.gtb_spec (Z.of_nat (List.length (map (join separator) groups))) 1)
      as [Hn | Hn].
    + destruct groups as [| g rest]; [exact I |].
      inversion Hfit as [| ? ? [Hg _] Hrest]; subst. cbn [map].
      apply (mongo_overlap_after_adjacent chunk_overlap separator text Hsep Hk
               rest g [] []).
      * now rewrite <- Hwords.
      * exact Hg.
      * eapply Forall_impl; [| exact Hrest]. now intros g' [Hg' _].
    + destruct groups as [| g [| g' rest]]; try exact I. cbn in Hn. lia.
Qed.

(** C8, as the code has it.  The words of a chunk are what the
    separator cuts it into.  In chroma the overlap is measured in
    characters: every chunk after the first starts with the words
    carried over from the previous one, which end it and take, with one
    separator each, at most [chunk_overlap] characters; no word may be
    carried over even when the overlap is positive.  In mongo it is
    measured in words: with a positive overlap every chunk after the
    first starts with between one and [chunk_overlap] words that end
    the previous chunk. *)
Theorem overlap_between_chunks :
  forall chunk_size chunk_overlap separator,
    separator <> "" ->
    (forall doc_id field_path text,
        exists chunks,
          Chroma.field_chunks chunk_size chunk_overlap separator doc_id field_path text
          = Ok chunks
          /\ all_adjacent (chroma_overlaps chunk_overlap separator)
               (map Chroma.text chunks))
    /\ (0 < chunk_overlap ->
        forall text,
        exists chunks,
          Mongo.chunk_text chunk_size chunk_overlap separator text = Ok chunks
          /\ all_adjacent (mongo_overlaps chunk_overlap separator) chunks).
Proof.
  intros chunk_size chunk_overlap separator Hsep. split.
  - intros doc_id field_path text. unfold Chroma.field_chunks.
    rewrite (split_ok _ _ Hsep). cbn [bind]. eexists. split; [reflexivity |].
    destruct (chroma_finish_grouped chunk_size chunk_overlap separator doc_id field_path
                (tokens separator text)) as [groups [-> [Hwords [Hfit Hseed]]]].
    destruct groups as [| g groups]; [exact I |].
    destruct Hseed as [Hfst Hseed]. inversion Hfit as [| ? ? [Hg _] Hrest]; subst.
    cbn [map].
    apply (chroma_seeded_adjacent chunk_overlap separator text Hsep groups g []).
    + rewrite <- Hwords, Hfst. reflexivity.
    + exact Hg.
    + eapply Forall_impl; [| exact Hrest]. now intros g' [Hg' _].
    + exact Hseed.
  - intros Hk text. unfold Mongo.chunk_text.
    rewrite (split_ok _ _ Hsep). cbn [bind]. eexists. split; [reflexivity |].
    now apply mongo_add_overlap_adjacent.
Qed.

Lemma overlap_between_chunks_witness :
  " " <> "" /\ 0 < 1
  /\ (exists chunks,
         Chroma.field_chunks 3 1 " " (VStr "d1") "title" "a b c d e" = Ok chunks
         /\ all_adjacent (chroma_overlaps 1 " ") (map Chroma.text chunks))
  /\ (exists chunks,
         Mongo.chunk_text 3 1 " " "a b c d e" = Ok chunks
         /\ all_adjacent (mongo_overlaps 1 " ") chunks).
Proof.
  assert (H : " " <> "") by discriminate.
  assert (H1 : 0 < 1) by lia.
  destruct (overlap_between_chunks 3 1 " " H) as [Hc Hm].
  split; [exact H |]. split; [exact H1 |]. split; [apply Hc | apply (Hm H1)].
Defined.

(** The two relations tell chunks apart: a chunk that does not start
    with the word chroma carries over, or with a last word of mongo's
    previous chunk, does not continue it. *)
Example overlaps_need_the_carried_words :
  ~ chroma_overlaps 2 " " "a b" "zzz" /\ ~ mongo_overlaps 1 " " "a b c" "b c d".
Proof.
  split.
  - intros [new_words [Ht _]]. vm_compute in Ht. discriminate Ht.
  - intros [ov [new_words [Ht [_ [[q Hq] Hlen]]]]].
    change (tokens " " "b c d") with ["b"; "c"; "d"] in Ht.
    change (tokens " " "a b c") with ["a"; "b"; "c"] in Hq.
    destruct ov as [| o [| o' ov]]; cbn [List.length] in Hlen; try lia.
    cbn [app] in Ht. injection Ht as Ho _.
    assert (Hrev : rev ["a"; "b"; "c"] = rev (q ++ [o])) by now rewrite Hq.
    rewrite rev_app_distr in Hrev. cbn in Hrev. injection Hrev as Ho' _.
    congruence.
Qed.

(** ** chroma: identifiers of the chunks of a field *)

Lemma string_append_cancel (p a b : string) : (p ++ a)%string = (p ++ b)%string -> a = b.
Proof. induction p as [| c p IH]; cbn; intros H; [exact H |]. apply IH. now inversion H. Qed.

Lemma chroma_pack_word_ids chunk_size chunk_overlap separator doc_id field_path st w :
  Forall (fun c => Chroma.id c
                   = Chroma.id (Chroma.create_chunk doc_id "" field_path
                                  (Chroma.chunk_index c)))
         (Chroma.emitted st) ->
  Forall (fun c => Chroma.id c
                   = Chroma.id (Chroma.create_chunk doc_id "" field_path
                                  (Chroma.chunk_index c)))
         (Chroma.emitted
            (Chroma.pack_word chunk_size chunk_overlap separator doc_id field_path st w)).
Proof.
  intros H. unfold Chroma.pack_word. destruct (_ && _)%bool; [| exact H].
  destruct (Chroma.overlap_of _ _ _) as [ow ol]. cbn [Chroma.emitted].
  apply Forall_app. split; [exact H |]. constructor; [reflexivity | constructor].
Qed.

Lemma NoDup_map_injective {A B} (f : A -> B) (l : list A) :
  (forall x y, In x l -> In y l -> f x = f y -> x = y) ->
  NoDup l -> NoDup (map f l).
Proof.
  intros Hinj Hl. induction Hl as [| x l Hx Hl IH]; [constructor |].
  cbn [map]. constructor.
  - intros Hin. apply in_map_iff in Hin. destruct Hin as [y [Hy Hyl]].
    apply Hx. rewrite (Hinj x y); auto; [now left | now right].
  - apply IH. intros a b Ha Hb. apply Hinj; now right.
Qed.

(** X5: the identifiers chroma gives to the chunks of one resolved
    field are pairwise distinct, so a later chunk of the field never
    overwrites an earlier one in the upsert. *)
Theorem chroma_field_chunk_ids_distinct :
  forall chunk_size chunk_overlap separator doc_id field_path text,
    separator <> "" ->
    exists chunks,
      Chroma.field_chunks chunk_size chunk_overlap separator doc_id field_path text
      = Ok chunks
      /\ NoDup (map Chroma.id chunks).
Proof.
  intros chunk_size chunk_overlap separator doc_id field_path text Hsep.
  unfold Chroma.field_chunks. rewrite (split_ok _ _ Hsep). cbn [bind].
  eexists. split; [reflexivity |].
  set (st := fold_left _ _ _).
  pose proof (chroma_field_chunks_indices chunk_size chunk_overlap separator doc_id
                field_path (tokens separator text)) as Hidx. cbv zeta in Hidx.
  fold st in Hidx.
  assert (Hids : Forall (fun c => Chroma.id c
                                  = Chroma.id (Chroma.create_chunk doc_id "" field_path
                                                 (Chroma.chunk_index c)))
                        (Chroma.finish separator doc_id field_path st)).
  { pose proof (fold_left_invariant
                  (fun s => Forall (fun c => Chroma.id c
                                             = Chroma.id (Chroma.create_chunk doc_id ""
                                                            field_path (Chroma.chunk_index c)))
                                   (Chroma.emitted s))
                  (Chroma.pack_word chunk_size chunk_overlap separator doc_id field_path)
                  (fun s a => chroma_pack_word_ids _ _ _ _ _ s a)
                  (tokens separator text)
                  {| Chroma.emitted := []; Chroma.current_chunk := [];
                     Chroma.current_length := 0; Chroma.next_index := 0 |}
                  (Forall_nil _)) as H.
    fold st in H. unfold Chroma.finish. destruct (Chroma.current_chunk st); [exact H |].
    apply Forall_app. split; [exact H |]. constructor; [reflexivity | constructor]. }
  rewrite (map_ext_in Chroma.id
             (fun c => Chroma.id (Chroma.create_chunk doc_id "" field_path
                                    (Chroma.chunk_index c))))
    by (rewrite Forall_forall in Hids; exact Hids).
  rewrite <- (map_map Chroma.chunk_index
                (fun i => Chroma.id (Chroma.create_chunk doc_id "" field_path i))).
  rewrite Hidx, map_map.
  apply NoDup_map_injective; [| apply seq_NoDup].
  intros x y _ _ Hxy. unfold Chroma.create_chunk in Hxy. cbn [Chroma.id] in Hxy.
  repeat apply string_append_cancel in Hxy.
  apply str_of_Z_inj in Hxy. lia.
Qed.

Lemma chroma_field_chunk_ids_distinct_witness :
  " " <> ""
  /\ exists chunks,
       Chroma.field_chunks 3 1 " " (VStr "d1") "title" "a b a b a b" = Ok chunks
       /\ NoDup (map Chroma.id chunks).
Proof.
  assert (H : " " <> "") by discriminate.
  split; [exact H |].
  exact (chroma_field_chunk_ids_distinct 3 1 " " (VStr "d1") "title" "a b a b a b" H).
Defined.

(** ** chroma: patterns without a wildcard *)

Lemma no_wildcard_cons part rest :
  no_wildcard (part :: rest) = true -> String.eqb part "*" = false /\ no_wildcard rest = true.
Proof.
  unfold no_wildcard. cbn [forallb]. intros H. apply andb_true_iff in H.
  destruct H as [Hp Hr]. split; [now apply negb_true_iff | exact Hr].
Qed.

Lemma nonempty_true (s : string) : s <> "" -> nonempty s = true.
Proof. intros H. unfold nonempty. now destruct (String.eqb_spec s ""). Qed.

Lemma append_nonempty (a b : string) : a <> "" -> (a ++ b)%string <> "".
Proof. destruct a; [congruence | discriminate]. Qed.

Lemma chroma_plain_path_resolves_once separator :
  forall parts obj current_path,
    no_wildcard parts = true ->
    parts <> [] ->
    current_path <> "" \/ hd "" parts <> "" ->
    Chroma.extract_field_value separator parts obj current_path = []
    \/ exists text,
        Chroma.extract_field_value separator parts obj current_path
        = [(chroma_label current_path parts, text)].
Proof.
  induction parts as [| part rest IH]; intros obj cp Hw Hne Hcp; [congruence |].
  apply no_wildcard_cons in Hw. destruct Hw as [Hp Hw].
  cbn [Chroma.extract_field_value]. rewrite Hp. cbn [andb].
  destruct obj as [| | | | | d]; try (now left).
  assert (Hlabel : Chroma.dotted cp part <> "").
  { unfold Chroma.dotted. destruct (String.eqb_spec cp "") as [-> | Hc].
    - cbn. destruct Hcp as [Hc | Hc]; [congruence | exact Hc].
    - rewrite (nonempty_true _ Hc). now apply append_nonempty. }
  destruct rest as [| part' rest'].
  - assert (Hl : chroma_label cp [part] = Chroma.dotted cp part) by reflexivity.
    rewrite Hl. destruct (lookup part d) as [[| | | s | vs |] |]; eauto.
  - destruct (lookup part d) as [v |]; [| now left].
    destruct (IH v (Chroma.dotted cp part) Hw ltac:(discriminate) (or_introl Hlabel))
      as [H | [text H]]; [now left |].
    right. exists text. rewrite H. f_equal. f_equal.
    unfold chroma_label. rewrite (nonempty_true _ Hlabel).
    rewrite (join_cons "." part (part' :: rest')) by discriminate.
    unfold Chroma.dotted. destruct (nonempty cp); [| reflexivity].
    now rewrite !string_append_assoc.
Qed.

(** X6: in chroma a pattern without a wildcard (and not starting with
    a dot) resolves to at most one field, and that field is labelled
    with the pattern itself. *)
Theorem chroma_plain_pattern_label :
  forall separator pattern document,
    no_wildcard (tokens "." pattern) = true ->
    hd "" (tokens "." pattern) <> "" ->
    Chroma.extract_field_value separator (tokens "." pattern) (VDict document) "" = []
    \/ exists text,
        Chroma.extract_field_value separator (tokens "." pattern) (VDict document) ""
        = [(pattern, text)].
Proof.
  intros separator pattern document Hw Hhd.
  destruct (chroma_plain_path_resolves_once separator (tokens "." pattern)
              (VDict document) "" Hw (tokens_nonempty _ _) (or_intror Hhd))
    as [H | [text H]]; [now left |].
  right. exists text. rewrite H. unfold chroma_label. cbn [nonempty String.eqb negb].
  now rewrite join_tokens_dot.
Qed.

Lemma chroma_plain_pattern_label_witness :
  Chroma.extract_field_value " " (tokens "." "meta.author") nested_doc "" = []
  \/ exists text,
      Chroma.extract_field_value " " (tokens "." "meta.author") nested_doc ""
      = [("meta.author", text)].
Proof.
  apply (chroma_plain_pattern_label " " "meta.author"
           [("id", VStr "d1"); ("title", VStr "hello");
            ("meta", VDict [("author", VStr "Ann")])]).
  - reflexivity.
  - discriminate.
Defined.

(** ** chroma: what [ingest_document] raises *)

Lemma for_each_ok_or_value_error {A S} (body : S -> A -> res S) (l : list A) :
  (forall st x, (exists st', body st x = Ok st') \/ body st x = Raise ValueError) ->
  forall st, (exists st', for_each body l st = Ok st')
             \/ for_each body l st = Raise ValueError.
Proof.
  intros Hbody. induction l as [| x l IH]; intros st; cbn [for_each]; [eauto |].
  destruct (Hbody st x) as [[st' ->] | ->]; cbn [bind]; [apply IH | now right].
Qed.

Lemma chroma_field_chunks_ok_or_value_error chunk_size chunk_overlap separator
    doc_id field_path text :
  (exists chunks,
      Chroma.field_chunks chunk_size chunk_overlap separator doc_id field_path text
      = Ok chunks)
  \/ Chroma.field_chunks chunk_size chunk_overlap separator doc_id field_path text
     = Raise ValueError.
Proof.
  unfold Chroma.field_chunks, split. destruct (String.eqb separator ""); cbn [bind]; eauto.
Qed.

(** X7: chroma's [ingest_document] raises [KeyError] exactly when the
    document has no "id" entry; otherwise it returns, except that an
    empty separator may raise [ValueError]. *)
Theorem chroma_ingest_outcomes :
  forall chunk_size chunk_overlap separator document fields,
    match Chroma.ingest_document chunk_size chunk_overlap separator document fields with
    | Ok _ => lookup "id" document <> None
    | Raise KeyError => lookup "id" document = None
    | Raise ValueError => lookup "id" document <> None /\ separator = ""
    | Raise _ => False
    | Unfinished => False
    end.
Proof.
  intros chunk_size chunk_overlap separator document fields.
  unfold Chroma.ingest_document.
  destruct (lookup "id" document) as [doc_id |] eqn:Hid; [| reflexivity].
  destruct (String.eqb_spec separator "") as [Hsep | Hsep].
  - match goal with
    | |- match ?r with _ => _ end =>
        assert (H : (exists st', r = Ok st') \/ r = Raise ValueError)
    end.
    { apply for_each_ok_or_value_error. intros st field_pattern.
      apply for_each_ok_or_value_error. intros st' [field_path text]. cbn [fst snd].
      destruct (chroma_field_chunks_ok_or_value_error chunk_size chunk_overlap separator
                  doc_id field_path text) as [[cs ->] | ->]; cbn [bind]; eauto. }
    destruct H as [[st' ->] | ->]; [discriminate | split; [discriminate | exact Hsep]].
  - destruct (chroma_ingest_returns chunk_size chunk_overlap separator document fields
                doc_id Hsep Hid) as [chunks H].
    unfold Chroma.ingest_document in H. rewrite Hid in H. rewrite H. discriminate.
Qed.

(** ** The records of a list of fields *)

Lemma for_each_appending {A B} (f : A -> res (list B)) (l : list A) :
  forall st,
    for_each (fun acc x => ops <- f x ;; Ok (acc ++ ops)%list) l st
    = (r <- for_each (fun acc x => ops <- f x ;; Ok (acc ++ ops)%list) l [] ;;
       Ok (st ++ r)%list).
Proof.
  induction l as [| x l IH]; intros st; cbn [for_each bind].
  - now rewrite app_nil_r.
  - destruct (f x) as [ops | e |]; cbn [bind]; try reflexivity.
    rewrite (IH (st ++ ops)%list), (IH ([] ++ ops)%list). cbn [app].
    destruct (for_each _ l []); cbn [bind]; try reflexivity.
    now rewrite app_assoc.
Qed.

Lemma for_each_app {A S} (body : S -> A -> res S) (l1 l2 : list A) :
  forall st, for_each body (l1 ++ l2) st = (st' <- for_each body l1 st ;; for_each body l2 st').
Proof.
  induction l1 as [| x l1 IH]; intros st; cbn [app for_each bind]; [reflexivity |].
  destruct (body st x); cbn [bind]; auto.
Qed.

(** X8: in mongo the operations of a list of fields are those of its
    first part followed by those of the rest, and the call fails as
    soon as one part does: fields are handled one after the other and
    independently. *)
Theorem mongo_ingest_of_appended_fields :
  forall (E : Type) chunk_size chunk_overlap separator (model : option (string -> E))
         document fields1 fields2,
    Mongo.ingest_document chunk_size chunk_overlap separator model document
      (fields1 ++ fields2)
    = (ops1 <- Mongo.ingest_document chunk_size chunk_overlap separator model document
                 fields1 ;;
       ops2 <- Mongo.ingest_document chunk_size chunk_overlap separator model document
                 fields2 ;;
       Ok (ops1 ++ ops2)%list).
Proof.
  intros E chunk_size chunk_overlap separator model document fields1 fields2.
  unfold Mongo.ingest_document. rewrite for_each_app.
  destruct (for_each _ fields1 []) as [ops1 | e |]; cbn [bind]; try reflexivity.
  apply (for_each_appending
           (Mongo.field_operations chunk_size chunk_overlap separator model document)).
Qed.

(** ** Plain paths: the resolvers agree *)

Lemma lookup_nonempty part (d : list (string * value)) v :
  lookup part d = Some v -> truthy (VDict d) = true.
Proof. destruct d; [discriminate | reflexivity]. Qed.

Lemma mongo_plain_path parts :
  forall v found,
    no_wildcard parts = true ->
    lookup_path v parts = Some found ->
    Mongo.extract_field_content v parts = if truthy found then str found else "".
Proof.
  induction parts as [| part rest IH]; intros v found Hw Hl.
  - cbn in Hl. inversion Hl. reflexivity.
  - apply no_wildcard_cons in Hw. destruct Hw as [Hp Hw].
    cbn [lookup_path] in Hl. destruct v as [| | | | | d]; try discriminate Hl.
    destruct (lookup part d) as [v' |] eqn:Hv; [| discriminate Hl].
    cbn [Mongo.extract_field_content]. rewrite (lookup_nonempty _ _ _ Hv), Hp.
    cbn [negb]. unfold Mongo.get_or_empty. rewrite Hv. now apply IH.
Qed.

Lemma langchain_plain_path parts :
  forall v found current_path,
    no_wildcard parts = true ->
    lookup_path v parts = Some found ->
    Langchain.extract_field_value parts v current_path = [str found].
Proof.
  induction parts as [| part rest IH]; intros v found cp Hw Hl.
  - cbn in Hl. inversion Hl. reflexivity.
  - apply no_wildcard_cons in Hw. destruct Hw as [Hp Hw].
    cbn [lookup_path] in Hl. destruct v as [| | | | | d]; try discriminate Hl.
    destruct (lookup part d) as [v' |] eqn:Hv; [| discriminate Hl].
    cbn [Langchain.extract_field_value]. rewrite Hp, Hv. now apply IH.
Qed.

Lemma pgvector_plain_walk (recurse : value -> res value) parts :
  forall v,
    no_wildcard parts = true ->
    PgVector.walk recurse parts v
    = Ok (match lookup_path v parts with Some found => found | None => VNone end).
Proof.
  induction parts as [| part rest IH]; intros v Hw; [reflexivity |].
  apply no_wildcard_cons in Hw. destruct Hw as [Hp Hw].
  cbn [PgVector.walk lookup_path]. rewrite Hp.
  destruct v as [| | | | | d]; try reflexivity.
  destruct (lookup part d) as [v' |]; [now apply IH | reflexivity].
Qed.

Lemma pinecone_plain_walk (recurse : value -> res value) parts :
  forall v found,
    no_wildcard parts = true ->
    lookup_path v parts = Some found ->
    Pinecone.walk recurse parts v = Ok found.
Proof.
  induction parts as [| part rest IH]; intros v found Hw Hl.
  - cbn in Hl. inversion Hl. reflexivity.
  - apply no_wildcard_cons in Hw. destruct Hw as [Hp Hw].
    cbn [lookup_path] in Hl. destruct v as [| | | | | d]; try discriminate Hl.
    destruct (lookup part d) as [v' |] eqn:Hv; [| discriminate Hl].
    cbn [Pinecone.walk]. rewrite Hp, Hv. cbn [andb]. now apply IH.
Qed.

Lemma chroma_plain_path separator parts :
  forall v s current_path,
    no_wildcard parts = true ->
    parts <> [] ->
    lookup_path v parts = Some (VStr s) ->
    exists label, Chroma.extract_field_value separator parts v current_path = [(label, s)].
Proof.
  induction parts as [| part rest IH]; intros v s cp Hw Hne Hl; [congruence |].
  apply no_wildcard_cons in Hw. destruct Hw as [Hp Hw].
  cbn [lookup_path] in Hl. destruct v as [| | | | | d]; try discriminate Hl.
  destruct (lookup part d) as [v' |] eqn:Hv; [| discriminate Hl].
  cbn [Chroma.extract_field_value]. rewrite Hp, Hv. cbn [andb].
  destruct rest as [| part' rest'].
  - cbn in Hl. inversion Hl. subst v'. eauto.
  - now apply IH.
Qed.

(** X9: on a pattern without a wildcard that leads through nested
    mappings to a text, the resolvers of mongo, langchain, pgvector,
    pinecone and chroma all find that text, and nothing else. *)
Theorem plain_path_found_by_all :
  forall separator document pattern s,
    no_wildcard (tokens "." pattern) = true ->
    lookup_path (VDict document) (tokens "." pattern) = Some (VStr s) ->
    Mongo.extract_field_content (VDict document) (tokens "." pattern) = s
    /\ Langchain.extract_field_value (tokens "." pattern) (VDict document) [] = [s]
    /\ PgVector.get_field_value (VDict document) pattern = Ok (VStr s)
    /\ Pinecone.get_nested_value (VDict document) pattern = Ok (VStr s)
    /\ exists label,
         Chroma.extract_field_value separator (tokens "." pattern) (VDict document) ""
         = [(label, s)].
Proof.
  intros separator document pattern s Hw Hl. split; [| split; [| split; [| split]]].
  - rewrite (mongo_plain_path _ _ _ Hw Hl). cbn [truthy str].
    now destruct (String.eqb_spec s "") as [-> |].
  - now rewrite (langchain_plain_path _ _ _ [] Hw Hl).
  - unfold PgVector.get_field_value. cbn [PgVector.get_field_value_fuel].
    now rewrite pgvector_plain_walk, Hl.
  - unfold Pinecone.get_nested_value. cbn [Pinecone.get_nested_value_fuel].
    now apply pinecone_plain_walk.
  - apply chroma_plain_path; [exact Hw | apply tokens_nonempty | exact Hl].
Qed.

Lemma plain_path_found_by_all_witness :
  Mongo.extract_field_content nested_doc (tokens "." "meta.author") = "Ann"
  /\ Langchain.extract_field_value (tokens "." "meta.author") nested_doc [] = ["Ann"]
  /\ PgVector.get_field_value nested_doc "meta.author" = Ok (VStr "Ann")
  /\ Pinecone.get_nested_value nested_doc "meta.author" = Ok (VStr "Ann")
  /\ exists label,
       Chroma.extract_field_value " " (tokens "." "meta.author") nested_doc ""
       = [(label, "Ann")].
Proof.
  apply (plain_path_found_by_all " "
           [("id", VStr "d1"); ("title", VStr "hello");
            ("meta", VDict [("author", VStr "Ann")])] "meta.author" "Ann");
    reflexivity.
Defined.

(** ** pgvector: texts that fit, and first words that do not *)

(** X10: pgvector's [create_chunks] returns a text that has at most
    [chunk_size] characters as its only chunk, unchanged. *)
Theorem pgvector_text_that_fits :
  forall chunk_size chunk_overlap separator fuel text,
    separator <> "" ->
    len text <= chunk_size ->
    PgVector.create_chunks chunk_size chunk_overlap separator (S fuel) text = Ok [text].
Proof.
  intros chunk_size chunk_overlap separator fuel text Hsep Hfit.
  unfold PgVector.create_chunks. rewrite (split_ok _ _ Hsep). cbn [bind].
  cbn [PgVector.create_chunks_loop].
  pose proof (tokens_nonempty separator text) as Hne.
  destruct (Z.ltb_spec 0 (Z.of_nat (List.length (tokens separator text)))) as [_ | Hl].
  - unfold slice_from, clamp_index. cbn [Z.ltb Z.compare].
    replace (Z.to_nat (Z.min 0 (Z.of_nat (List.length (tokens separator text)))))
      with 0%nat by lia.
    cbn [skipn]. rewrite (join_tokens _ _ Hsep).
    destruct (Z.leb_spec (len text) chunk_size); [reflexivity | lia].
  - destruct (tokens separator text); [congruence | cbn in Hl; lia].
Qed.

Lemma pgvector_text_that_fits_witness :
  " " <> "" /\ len "a b c" <= 512
  /\ PgVector.create_chunks 512 50 " " 1 "a b c" = Ok ["a b c"].
Proof.
  assert (H : " " <> "") by discriminate.
  assert (H0 : len "a b c" <= 512) by (vm_compute; discriminate).
  split; [exact H |]. split; [exact H0 |].
  exact (pgvector_text_that_fits 512 50 " " 0 "a b c" H H0).
Defined.

Lemma len_join_first separator (w : string) (ws : list string) :
  len w <= len (join separator (w :: ws)).
Proof.
  destruct ws as [| w' ws]; [cbn; lia |].
  rewrite join_cons by discriminate. rewrite !len_append.
  pose proof (len_nonneg separator). pose proof (len_nonneg (join separator (w' :: ws))).
  lia.
Qed.

(** X11: pgvector's [create_chunks] does not return when the first
    token of the text is longer than [chunk_size] and the overlap is
    below [2^53] in absolute value (so that the float division of line
    126 returns): no word is taken, [start] stays where it is and an
    empty chunk is appended at every turn of the loop. *)
Theorem pgvector_long_first_token_hangs :
  forall chunk_size chunk_overlap separator text,
    separator <> "" ->
    Z.abs chunk_overlap < 2 ^ 53 ->
    chunk_size < len (hd "" (tokens separator text)) ->
    forall fuel,
      PgVector.create_chunks chunk_size chunk_overlap separator fuel text = Unfinished.
Proof.
  intros chunk_size chunk_overlap separator text Hsep Hov Hlong fuel.
  unfold PgVector.create_chunks. rewrite (split_ok _ _ Hsep). cbn [bind].
  destruct (tokens separator text) as [| w ws] eqn:Hw;
    [now pose proof (tokens_nonempty separator text) |].
  cbn [hd] in Hlong.
  assert (Hfrom : slice_from (w :: ws) 0 = w :: ws).
  { unfold slice_from, clamp_index. cbn [Z.ltb Z.compare].
    replace (Z.to_nat (Z.min 0 (Z.of_nat (List.length (w :: ws))))) with 0%nat by lia.
    reflexivity. }
  apply pgvector_loop_stuck.
  - exact Hsep.
  - exact Hov.
  - cbn [List.length]. lia.
  - rewrite Hfrom. pose proof (len_join_first separator w ws). lia.
  - rewrite Hfrom. cbn [PgVector.scan_end]. cbn [Z.gtb Z.compare].
    destruct (Z.leb_spec (0 + (len w + 0)) chunk_size); lia.
Qed.

(** With an overlap beyond the floats the division raises instead. *)
Example pgvector_overlap_beyond_floats :
  PgVector.create_chunks 3 (10 ^ 400) " " 1 "hello world" = Raise OverflowError.
Proof. vm_compute. reflexivity. Qed.

Lemma pgvector_long_first_token_hangs_witness :
  " " <> "" /\ Z.abs 1 < 2 ^ 53 /\ 3 < len (hd "" (tokens " " "hello world"))
  /\ forall fuel, PgVector.create_chunks 3 1 " " fuel "hello world" = Unfinished.
Proof.
  assert (H : " " <> "") by discriminate.
  assert (H1 : Z.abs 1 < 2 ^ 53) by (vm_compute; reflexivity).
  assert (H0 : 3 < len (hd "" (tokens " " "hello world"))) by (vm_compute; reflexivity).
  split; [exact H |]. split; [exact H1 |]. split; [exact H0 |].
  exact (pgvector_long_first_token_hangs 3 1 " " "hello world" H H1 H0).
Defined.

(** ** pinecone: when [create_chunks] returns, and with how many chunks *)

Lemma pinecone_loop_count separator words chunk_words overlap_words :
  overlap_words < chunk_words ->
  forall fuel start chunks,
    Z.of_nat (List.length words) - start <= Z.of_nat fuel ->
    exists r,
      Pinecone.create_chunks_loop separator (S fuel) words chunk_words overlap_words
        start chunks = Ok r
      /\ Z.of_nat (List.length r)
         = Z.of_nat (List.length chunks)
           + Z.max 0 ((Z.of_nat (List.length words) - start
                       + (chunk_words - overlap_words) - 1)
                      / (chunk_words - overlap_words)).
Proof.
  intros Hstep fuel. set (n := Z.of_nat (List.length words)).
  set (s := chunk_words - overlap_words). assert (Hs : 0 < s) by (unfold s; lia).
  assert (Hdone : forall start, n <= start -> Z.max 0 ((n - start + s - 1) / s) = 0).
  { intros start Hge. apply Z.max_l.
    assert ((n - start + s - 1) / s < 1) by (apply Z.div_lt_upper_bound; lia). lia. }
  induction fuel as [| fuel IH]; intros start chunks Hfuel;
    cbn [Pinecone.create_chunks_loop]; fold n;
    destruct (Z.ltb_spec start n) as [Hlt | Hge].
  - lia.
  - exists chunks. split; [reflexivity |]. rewrite Hdone by lia. lia.
  - destruct (IH (start + chunk_words - overlap_words)
                (chunks ++ [join separator (slice words start (start + chunk_words))])%list)
      as [r [Hr Hlen]]; [fold n; lia |].
    exists r. split; [exact Hr |]. rewrite Hlen, length_app. cbn [List.length].
    fold n. fold s.
    replace (n - (start + chunk_words - overlap_words) + s - 1) with (n - start - 1)
      by (unfold s; lia).
    replace (n - start + s - 1) with (n - start - 1 + 1 * s) by lia.
    rewrite Z.div_add by lia.
    assert (0 <= (n - start - 1) / s) by (apply Z.div_pos; lia).
    lia.
  - exists chunks. split; [reflexivity |]. rewrite Hdone by lia. lia.
Qed.

(** X12: on a non-empty text pinecone's [create_chunks] returns exactly
    when a chunk holds more words than the overlap (both counted as
    size // (len(separator) + 1)); it then makes one chunk for every
    step of (chunk words - overlap words) words, and otherwise the loop
    never ends. *)
Theorem pinecone_create_chunks_returns_iff :
  forall chunk_size chunk_overlap separator text,
    separator <> "" ->
    text <> "" ->
    (chunk_overlap / (len separator + 1) < chunk_size / (len separator + 1) ->
     forall fuel,
       (List.length (tokens separator text) <= fuel)%nat ->
       exists chunks,
         Pinecone.create_chunks chunk_size chunk_overlap separator (S fuel) text = Ok chunks
         /\ Z.of_nat (List.length chunks)
            = (Z.of_nat (List.length (tokens separator text))
               + (chunk_size / (len separator + 1) - chunk_overlap / (len separator + 1))
               - 1)
              / (chunk_size / (len separator + 1) - chunk_overlap / (len separator + 1)))
    /\ (chunk_size / (len separator + 1) <= chunk_overlap / (len separator + 1) ->
        forall fuel,
          Pinecone.create_chunks chunk_size chunk_overlap separator fuel text = Unfinished).
Proof.
  intros chunk_size chunk_overlap separator text Hsep Htext.
  pose proof (tokens_nonempty separator text) as Hne.
  assert (Hn : (0 < List.length (tokens separator text))%nat)
    by (destruct (tokens separator text); [congruence | cbn; lia]).
  unfold Pinecone.create_chunks. rewrite (nonempty_true _ Htext). cbn [negb].
  rewrite (split_ok _ _ Hsep). cbn [bind].
  destruct (tokens separator text) as [| w ws] eqn:Hw; [congruence |].
  split.
  - intros Hstep fuel Hfuel.
    destruct (pinecone_loop_count separator (w :: ws) _ _ Hstep fuel 0 [])
      as [r [Hr Hlen]]; [lia |].
    exists r. split; [exact Hr |]. rewrite Hlen.
    change (Z.of_nat (List.length (@nil string))) with 0.
    rewrite Z.add_0_l, Z.sub_0_r. apply Z.max_r. apply Z.div_pos; lia.
  - intros Hstep fuel. apply pinecone_loop_stuck; [exact Hstep | cbn; lia].
Qed.

Lemma pinecone_create_chunks_returns_iff_witness :
  " " <> "" /\ "a b c d e" <> ""
  /\ exists chunks,
       Pinecone.create_chunks 6 2 " " 6 "a b c d e" = Ok chunks
       /\ Z.of_nat (List.length chunks) = 3.
Proof.
  assert (H : " " <> "") by discriminate.
  assert (H0 : "a b c d e" <> "") by discriminate.
  split; [exact H |]. split; [exact H0 |].
  destruct (pinecone_create_chunks_returns_iff 6 2 " " "a b c d e" H H0) as [Hr _].
  destruct (Hr ltac:(vm_compute; reflexivity) 5%nat ltac:(vm_compute; lia))
    as [chunks [Hc Hl]].
  exists chunks. split; [exact Hc |]. rewrite Hl. reflexivity.
Defined.

(** ** pinecone: the batches that are upserted *)

Lemma pinecone_batches_spec {E} :
  forall n (vectors : list (Pinecone.vector (E := E))),
    (List.length vectors <= n)%nat ->
    List.concat (Pinecone.batches n vectors) = vectors
    /\ Forall (fun b => b <> [] /\ (List.length b <= 100)%nat) (Pinecone.batches n vectors).
Proof.
  induction n as [| n IH]; intros vectors Hlen.
  - destruct vectors; [split; [reflexivity | constructor] | cbn in Hlen; lia].
  - cbn [Pinecone.batches]. destruct vectors as [| v vs]; [split; [reflexivity | constructor] |].
    destruct (IH (skipn 100 (v :: vs))) as [Hc Hf].
    { rewrite length_skipn. cbn [List.length] in *. lia. }
    split.
    + cbn [List.concat]. rewrite Hc. apply firstn_skipn.
    + constructor; [| exact Hf]. split; [discriminate |].
      rewrite length_firstn. lia.
Qed.

(** X13: what pinecone's [ingest_document] upserts is what it
    collected: the batches, put end to end, are the collected vectors,
    each once and in order, and no batch is empty or holds more than
    100 vectors. *)
Theorem pinecone_upserts_all_vectors :
  forall (E : Type) chunk_size chunk_overlap separator (model : option (string -> E))
         fuel document fields vectors,
    Pinecone.collect_vectors chunk_size chunk_overlap separator model fuel document fields
    = Ok vectors ->
    exists calls,
      Pinecone.ingest_document chunk_size chunk_overlap separator model fuel document fields
      = Ok calls
      /\ List.concat calls = vectors
      /\ Forall (fun b => b <> [] /\ (List.length b <= 100)%nat) calls.
Proof.
  intros E chunk_size chunk_overlap separator model fuel document fields vectors Hc.
  unfold Pinecone.ingest_document. rewrite Hc. cbn [bind].
  eexists. split; [reflexivity |].
  apply pinecone_batches_spec. lia.
Qed.

Lemma pinecone_upserts_all_vectors_witness :
  exists calls,
    Pinecone.ingest_document 6 2 " " (Some (fun _ : string => tt)) 6 title_doc ["title"]
    = Ok calls
    /\ List.concat calls
       = map (Pinecone.make_vector (fun _ : string => tt) "d1" "title")
             [(0, "a b c"); (1, "c d e"); (2, "e")]
    /\ Forall (fun b => b <> [] /\ (List.length b <= 100)%nat) calls.
Proof.
  apply (pinecone_upserts_all_vectors unit 6 2 " " (Some (fun _ : string => tt)) 6
           title_doc ["title"]).
  reflexivity.
Defined.

(** ** capybaradb: fields at the top of the document *)

Section CapybaraTopLevel.

Context {M : Type}.
Variables (chunk_size chunk_overlap : Z) (separator : string) (model : option M).
Variable emb_text_valid : Capybara.emb_text (M := M) -> bool.

Lemma capybara_text_field_run h0 a entries k s :
  Capybara.deref h0 a = Some (Capybara.ODict entries) ->
  tokens "." k = [k] ->
  Capybara.hlookup k entries = Some (Capybara.HStr s) ->
  emb_text_valid (Capybara.emb_text_args chunk_size chunk_overlap separator model s)
  = true ->
  Capybara.ingest_document chunk_size chunk_overlap separator model emb_text_valid
    (Capybara.HRef a) [k] h0
  = Ok (Capybara.HRef (List.length h0),
        (h0 ++ [Capybara.ODict
                  (Capybara.assign k
                     (Capybara.HEmb
                        (Capybara.emb_text_args chunk_size chunk_overlap separator model s))
                     entries)])%list).
Proof.
  intros Hdoc Hk Hs Hvalid. unfold Capybara.ingest_document, Capybara.copy.
  rewrite Hdoc. cbn [bind Capybara.new_object for_each].
  unfold Capybara.process_field. cbn [Capybara.process_field_fuel].
  rewrite Hk. cbn [Capybara.walk].
  unfold Capybara.list_items. rewrite capybara_deref_last.
  replace (if String.eqb k "*" then @None (list Capybara.hval) else None)
    with (@None (list (Capybara.hval (M := M)))) by (now destruct (String.eqb k "*")).
  unfold Capybara.contains. rewrite capybara_deref_last, Hs. cbn [bind].
  unfold Capybara.getitem. rewrite capybara_deref_last, Hs. cbn [bind].
  unfold Capybara.make_emb_text. cbv zeta. rewrite Hvalid. cbn [bind].
  unfold Capybara.setitem. rewrite capybara_deref_last. cbn [bind].
  now rewrite capybara_store_last.
Qed.

End CapybaraTopLevel.

(** X14: for fields without a dot, each naming no text or a text that
    the [EmbText] constructor accepts, capybaradb's [ingest_document]
    works on its copy only: it returns, the copy is a new object, and
    every object that was in the store before the call (the caller's
    document and all it refers to) is as it was. *)
Theorem capybara_plain_fields_spare_caller :
  forall (M : Type) chunk_size chunk_overlap separator (model : option M)
         (emb_text_valid : Capybara.emb_text -> bool)
         (h0 : Capybara.heap) a entries fields,
    Capybara.deref h0 a = Some (Capybara.ODict entries) ->
    Forall (fun field => tokens "." field = [field]) fields ->
    Forall (fun field =>
              match Capybara.hlookup field entries with
              | Some (Capybara.HStr s) =>
                  emb_text_valid
                    (Capybara.emb_text_args chunk_size chunk_overlap separator model s)
                  = true
              | _ => True
              end) fields ->
    exists h',
      Capybara.ingest_document chunk_size chunk_overlap separator model emb_text_valid
        (Capybara.HRef a) fields h0 = Ok (Capybara.HRef (List.length h0), h')
      /\ List.length h' = S (List.length h0)
      /\ forall b, (b < List.length h0)%nat -> Capybara.deref h' b = Capybara.deref h0 b.
Proof.
  intros M chunk_size chunk_overlap separator model emb_text_valid h0 a entries fields
         Hdoc Hfields Hvalid.
  destruct (capybara_top_level_fields_keep_document chunk_size chunk_overlap separator
              model emb_text_valid h0 a entries fields Hdoc Hfields Hvalid)
    as [h' [Hrun [Hlen [Hold _]]]].
  exists h'. split; [exact Hrun |]. split; [exact Hlen | exact Hold].
Qed.

Lemma capybara_plain_fields_spare_caller_witness :
  exists h',
    Capybara.ingest_document 512 50 " " (Some "text-embedding-3-small")
      accepts_with_model (Capybara.HRef 1)
      ["title"; "body"; "meta"] (snd (Capybara.load nested_doc []))
    = Ok (Capybara.HRef 2, h')
    /\ List.length h' = 3%nat
    /\ forall b, (b < 2)%nat ->
                 Capybara.deref h' b = Capybara.deref (snd (Capybara.load nested_doc [])) b.
Proof.
  apply (capybara_plain_fields_spare_caller string 512 50 " "
           (Some "text-embedding-3-small") accepts_with_model
           (snd (Capybara.load nested_doc [])) 1
           [("id", Capybara.HStr "d1"); ("title", Capybara.HStr "hello");
            ("meta", Capybara.HRef 0)]).
  - reflexivity.
  - repeat constructor.
  - repeat constructor.
Defined.

(** X15: a top-level text field that the [EmbText] constructor accepts
    is replaced, in the copy that capybaradb inserts, by an [EmbText]
    object holding the same text and the chunking parameters of the
    call; the other entries of the copy, and the order of its keys, are
    those of the document. *)
Theorem capybara_text_field_becomes_emb_text :
  forall (M : Type) chunk_size chunk_overlap separator (model : option M)
         (emb_text_valid : Capybara.emb_text -> bool)
         (h0 : Capybara.heap) a entries k s,
    Capybara.deref h0 a = Some (Capybara.ODict entries) ->
    tokens "." k = [k] ->
    Capybara.hlookup k entries = Some (Capybara.HStr s) ->
    emb_text_valid (Capybara.emb_text_args chunk_size chunk_overlap separator model s)
    = true ->
    exists entries',
      Capybara.ingest_document chunk_size chunk_overlap separator model emb_text_valid
        (Capybara.HRef a) [k] h0
      = Ok (Capybara.HRef (List.length h0), (h0 ++ [Capybara.ODict entries'])%list)
      /\ Capybara.hlookup k entries'
         = Some (Capybara.HEmb
                   {| Capybara.et_text := s;
                      Capybara.emb_model := model;
                      Capybara.max_chunk_size := chunk_size;
                      Capybara.et_chunk_overlap := chunk_overlap;
                      Capybara.separators := [separator];
                      Capybara.is_separator_regex := false;
                      Capybara.keep_separator := true |})
      /\ (forall k', k' <> k -> Capybara.hlookup k' entries' = Capybara.hlookup k' entries)
      /\ map fst entries' = map fst entries.
Proof.
  intros M chunk_size chunk_overlap separator model emb_text_valid h0 a entries k s
         Hdoc Hk Hs Hvalid.
  eexists.
  split; [exact (capybara_text_field_run chunk_size chunk_overlap separator model
                   emb_text_valid h0 a entries k s Hdoc Hk Hs Hvalid) |].
  split; [| split].
  - apply capybara_hlookup_assign_same.
  - intros k' Hne. now apply capybara_hlookup_assign_other.
  - now apply capybara_assign_keys with (Capybara.HStr s).
Qed.

Lemma capybara_text_field_becomes_emb_text_witness :
  exists entries',
    Capybara.ingest_document 100 20 " " (Some "text-embedding-3-small")
      accepts_with_model (Capybara.HRef 1) ["title"]
      (snd (Capybara.load nested_doc []))
    = Ok (Capybara.HRef 2,
          (snd (Capybara.load nested_doc []) ++ [Capybara.ODict entries'])%list)
    /\ Capybara.hlookup "title" entries'
       = Some (Capybara.HEmb
                 {| Capybara.et_text := "hello";
                    Capybara.emb_model := Some "text-embedding-3-small";
                    Capybara.max_chunk_size := 100;
                    Capybara.et_chunk_overlap := 20;
                    Capybara.separators := [" "];
                    Capybara.is_separator_regex := false;
                    Capybara.keep_separator := true |})
    /\ (forall k', k' <> "title" ->
                   Capybara.hlookup k' entries'
                   = Capybara.hlookup k'
                       [("id", Capybara.HStr "d1"); ("title", Capybara.HStr "hello");
                        ("meta", Capybara.HRef 0)])
    /\ map fst entries' = ["id"; "title"; "meta"].
Proof.
  apply (capybara_text_field_becomes_emb_text string 100 20 " "
           (Some "text-embedding-3-small") accepts_with_model
           (snd (Capybara.load nested_doc [])) 1
           [("id", Capybara.HStr "d1"); ("title", Capybara.HStr "hello");
            ("meta", Capybara.HRef 0)] "title" "hello"); reflexivity.
Defined.

(** X16: a dotted path that goes through a number, a boolean or null
    makes capybaradb's [ingest_document] raise [TypeError] (the
    membership test [part in current] is made on the scalar); such a
    field is not skipped. *)
Theorem capybara_path_through_scalar_raises :
  forall (M : Type) chunk_size chunk_overlap separator (model : option M)
         (emb_text_valid : Capybara.emb_text -> bool)
         (h0 : Capybara.heap) a entries field k part v,
    Capybara.deref h0 a = Some (Capybara.ODict entries) ->
    tokens "." field = [k; part] ->
    Capybara.hlookup k entries = Some v ->
    (v = Capybara.HNone \/ (exists b, v = Capybara.HBool b) \/ (exists z, v = Capybara.HInt z)) ->
    Capybara.ingest_document chunk_size chunk_overlap separator model emb_text_valid
      (Capybara.HRef a) [field] h0 = Raise TypeError.
Proof.
  intros M chunk_size chunk_overlap separator model emb_text_valid h0 a entries field
         k part v Hdoc Hf Hk Hv.
  unfold Capybara.ingest_document, Capybara.copy.
  rewrite Hdoc. cbn [bind Capybara.new_object for_each].
  unfold Capybara.process_field. cbn [Capybara.process_field_fuel].
  rewrite Hf. cbn [Capybara.walk].
  unfold Capybara.list_items at 1. rewrite capybara_deref_last.
  replace (if String.eqb k "*" then @None (list Capybara.hval) else None)
    with (@None (list (Capybara.hval (M := M)))) by (now destruct (String.eqb k "*")).
  unfold Capybara.contains at 1. rewrite capybara_deref_last, Hk. cbn [bind].
  unfold Capybara.getitem. rewrite capybara_deref_last, Hk. cbn [bind].
  destruct Hv as [-> | [[b ->] | [z ->]]]; cbn [Capybara.list_items];
    now destruct (String.eqb part "*").
Qed.

Lemma capybara_path_through_scalar_raises_witness :
  Capybara.ingest_document (M := unit) 512 50 " " None (fun _ => false)
    (Capybara.HRef 0) ["views.count"]
    [Capybara.ODict [("id", Capybara.HStr "d1"); ("views", Capybara.HInt 7)]]
  = Raise TypeError.
Proof.
  apply (capybara_path_through_scalar_raises unit 512 50 " " None (fun _ => false)
           [Capybara.ODict [("id", Capybara.HStr "d1"); ("views", Capybara.HInt 7)]] 0
           [("id", Capybara.HStr "d1"); ("views", Capybara.HInt 7)]
           "views.count" "views" "count" (Capybara.HInt 7)).
  - reflexivity.
  - reflexivity.
  - reflexivity.
  - right. right. now exists 7.
Defined.

(** ** langchain: the values under a wildcard, and their identifiers *)

Lemma langchain_wildcard_leaves (items : list value) :
  forall i current_path,
    List.concat
      (map (fun ii : Z * value =>
              Langchain.extract_field_value [] (snd ii)
                (current_path ++ [str_of_Z (fst ii)])%list)
           (enumerate_from i items))
    = map str items.
Proof.
  induction items as [| v items IH]; intros i cp; [reflexivity |].
  cbn [enumerate_from map List.concat]. rewrite IH. reflexivity.
Qed.

(** X17: in langchain a pattern made of a key and a wildcard resolves
    to the elements of the sequence found under the key, each as its
    text ([str]), in element order and with none left out. *)
Theorem langchain_wildcard_values :
  forall document pattern k items,
    tokens "." pattern = [k; "*"] ->
    k <> "*" ->
    lookup k document = Some (VList items) ->
    Langchain.extract_field_value (tokens "." pattern) (VDict document) []
    = map str items.
Proof.
  intros document pattern k items Hp Hk Hl. rewrite Hp.
  cbn [Langchain.extract_field_value].
  apply String.eqb_neq in Hk. rewrite Hk, Hl.
  exact (langchain_wildcard_leaves items 0 [k]).
Qed.

Lemma langchain_wildcard_values_witness :
  Langchain.extract_field_value (tokens "." "tags.*")
    (VDict [("tags", VList [VStr "x"; VInt 3; VNone])]) []
  = ["x"; "3"; "None"].
Proof.
  apply (langchain_wildcard_values [("tags", VList [VStr "x"; VInt 3; VNone])]
           "tags.*" "tags" [VStr "x"; VInt 3; VNone]).
  - reflexivity.
  - discriminate.
  - reflexivity.
Defined.

Lemma langchain_first_chunk_id split_text chunk_size chunk_overlap separator
    doc_id field_pattern value :
  value <> "" ->
  split_text chunk_size chunk_overlap separator value <> [] ->
  exists rest,
    map Langchain.chunk_id
      (Langchain.value_chunks split_text chunk_size chunk_overlap separator
         doc_id field_pattern value)
    = (str doc_id ++ "_" ++ field_pattern ++ "_" ++ str_of_Z 1)%string :: rest.
Proof.
  intros Hv Hs. unfold Langchain.value_chunks. rewrite (nonempty_true _ Hv). cbn [negb].
  unfold enumerate.
  destruct (split_text chunk_size chunk_overlap separator value) as [| c cs];
    [congruence |].
  cbn [enumerate_from map Langchain.make_chunk Langchain.chunk_id fst]. eauto.
Qed.

(** X18: langchain's chunk identifiers are made of the document id, the
    pattern and the position only, so the chunks of two values that one
    wildcard pattern resolves to get the same identifiers: the list of
    identifiers handed to the store has a repetition. *)
Theorem langchain_wildcard_ids_repeat :
  forall split_text chunk_size chunk_overlap separator document pattern k v1 v2,
    tokens "." pattern = [k; "*"] ->
    k <> "*" ->
    lookup k document = Some (VList [VStr v1; VStr v2]) ->
    v1 <> "" -> v2 <> "" ->
    split_text chunk_size chunk_overlap separator v1 <> [] ->
    split_text chunk_size chunk_overlap separator v2 <> [] ->
    ~ NoDup (map Langchain.chunk_id
               (Langchain.ingest_document split_text chunk_size chunk_overlap separator
                  document [pattern])).
Proof.
  intros split_text chunk_size chunk_overlap separator document pattern k v1 v2
         Hp Hk Hl Hv1 Hv2 Hs1 Hs2 Hnd.
  unfold Langchain.ingest_document in Hnd. cbn [flat_map] in Hnd.
  rewrite app_nil_r in Hnd.
  assert (Hvalues : Langchain.extract_field_value (tokens "." pattern) (VDict document) []
                    = map str [VStr v1; VStr v2]).
  { rewrite Hp. cbn [Langchain.extract_field_value].
    apply String.eqb_neq in Hk. rewrite Hk, Hl.
    exact (langchain_wildcard_leaves [VStr v1; VStr v2] 0 [k]). }
  rewrite Hvalues in Hnd.
  cbn [map str flat_map] in Hnd. rewrite app_nil_r, map_app in Hnd.
  destruct (langchain_first_chunk_id split_text chunk_size chunk_overlap separator
              (Langchain.document_id document) pattern v1 Hv1 Hs1) as [r1 H1].
  destruct (langchain_first_chunk_id split_text chunk_size chunk_overlap separator
              (Langchain.document_id document) pattern v2 Hv2 Hs2) as [r2 H2].
  rewrite H1, H2 in Hnd. cbn [app] in Hnd.
  apply NoDup_cons_iff in Hnd. destruct Hnd as [Hin _].
  apply Hin, in_or_app. right. now left.
Qed.

Lemma langchain_wildcard_ids_repeat_witness :
  ~ NoDup (map Langchain.chunk_id
             (Langchain.ingest_document (fun _ _ _ text => [text]) 512 50 " "
                [("id", VStr "d1"); ("tags", VList [VStr "x"; VStr "y"])] ["tags.*"])).
Proof.
  apply (langchain_wildcard_ids_repeat (fun _ _ _ text => [text]) 512 50 " "
           [("id", VStr "d1"); ("tags", VList [VStr "x"; VStr "y"])] "tags.*" "tags"
           "x" "y"); (reflexivity || discriminate).
Defined.

(** ** pgvector: the JSON text behind the fallback identifier *)

Lemma ascii_compare_refl (a : ascii) : Ascii.compare a a = Eq.
Proof. unfold Ascii.compare. apply N.compare_refl. Qed.

Lemma string_compare_refl (s : string) : String.compare s s = Eq.
Proof.
  induction s as [| c s IH]; [reflexivity |].
  cbn. now rewrite ascii_compare_refl.
Qed.

Lemma string_compare_lt_trans (a : string) :
  forall b c,
    String.compare a b = Lt -> String.compare b c = Lt -> String.compare a c = Lt.
Proof.
  induction a as [| x a IH]; intros [| y b] [| z c] Hab Hbc; cbn in *;
    try discriminate; try reflexivity.
  destruct (Ascii.compare x y) eqn:Hxy; try discriminate;
    destruct (Ascii.compare y z) eqn:Hyz; try discriminate.
  - apply Ascii.compare_eq_iff in Hxy, Hyz. subst. rewrite ascii_compare_refl.
    now apply IH with b.
  - apply Ascii.compare_eq_iff in Hxy. subst. now rewrite Hyz.
  - apply Ascii.compare_eq_iff in Hyz. subst. now rewrite Hxy.
  - unfold Ascii.compare in *. rewrite N.compare_lt_iff in Hxy, Hyz.
    assert (H : (N_of_ascii x ?= N_of_ascii z)%N = Lt)
      by (apply N.compare_lt_iff; lia).
    now rewrite H.
Qed.

Lemma string_leb_cases (a b : string) :
  String.leb a b = true <-> String.compare a b = Lt \/ a = b.
Proof.
  unfold String.leb. split.
  - destruct (String.compare a b) eqn:H; try discriminate; intros _.
    + right. now apply String.compare_eq_iff.
    + now left.
  - intros [-> | ->]; [reflexivity | now rewrite string_compare_refl].
Qed.

Lemma string_leb_trans (a b c : string) :
  String.leb a b = true -> String.leb b c = true -> String.leb a c = true.
Proof.
  rewrite !string_leb_cases. intros [Hab | ->] [Hbc | ->]; auto.
  left. now apply string_compare_lt_trans with b.
Qed.

Lemma insert_member_ordered (a b : string * string) :
  String.leb (fst a) (fst b) = true ->
  fst a <> fst b ->
  forall l,
    PgVector.insert_member a (PgVector.insert_member b l)
    = PgVector.insert_member b (PgVector.insert_member a l).
Proof.
  intros Hab Hne.
  assert (Hba : String.leb (fst b) (fst a) = false).
  { destruct (String.leb (fst b) (fst a)) eqn:H; [| reflexivity].
    exfalso. apply Hne. now apply String.leb_antisym. }
  induction l as [| m l IH]; cbn [PgVector.insert_member].
  - now rewrite Hab, Hba.
  - destruct (String.leb (fst a) (fst m)) eqn:Ham;
      destruct (String.leb (fst b) (fst m)) eqn:Hbm;
      cbn [PgVector.insert_member]; rewrite ?Hab, ?Hba, ?Ham, ?Hbm; try reflexivity.
    + rewrite (string_leb_trans _ _ _ Hab Hbm) in Ham. discriminate Ham.
    + now rewrite IH.
Qed.

Lemma insert_member_comm (a b : string * string) :
  fst a <> fst b ->
  forall l,
    PgVector.insert_member a (PgVector.insert_member b l)
    = PgVector.insert_member b (PgVector.insert_member a l).
Proof.
  intros Hne l. destruct (String.leb_total (fst a) (fst b)) as [H | H].
  - now apply insert_member_ordered.
  - symmetry. apply insert_member_ordered; [exact H | congruence].
Qed.

(** Members with distinct keys are sorted into the same list whatever
    their order. *)
Lemma sort_members_permutation (l l' : list (string * string)) :
  Permutation l l' ->
  NoDup (map fst l) ->
  PgVector.sort_members l = PgVector.sort_members l'.
Proof.
  unfold PgVector.sort_members.
  induction 1 as [| x l l' Hp IH | x y l | l l' l'' Hp1 IH1 Hp2 IH2]; intros Hnd.
  - reflexivity.
  - cbn [fold_right]. rewrite IH; [reflexivity |]. now inversion Hnd.
  - cbn [fold_right]. apply insert_member_comm.
    cbn [map] in Hnd. inversion Hnd as [| ? ? Hin _]. subst.
    intros Heq. apply Hin. left. congruence.
  - rewrite IH1 by exact Hnd. apply IH2.
    apply (Permutation_NoDup (l := map fst l)); [now apply Permutation_map | exact Hnd].
Qed.

Lemma lookup_permutation k (d d' : list (string * value)) :
  Permutation d d' ->
  NoDup (map fst d) ->
  lookup k d = lookup k d'.
Proof.
  induction 1 as [| [k0 v0] d d' Hp IH | [k1 v1] [k2 v2] d | d d' d'' Hp1 IH1 Hp2 IH2];
    intros Hnd.
  - reflexivity.
  - cbn [lookup]. destruct (String.eqb k k0); [reflexivity |].
    apply IH. now inversion Hnd.
  - cbn [lookup].
    destruct (String.eqb_spec k k2) as [-> | H2];
      destruct (String.eqb_spec k2 k1) as [-> | H1]; try reflexivity.
    + cbn [map fst] in Hnd. inversion Hnd as [| ? ? Hin _]. subst.
      exfalso. apply Hin. now left.
  - rewrite IH1 by exact Hnd. apply IH2.
    apply (Permutation_NoDup (l := map fst d)); [now apply Permutation_map | exact Hnd].
Qed.

(** X19: the JSON text pgvector hashes for a document without "id" is
    canonical, as [sort_keys=True] intends: two documents with the same
    entries in another order give the same text and hence, under one
    hash function, the same document id. *)
Theorem pgvector_document_id_ignores_key_order :
  forall (py_hash : string -> Z) (d d' : list (string * value)),
    Permutation d d' ->
    NoDup (map fst d) ->
    PgVector.json_dumps true (VDict d) = PgVector.json_dumps true (VDict d')
    /\ PgVector.document_id py_hash d = PgVector.document_id py_hash d'.
Proof.
  intros py_hash d d' Hp Hnd.
  assert (Hjson : PgVector.json_dumps true (VDict d) = PgVector.json_dumps true (VDict d')).
  { cbn [PgVector.json_dumps].
    rewrite (sort_members_permutation
               (map (fun kv => (fst kv, PgVector.json_dumps true (snd kv))) d)
               (map (fun kv => (fst kv, PgVector.json_dumps true (snd kv))) d')).
    - reflexivity.
    - now apply Permutation_map.
    - now rewrite map_map. }
  split; [exact Hjson |].
  unfold PgVector.document_id.
  rewrite <- (lookup_permutation "id" d d' Hp Hnd). now rewrite Hjson.
Qed.

Lemma pgvector_document_id_ignores_key_order_witness :
  PgVector.json_dumps true (VDict [("title", VStr "a"); ("body", VStr "b")])
  = PgVector.json_dumps true (VDict [("body", VStr "b"); ("title", VStr "a")])
  /\ PgVector.document_id (fun _ => 7) [("title", VStr "a"); ("body", VStr "b")]
     = PgVector.document_id (fun _ => 7) [("body", VStr "b"); ("title", VStr "a")].
Proof.
  apply (pgvector_document_id_ignores_key_order (fun _ => 7)
           [("title", VStr "a"); ("body", VStr "b")]
           [("body", VStr "b"); ("title", VStr "a")]).
  - apply perm_swap.
  - repeat constructor; cbn; intuition discriminate.
Defined.

(** ** Identifiers and positions in mongo, pgvector and pinecone *)

Lemma enumerate_positions {A} (l : list A) :
  map fst (enumerate l) = map Z.of_nat (seq 0 (List.length l)).
Proof.
  unfold enumerate. change 0 with (Z.of_nat 0). generalize 0%nat.
  induction l as [| x l IH]; intros n; cbn [enumerate_from map List.length seq fst];
    [reflexivity |].
  f_equal. replace (Z.of_nat n + 1) with (Z.of_nat (S n)) by lia. apply IH.
Qed.

Lemma enumerate_items {A} (l : list A) :
  map (fun ic : Z * A => snd ic) (enumerate l) = l.
Proof.
  unfold enumerate. generalize 0.
  induction l as [| x l IH]; intros i; cbn [enumerate_from map snd]; [reflexivity |].
  f_equal. apply IH.
Qed.

Lemma positions_distinct (n : nat) : NoDup (map Z.of_nat (seq 0 n)).
Proof.
  apply NoDup_map_injective; [| apply seq_NoDup]. intros x y _ _ H. lia.
Qed.

(** X20: the chunk ids mongo gives to the chunks of one field are
    pairwise distinct, so within a field no upsert filter matches the
    record of another chunk. *)
Theorem mongo_field_chunk_ids_distinct :
  forall (E : Type) chunk_size chunk_overlap separator (model : option (string -> E))
         document field,
    separator <> "" ->
    exists ops,
      Mongo.field_operations chunk_size chunk_overlap separator model document field
      = Ok ops
      /\ NoDup (map Mongo.filter_chunk_id ops)
      /\ Forall (fun o => Mongo.set_chunk_id o = Mongo.filter_chunk_id o
                          /\ Mongo.filter_doc_id o = Mongo.document_id document) ops.
Proof.
  intros E chunk_size chunk_overlap separator model document field Hsep.
  unfold Mongo.field_operations.
  destruct (negb (nonempty _)).
  - exists []. repeat split; constructor.
  - destruct (mongo_chunk_text_returns chunk_size chunk_overlap separator
                (Mongo.extract_field_content (VDict document) (tokens "." field)) Hsep)
      as [chunks [-> _]].
    cbn [bind]. eexists. split; [reflexivity |]. split.
    + rewrite map_map.
      rewrite (map_ext _ (fun ic : Z * string => Mongo.chunk_id field (fst ic)))
        by (now intros [i c]).
      rewrite <- (map_map fst (Mongo.chunk_id field)), enumerate_positions.
      apply NoDup_map_injective; [| apply positions_distinct].
      intros x y _ _ Hxy. unfold Mongo.chunk_id in Hxy.
      repeat apply string_append_cancel in Hxy. apply str_of_Z_inj in Hxy. lia.
    + apply Forall_forall. intros o Ho. apply in_map_iff in Ho.
      destruct Ho as [[i c] [<- _]]. split; reflexivity.
Qed.

Lemma mongo_field_chunk_ids_distinct_witness :
  " " <> ""
  /\ exists ops,
       Mongo.field_operations (E := unit) 3 1 " " None title_doc "title" = Ok ops
       /\ NoDup (map Mongo.filter_chunk_id ops)
       /\ Forall (fun o => Mongo.set_chunk_id o = Mongo.filter_chunk_id o
                           /\ Mongo.filter_doc_id o = Mongo.document_id title_doc) ops.
Proof.
  assert (H : " " <> "") by discriminate.
  split; [exact H |].
  exact (mongo_field_chunk_ids_distinct unit 3 1 " " None title_doc "title" H).
Defined.

Lemma map_res_total {A B} (f : A -> res B) (g : A -> B) (l : list A) :
  (forall x, f x = Ok (g x)) -> map_res f l = Ok (map g l).
Proof.
  intros H. induction l as [| x l IH]; cbn [map_res map]; [reflexivity |].
  now rewrite H, IH.
Qed.

(** X21: the rows pgvector writes for one text are keyed by the
    document id, the field pattern and the positions 0, 1, 2, ... of
    the chunks, without a gap, and they carry the chunks in order. *)
Theorem pgvector_text_rows_keys :
  forall (E : Type) (py_hash : string -> Z) chunk_size chunk_overlap separator
         (embed_text : string -> E) fuel document field rows text chunks,
    text <> "" ->
    PgVector.create_chunks chunk_size chunk_overlap separator fuel text = Ok chunks ->
    exists new_rows,
      PgVector.text_rows py_hash chunk_size chunk_overlap separator (Some embed_text)
        fuel document field rows text = Ok (rows ++ new_rows)%list
      /\ map PgVector.chunk_index new_rows = map Z.of_nat (seq 0 (List.length chunks))
      /\ map PgVector.chunk_text new_rows = chunks
      /\ Forall (fun r => PgVector.doc_id r = PgVector.document_id py_hash document
                          /\ PgVector.field_name r = field
                          /\ PgVector.embedding r = embed_text (PgVector.chunk_text r))
                new_rows.
Proof.
  intros E py_hash chunk_size chunk_overlap separator embed_text fuel document field
         rows text chunks Htext Hc.
  unfold PgVector.text_rows. rewrite (nonempty_true _ Htext). cbn [negb].
  rewrite Hc. cbn [bind].
  rewrite (map_res_total _
             (fun ic : Z * string =>
                {| PgVector.doc_id := PgVector.document_id py_hash document;
                   PgVector.field_name := field;
                   PgVector.chunk_index := fst ic;
                   PgVector.chunk_text := snd ic;
                   PgVector.embedding := embed_text (snd ic);
                   PgVector.metadata :=
                     PgVector.json_dumps false (VDict [("document", VDict document)]) |}))
    by reflexivity.
  cbn [bind]. eexists. split; [reflexivity |]. split; [| split].
  - rewrite map_map. cbn [PgVector.chunk_index]. apply enumerate_positions.
  - rewrite map_map. cbn [PgVector.chunk_text].
    apply enumerate_items.
  - apply Forall_forall. intros r Hr. apply in_map_iff in Hr.
    destruct Hr as [ic [<- _]]. repeat split.
Qed.

Lemma pgvector_text_rows_keys_witness :
  exists new_rows,
    PgVector.text_rows (fun _ => 7) 3 1 " " (Some (fun _ : string => tt)) 4 title_doc
      "title" [] "a b c d e" = Ok ([] ++ new_rows)%list
    /\ map PgVector.chunk_index new_rows = map Z.of_nat (seq 0 4)
    /\ map PgVector.chunk_text new_rows = ["a b"; "b c"; "c d"; "d e"]
    /\ Forall (fun r => PgVector.doc_id r = PgVector.document_id (fun _ => 7) title_doc
                        /\ PgVector.field_name r = "title"
                        /\ PgVector.embedding r = tt)
              new_rows.
Proof.
  apply (pgvector_text_rows_keys unit (fun _ => 7) 3 1 " " (fun _ => tt) 4 title_doc
           "title" [] "a b c d e" ["a b"; "b c"; "c d"; "d e"]).
  - discriminate.
  - reflexivity.
Defined.

(** X22: with an embedding model pinecone adds, for one value, one
    vector per chunk: the vectors carry the chunks in order, are
    numbered 0, 1, 2, ... without a gap, and their ids are made of the
    document id, the field pattern and that number. *)
Theorem pinecone_value_vectors_keys :
  forall (E : Type) chunk_size chunk_overlap separator (embed_text : string -> E)
         fuel doc_id field_path vectors v chunks,
    Pinecone.is_text_or_number v = true ->
    Pinecone.create_chunks chunk_size chunk_overlap separator fuel (str v) = Ok chunks ->
    exists new_vectors,
      Pinecone.value_vectors chunk_size chunk_overlap separator (Some embed_text) fuel
        doc_id field_path vectors v = Ok (vectors ++ new_vectors)%list
      /\ map Pinecone.meta_chunk_index new_vectors
         = map Z.of_nat (seq 0 (List.length chunks))
      /\ map Pinecone.meta_text new_vectors = chunks
      /\ Forall (fun x => Pinecone.chunk_id x
                          = (doc_id ++ "_" ++ field_path ++ "_"
                             ++ str_of_Z (Pinecone.meta_chunk_index x))%string
                          /\ Pinecone.values x = embed_text (Pinecone.meta_text x))
                new_vectors.
Proof.
  intros E chunk_size chunk_overlap separator embed_text fuel doc_id field_path vectors
         v chunks Hv Hc.
  unfold Pinecone.value_vectors. rewrite Hv, Hc. cbn [negb bind].
  eexists. split; [reflexivity |]. split; [| split].
  - rewrite map_map. cbn [Pinecone.make_vector Pinecone.meta_chunk_index].
    apply enumerate_positions.
  - rewrite map_map. cbn [Pinecone.make_vector Pinecone.meta_text].
    apply enumerate_items.
  - apply Forall_forall. intros x Hx. apply in_map_iff in Hx.
    destruct Hx as [ic [<- _]]. split; reflexivity.
Qed.

Lemma pinecone_value_vectors_keys_witness :
  exists new_vectors,
    Pinecone.value_vectors 6 2 " " (Some (fun _ : string => tt)) 6 "d1" "title" []
      (VStr "a b c d e") = Ok ([] ++ new_vectors)%list
    /\ map Pinecone.meta_chunk_index new_vectors = map Z.of_nat (seq 0 3)
    /\ map Pinecone.meta_text new_vectors = ["a b c"; "c d e"; "e"]
    /\ Forall (fun x => Pinecone.chunk_id x
                        = ("d1" ++ "_" ++ "title" ++ "_"
                           ++ str_of_Z (Pinecone.meta_chunk_index x))%string
                        /\ Pinecone.values x = tt)
              new_vectors.
Proof.
  apply (pinecone_value_vectors_keys unit 6 2 " " (fun _ => tt) 6 "d1" "title" []
           (VStr "a b c d e") ["a b c"; "c d e"; "e"]); reflexivity.
Defined.

(** ** capybaradb: a wildcard in last position *)

Lemma capybara_deref_kept {M : Type} (h : Capybara.heap (M := M)) o b x :
  Capybara.deref h b = Some x -> Capybara.deref (h ++ [o])%list b = Some x.
Proof.
  unfold Capybara.deref. intros H. rewrite nth_error_app1; [exact H |].
  apply nth_error_Some. congruence.
Qed.

(** X23: a pattern that ends with the wildcard, over a sequence held
    by the document, makes capybaradb embed nothing: the call returns
    and the mapping it inserts has exactly the entries of the document
    (the elements of the sequence stay plain values), while the store
    that the caller sees is unchanged. *)
Theorem capybara_trailing_wildcard_embeds_nothing :
  forall (M : Type) chunk_size chunk_overlap separator (model : option M)
         (emb_text_valid : Capybara.emb_text -> bool)
         (h0 : Capybara.heap) a entries field k b items,
    Capybara.deref h0 a = Some (Capybara.ODict entries) ->
    tokens "." field = [k; "*"] ->
    Capybara.hlookup k entries = Some (Capybara.HRef b) ->
    Capybara.deref h0 b = Some (Capybara.OList items) ->
    Capybara.ingest_document chunk_size chunk_overlap separator model emb_text_valid
      (Capybara.HRef a) [field] h0
    = Ok (Capybara.HRef (List.length h0), (h0 ++ [Capybara.ODict entries])%list).
Proof.
  intros M chunk_size chunk_overlap separator model emb_text_valid h0 a entries field
         k b items Hdoc Hf Hk Hb.
  unfold Capybara.ingest_document, Capybara.copy.
  rewrite Hdoc. cbn [bind Capybara.new_object for_each].
  unfold Capybara.process_field. cbn [Capybara.process_field_fuel].
  rewrite Hf. cbn [Capybara.walk].
  assert (Hcopy : Capybara.list_items (h0 ++ [Capybara.ODict entries])%list
                    (Capybara.HRef (List.length h0)) = None).
  { unfold Capybara.list_items. now rewrite capybara_deref_last. }
  rewrite Hcopy.
  replace (if String.eqb k "*" then @None (list Capybara.hval) else None)
    with (@None (list (Capybara.hval (M := M)))) by (now destruct (String.eqb k "*")).
  unfold Capybara.contains at 1. rewrite capybara_deref_last, Hk. cbn [bind].
  unfold Capybara.getitem at 1. rewrite capybara_deref_last, Hk. cbn [bind].
  change (String.eqb "*" "*") with true. cbn iota.
  unfold Capybara.list_items.
  rewrite (capybara_deref_kept h0 (Capybara.ODict entries) b _ Hb).
  reflexivity.
Qed.

Lemma capybara_trailing_wildcard_embeds_nothing_witness :
  let h0 := snd (Capybara.load (VDict tags_doc) []) in
  Capybara.ingest_document (M := unit) 100 20 " " None (fun _ => false)
    (Capybara.HRef 1) ["tags.*"] h0
  = Ok (Capybara.HRef 2,
        (h0 ++ [Capybara.ODict [("tags", Capybara.HRef 0)]])%list).
Proof.
  exact (capybara_trailing_wildcard_embeds_nothing unit 100 20 " " None (fun _ => false)
           (snd (Capybara.load (VDict tags_doc) [])) 1 [("tags", Capybara.HRef 0)]
           "tags.*" "tags" 0 [Capybara.HStr "x"; Capybara.HStr "y"]
           eq_refl eq_refl eq_refl eq_refl).
Defined.

(** ** Flattening in pgvector and pinecone *)

Lemma flatten_items_related :
  forall v : value,
    PgVector.flatten_item v
    = map str (filter (fun x => match x with VNone => false | _ => true end)
                 (Pinecone.flatten_item v))
    /\ Forall (fun x => is_list x = false) (Pinecone.flatten_item v).
Proof.
  fix IH 1. intros [| b | z | s | l | d];
    try (split; [reflexivity | repeat constructor]).
  cbn [PgVector.flatten_item Pinecone.flatten_item].
  induction l as [| x l IHl]; [split; [reflexivity | constructor] |].
  cbn [flat_map]. destruct (IH x) as [Hx1 Hx2]. destruct IHl as [Hl1 Hl2].
  split.
  - now rewrite filter_app, map_app, Hx1, Hl1.
  - apply Forall_app. now split.
Qed.

Lemma pinecone_flatten_flat (l : list value) :
  Forall (fun x => is_list x = false) l -> Pinecone.flatten l = l.
Proof.
  unfold Pinecone.flatten. induction 1 as [| x l Hx _ IH]; [reflexivity |].
  cbn [flat_map]. rewrite IH. destruct x; try reflexivity. discriminate.
Qed.

(** X24: pinecone's [flatten] returns the leaves of a nested sequence
    in order: no element of the result is a sequence, and flattening
    again changes nothing.  pgvector's [flatten_list] returns the same
    leaves, without the [None] ones, each turned into its text. *)
Theorem flatten_leaves :
  forall lst : list value,
    Forall (fun x => is_list x = false) (Pinecone.flatten lst)
    /\ Pinecone.flatten (Pinecone.flatten lst) = Pinecone.flatten lst
    /\ PgVector.flatten_list lst
       = map str (filter (fun x => match x with VNone => false | _ => true end)
                    (Pinecone.flatten lst)).
Proof.
  intros lst.
  assert (H : Forall (fun x => is_list x = false) (Pinecone.flatten lst)
              /\ PgVector.flatten_list lst
                 = map str (filter (fun x => match x with VNone => false | _ => true end)
                              (Pinecone.flatten lst))).
  { unfold Pinecone.flatten, PgVector.flatten_list.
    induction lst as [| x lst [IH1 IH2]]; [split; [constructor | reflexivity] |].
    cbn [flat_map]. destruct (flatten_items_related x) as [Hx1 Hx2]. split.
    - apply Forall_app. now split.
    - now rewrite filter_app, map_app, Hx1, IH2. }
  destruct H as [H1 H2]. split; [exact H1 |]. split; [| exact H2].
  now apply pinecone_flatten_flat.
Qed.

(** ** pgvector and pinecone: a wildcard in last position *)

Lemma map_res_const {A B} (f : A -> res B) (b : B) (l : list A) :
  Forall (fun x => f x = Ok b) l -> map_res f l = Ok (map (fun _ => b) l).
Proof.
  induction 1 as [| x l Hx _ IH]; cbn [map_res map]; [reflexivity |].
  now rewrite Hx, IH.
Qed.

Lemma flatten_nones (items : list value) :
  PgVector.flatten_list (map (fun _ => VNone) items) = []
  /\ Pinecone.flatten (map (fun _ => VNone) items) = map (fun _ => VNone) items.
Proof.
  unfold PgVector.flatten_list, Pinecone.flatten.
  induction items as [| x items [IH1 IH2]]; [split; reflexivity |].
  cbn [map flat_map PgVector.flatten_item Pinecone.flatten_item app].
  now rewrite IH1, IH2.
Qed.

(** X25: in pgvector and pinecone a pattern that ends with the
    wildcard, over a sequence whose elements are not mappings (texts,
    numbers, ...), resolves every element to [None]; nothing is
    chunked and the call adds no row and no vector for the field. *)
Theorem trailing_wildcard_stores_nothing :
  forall (E : Type) (py_hash : string -> Z) chunk_size chunk_overlap separator
         (model : option (string -> E)) fuel document field k items rows vectors,
    tokens "." field = [k; "*"] ->
    k <> "*" ->
    lookup k document = Some (VList items) ->
    Forall (fun x => is_dict x = false) items ->
    PgVector.get_field_value (VDict document) field
    = Ok (VList (map (fun _ => VNone) items))
    /\ PgVector.field_rows py_hash chunk_size chunk_overlap separator model fuel
         document rows field = Ok rows
    /\ Pinecone.get_nested_value (VDict document) field
       = Ok (VList (map (fun _ => VNone) items))
    /\ Pinecone.field_vectors chunk_size chunk_overlap separator model fuel document
         (Pinecone.document_id document) vectors field = Ok vectors.
Proof.
  intros E py_hash chunk_size chunk_overlap separator model fuel document field k items
         rows vectors Hf Hk Hl Hitems.
  destruct field as [| c field]; [discriminate Hf |].
  apply String.eqb_neq in Hk.
  assert (Hpg : PgVector.get_field_value (VDict document) (String c field)
                = Ok (VList (map (fun _ => VNone) items))).
  { unfold PgVector.get_field_value.
    cbn [String.length PgVector.get_field_value_fuel]. rewrite Hf.
    cbn [PgVector.walk after_first_star]. rewrite Hk, Hl.
    change (String.eqb "*" "*") with true. cbn iota.
    rewrite (map_res_const _ VNone); [reflexivity |].
    eapply Forall_impl; [| exact Hitems]. intros x Hx.
    cbn [String.length PgVector.get_field_value_fuel].
    change (tokens "." (join "." [])) with [""]. cbn [PgVector.walk].
    change (String.eqb "" "*") with false. cbn iota.
    destruct x; try reflexivity. discriminate Hx. }
  assert (Hpc : Pinecone.get_nested_value (VDict document) (String c field)
                = Ok (VList (map (fun _ => VNone) items))).
  { unfold Pinecone.get_nested_value.
    cbn [String.length Pinecone.get_nested_value_fuel]. rewrite Hf.
    cbn [Pinecone.walk after_first_star]. rewrite Hk, Hl.
    cbn [andb is_list]. change (String.eqb "*" "*") with true. cbn [andb]. cbn iota.
    rewrite (map_res_const _ VNone); [reflexivity |].
    eapply Forall_impl; [| exact Hitems]. intros x Hx.
    cbn [String.length Pinecone.get_nested_value_fuel].
    change (tokens "." (join "." [])) with [""]. cbn [Pinecone.walk].
    change (String.eqb "" "*") with false. cbn [andb]. cbn iota.
    destruct x; try reflexivity. discriminate Hx. }
  destruct (flatten_nones items) as [Hn1 Hn2].
  split; [exact Hpg |]. split; [| split; [exact Hpc |]].
  - unfold PgVector.field_rows. rewrite Hpg. cbn [bind]. now rewrite Hn1.
  - unfold Pinecone.field_vectors. rewrite Hpc. cbn [bind].
    destruct (negb (truthy (VList (map (fun _ => VNone) items)))); [reflexivity |].
    rewrite Hn2. clear. induction items as [| x items IH]; [reflexivity |].
    cbn [map for_each]. unfold Pinecone.value_vectors at 1.
    cbn [Pinecone.is_text_or_number negb bind]. exact IH.
Qed.

Lemma trailing_wildcard_stores_nothing_witness :
  PgVector.get_field_value (VDict tags_doc) "tags.*" = Ok (VList [VNone; VNone])
  /\ PgVector.field_rows (fun _ => 7) 3 1 " " (Some (fun _ : string => tt)) 4
       tags_doc [] "tags.*" = Ok []
  /\ Pinecone.get_nested_value (VDict tags_doc) "tags.*" = Ok (VList [VNone; VNone])
  /\ Pinecone.field_vectors 6 2 " " (Some (fun _ : string => tt)) 4 tags_doc
       (Pinecone.document_id tags_doc) [] "tags.*" = Ok [].
Proof.
  assert (Hk : "tags" <> "*") by discriminate.
  assert (Hitems : Forall (fun x => is_dict x = false) [VStr "x"; VStr "y"])
    by (repeat constructor).
  exact (trailing_wildcard_stores_nothing unit (fun _ => 7) 3 1 " "
           (Some (fun _ => tt)) 4 tags_doc "tags.*" "tags" [VStr "x"; VStr "y"] [] []
           eq_refl Hk eq_refl Hitems).
Defined.

(** ** chroma: a wildcard between two keys *)

Lemma chroma_items_resolved separator k f :
  k <> "" -> f <> "*" ->
  forall items texts,
    Forall2 (fun item s => exists d, item = VDict d /\ lookup f d = Some (VStr s))
            items texts ->
    forall i,
      List.concat (map (fun ii => Chroma.extract_field_value separator [f] (snd ii)
                                    (Chroma.indexed k (fst ii)))
                       (enumerate_from i items))
      = map (fun js => ((k ++ "[" ++ str_of_Z (fst js) ++ "]") ++ "." ++ f, snd js))
            (enumerate_from i texts).
Proof.
  intros Hk Hf items texts H.
  induction H as [| item s items texts [d [-> Hs]] _ IH]; intros i; [reflexivity |].
  cbn [enumerate_from map List.concat fst snd]. rewrite IH.
  cbn [Chroma.extract_field_value]. apply String.eqb_neq in Hf. rewrite Hf.
  cbn [andb]. rewrite Hs. unfold Chroma.indexed, Chroma.dotted.
  rewrite (nonempty_true k Hk).
  rewrite (nonempty_true _ (append_nonempty k _ Hk)). reflexivity.
Qed.

(** X26: for a pattern [k.*.f] over a sequence of mappings that all
    hold a text under [f], chroma resolves one field per element, in
    element order; the field of element number [i] is labelled
    [k[i].f], the index written in brackets. *)
Theorem chroma_wildcard_labels :
  forall separator document k f items texts,
    k <> "" -> k <> "*" -> f <> "*" ->
    lookup k document = Some (VList items) ->
    Forall2 (fun item s => exists d, item = VDict d /\ lookup f d = Some (VStr s))
            items texts ->
    Chroma.extract_field_value separator [k; "*"; f] (VDict document) ""
    = map (fun js => ((k ++ "[" ++ str_of_Z (fst js) ++ "]") ++ "." ++ f, snd js))
          (enumerate texts).
Proof.
  intros separator document k f items texts Hk Hstar Hf Hl Hitems.
  cbn [Chroma.extract_field_value].
  apply String.eqb_neq in Hstar. rewrite Hstar. cbn [andb]. rewrite Hl.
  change (String.eqb "*" "*") with true. cbn [andb is_list].
  change (Chroma.dotted "" k) with k.
  exact (chroma_items_resolved separator k f Hk Hf items texts Hitems 0).
Qed.

Lemma chroma_wildcard_labels_witness :
  Chroma.extract_field_value " " [ "items"; "*"; "name" ]
    (VDict [("items", VList [VDict [("name", VStr "x")]; VDict [("name", VStr "y")]])]) ""
  = [("items[0].name", "x"); ("items[1].name", "y")].
Proof.
  assert (H1 : "items" <> "") by discriminate.
  assert (H2 : "items" <> "*") by discriminate.
  assert (H3 : "name" <> "*") by discriminate.
  assert (H4 : Forall2 (fun item s => exists d, item = VDict d
                                                /\ lookup "name" d = Some (VStr s))
                 [VDict [("name", VStr "x")]; VDict [("name", VStr "y")]] ["x"; "y"]).
  { repeat constructor; eexists; split; reflexivity. }
  exact (chroma_wildcard_labels " "
           [("items", VList [VDict [("name", VStr "x")]; VDict [("name", VStr "y")]])]
           "items" "name" _ ["x"; "y"] H1 H2 H3 eq_refl H4).
Defined.
